(** * Clothing matchmaker notebook: batch embedding, similarity search,
    retrieval and guardrail loop

  A shallow embedding of the Python cells of
  [examples/How_to_combine_GPT4o_with_RAG_Outfit_Assistant.ipynb]:

  - [get_embeddings] with its [tenacity] retry decorator,
  - [batchify], [embed_corpus] and [generate_embeddings],
  - [cosine_similarity_manual] and [find_similar_items],
  - [find_matching_items_with_rag],
  - the matching cell that filters the catalog and collects the image
    paths,
  - the guardrail cell that loops over [list(set(paths))].

  Python [float]s and numpy [float64]s are the kernel's binary64 floats;
  Python [int]s are [Z]; lists are lists; a raised exception is [None].
  External services (the embedding endpoint, the tokenizer, the chat
  model) are section variables. *)

From Stdlib Require Import ZArith QArith Qminmax Floats Lia Lqa.
From stdpp Require Import gmap strings list sorting pretty.

Set Warnings "-register-all".
#[local] Open Scope Z_scope.

(** ** Python sequences: slices and [range] *)

Module Py.

(** A slice bound as CPython's [PySlice_AdjustIndices] clamps it: a
    negative bound counts from the end, and everything is clipped to
    [0 .. len]. *)
Definition adjust_index (len i : Z) : Z :=
  if i <? 0 then Z.max 0 (i + len) else Z.min i len.

(** [l[lo:hi]] *)
Definition slice {A} (lo hi : Z) (l : list A) : list A :=
  let len := Z.of_nat (length l) in
  let lo' := adjust_index len lo in
  let hi' := adjust_index len hi in
  take (Z.to_nat (hi' - lo')) (drop (Z.to_nat lo') l).

(** [l[:hi]] *)
Definition slice_to {A} (hi : Z) (l : list A) : list A := slice 0 hi l.

(** [range(start, stop, step)]; a zero step raises [ValueError]. *)
Definition range (start stop step : Z) : option (list Z) :=
  if step =? 0 then None
  else
    let n :=
      if 0 <? step then (stop - start + step - 1) / step
      else (start - stop - step - 1) / (- step) in
    Some ((λ i : nat, start + Z.of_nat i * step) <$> seq 0 (Z.to_nat n)).

(** [enumerate(l)] *)
Definition enumerate {A} (l : list A) : list (nat * A) := imap pair l.

(** [sorted(l, key=key, reverse=reverse)].  CPython's [list.sort] is a
    stable comparison sort that only ever asks [key(a) < key(b)]; it
    inserts an element to the right of every element it is not smaller
    than.  With [reverse=True] it reverses the list, sorts it and
    reverses the result, which is how it stays stable.  On keys that
    [<] orders as a strict weak order every stable sort returns the
    list that this insertion sort returns. *)
Section Sorted.
Context {A K : Type} (lt : K → K → bool) (key : A → K).

Fixpoint insort_right (x : A) (l : list A) : list A :=
  match l with
  | [] => [x]
  | y :: l' =>
      if lt (key x) (key y) then x :: y :: l' else y :: insort_right x l'
  end.

Definition list_sort (l : list A) : list A :=
  foldl (λ acc x, insort_right x acc) [] l.

Definition sorted (reverse_flag : bool) (l : list A) : list A :=
  if reverse_flag then reverse (list_sort (reverse l)) else list_sort l.

End Sorted.

End Py.

(** ** The matching algorithm: cosine similarity and top-k query *)

Module Sim.

#[local] Open Scope float_scope.

(** An embedding: [np.array(vec, dtype=float)]. *)
Definition vec : Type := list float.

(** The sum of products that [np.dot] returns for two 1-D arrays of one
    length, accumulated from the left (BLAS may group the additions
    differently; nothing below depends on the grouping). *)
Definition dot_sum (v1 v2 : vec) : float :=
  foldl (λ acc xy, acc + xy.1 * xy.2) 0 (zip v1 v2).

(** [np.dot(vec1, vec2)]: shapes that are not aligned raise
    [ValueError]. *)
Definition np_dot (v1 v2 : vec) : option float :=
  if decide (length v1 = length v2) then Some (dot_sum v1 v2) else None.

(** [np.linalg.norm(v)]: the square root of [v.dot(v)]. *)
Definition np_linalg_norm (v : vec) : float := sqrt (dot_sum v v).

Definition cosine_similarity_manual (vec1 vec2 : vec) : option float :=
  dot_product ← np_dot vec1 vec2;
  let norm_vec1 := np_linalg_norm vec1 in
  let norm_vec2 := np_linalg_norm vec2 in
  Some (dot_product / (norm_vec1 * norm_vec2)).

(** The defaults of [find_similar_items]: [threshold=0.5], [top_k=2]. *)
Definition default_threshold : float := 0x1p-1.
Definition default_top_k : Z := 2.

Definition find_similar_items (input_embedding : vec) (embeddings : list vec)
    (threshold : float) (top_k : Z) : option (list (nat * float)) :=
  similarities ←
    mapM (λ iv : nat * vec,
            sim ← cosine_similarity_manual input_embedding iv.2;
            Some (iv.1, sim))
         (Py.enumerate embeddings);
  let filtered_similarities :=
    filter (λ p : nat * float, threshold <=? p.2) similarities in
  let sorted_indices :=
    Py.slice_to top_k (Py.sorted ltb snd true filtered_similarities) in
  Some sorted_indices.

End Sim.

(** ** The embedding client and its retry decorator *)

Module Retry.

#[local] Open Scope Q_scope.

(** The decorator's arguments, as written above [get_embeddings]:
    [wait_random_exponential(min=1, max=40)] and
    [stop_after_attempt(10)]; [multiplier] and [exp_base] keep their
    defaults. *)
Definition wait_min : Q := 1.
Definition wait_max : Q := 40.
Definition multiplier : Q := 1.
Definition exp_base : Z := 2.
Definition max_attempt_number : nat := 10.

(** Modelled from the spec: the retry decorator itself belongs to the
    tenacity package, which the notebook installs and which is not part
    of the repository.  The policy is exponential backoff with
    randomized jitter: before the retry that follows attempt [n] the
    client sleeps for a time drawn between [wait_min] and the window
    [multiplier * exp_base ^ (n - 1)], the window being clipped to
    [wait_min .. wait_max]. *)
Definition wait_exponential (attempt_number : nat) : Q :=
  Qmax (Qmax 0 wait_min)
       (Qmin (multiplier * inject_Z (exp_base ^ (Z.of_nat attempt_number - 1)))
             wait_max).

(** Modelled from the spec: the jitter, [u] being the draw in [0 .. 1]
    of the random generator. *)
Definition wait_random_exponential (u : Q) (attempt_number : nat) : Q :=
  wait_min + u * (wait_exponential attempt_number - wait_min).

(** Modelled from the spec: the hard cap on attempts. *)
Definition stop_after_attempt (attempt_number : nat) : bool :=
  bool_decide (max_attempt_number ≤ attempt_number)%nat.

(** What one decorated call did: the value it returned ([None] when the
    failure was propagated to the caller), the number of calls made to
    the wrapped function, and the sleeps between them. *)
Record retry_trace (R : Type) : Type := RetryTrace {
  returned : option R;
  attempts : nat;
  sleeps : list Q
}.
#[global] Arguments RetryTrace {R} _ _ _.
#[global] Arguments returned {R} _.
#[global] Arguments attempts {R} _.
#[global] Arguments sleeps {R} _.

Section Retrying.
Context {R : Type}.
(** [call n] is what the [n]-th call of the wrapped function does:
    [Some r] when it returns [r], [None] when it raises. *)
Variable call : nat → option R.
(** [jitter n] is the random draw made after the [n]-th failure. *)
Variable jitter : nat → Q.

(** Modelled from the spec: the retry loop.  [budget] bounds the
    recursion; [retrying] starts it with [max_attempt_number], which the
    stop condition never lets run out. *)
Fixpoint retry_from (budget attempt_number : nat) (slept : list Q)
    : retry_trace R :=
  match call attempt_number with
  | Some r => RetryTrace (Some r) attempt_number slept
  | None =>
      if stop_after_attempt attempt_number
      then RetryTrace None attempt_number slept
      else
        match budget with
        | O => RetryTrace None attempt_number slept
        | S budget' =>
            retry_from budget' (S attempt_number)
              (slept ++ [wait_random_exponential (jitter attempt_number)
                           attempt_number])
        end
  end.

Definition retrying : retry_trace R := retry_from max_attempt_number 1 [].

End Retrying.

(** [get_embeddings(input)]: the decorated call of the embeddings
    endpoint; [create n input] is the endpoint's answer to the [n]-th
    request. *)
Definition get_embeddings {I E : Type} (create : nat → I → option (list E))
    (jitter : nat → Q) (input : I) : retry_trace (list E) :=
  retrying (λ n, create n input) jitter.

End Retry.

(** ** Batching and the parallel embedding of the corpus *)

Module Embed.

(** [batchify(iterable, n)], with the batches it yields collected in a
    list; [range] raises on [n = 0] and is empty on a negative [n]. *)
Definition batchify {A} (iterable : list A) (n : Z) : option (list (list A)) :=
  let l := Z.of_nat (length iterable) in
  ndxs ← Py.range 0 l n;
  Some ((λ ndx : Z, Py.slice ndx (Z.min (ndx + n) l) iterable) <$> (ndxs : list Z)).

(** The defaults of [embed_corpus]. *)
Definition default_batch_size : Z := 64.
Definition default_num_workers : Z := 8.
Definition default_max_context_len : Z := 8191.

(** A text after [encoding.encode]: token ids. *)
Definition tokens : Type := list Z.

(** One [Future] of the executor: the batch it was submitted with and
    how far it got. *)
Inductive future_state : Type :=
  | Pending
  | Running
  | Finished (result : option (list Sim.vec)).

Record future : Type := Future {
  text_batch : list tokens;
  state : future_state
}.

(** The executor with the [futures] list of [embed_corpus], the order
    in which [as_completed] has yielded futures so far, and the
    progress bar's counter. *)
Record pool : Type := Pool {
  futures : list future;
  completed : list nat;
  pbar : Z
}.

(** What the threads do: a worker takes a pending future, or a running
    future completes and [as_completed] yields it. *)
Inductive event : Type :=
  | Start (i : nat)
  | Complete (i : nat).

(** What [embed_corpus] does: it raises, or it returns. [Blocked] marks
    an event list that is no run of the executor to its end. *)
Inductive outcome (A : Type) : Type :=
  | Blocked
  | Raised
  | Returned (a : A).
#[global] Arguments Blocked {A}.
#[global] Arguments Raised {A}.
#[global] Arguments Returned {A} _.

Section EmbedCorpus.
(** [tiktoken]'s [encoding.encode]; [encode_batch] maps it over the
    corpus. *)
Variable encode : string → tokens.
(** The texts that the tokenizer refuses: with the defaults of
    [encode_batch] a text that holds a special token raises
    [ValueError]. *)
Variable special_token : string → bool.
(** [get_embeddings(text_batch)] as a worker runs it: [None] when it
    raises (the retries are used up). *)
Variable get_embeddings : list tokens → option (list Sim.vec).

Definition is_running (f : future) : bool :=
  match state f with Running => true | _ => false end.

Definition is_finished (f : future) : bool :=
  match state f with Finished _ => true | _ => false end.

Definition running_count (fs : list future) : nat :=
  length (filter (λ f, is_running f) fs).

(** [executor.submit(get_embeddings, text_batch)] for every batch. *)
Definition submit_all (batches : list (list tokens)) : pool :=
  Pool ((λ b, Future b Pending) <$> batches) [] 0.

(** One event of the pool with [num_workers] threads; [None] when the
    event cannot happen in this state. *)
Definition pool_step (num_workers batch_size : Z) (p : pool) (e : event)
    : option pool :=
  match e with
  | Start i =>
      match futures p !! i with
      | Some (Future b Pending) =>
          if bool_decide (Z.of_nat (running_count (futures p)) < num_workers)
          then Some (Pool (<[i := Future b Running]> (futures p))
                          (completed p) (pbar p))
          else None
      | _ => None
      end
  | Complete i =>
      match futures p !! i with
      | Some (Future b Running) =>
          Some (Pool (<[i := Future b (Finished (get_embeddings b))]> (futures p))
                     (completed p ++ [i]) (pbar p + batch_size))
      | _ => None
      end
  end.

Fixpoint pool_run (num_workers batch_size : Z) (p : pool) (es : list event)
    : option pool :=
  match es with
  | [] => Some p
  | e :: es' =>
      p' ← pool_step num_workers batch_size p e;
      pool_run num_workers batch_size p' es'
  end.

Definition all_done (p : pool) : bool := forallb is_finished (futures p).

(** [future.result()] of a finished future. *)
Definition future_result (f : future) : option (list Sim.vec) :=
  match state f with Finished r => r | _ => None end.

(** The loop [for future in futures: embeddings.extend(future.result())]. *)
Definition collect (fs : list future) : option (list Sim.vec) :=
  foldl (λ embeddings f,
           embeddings ← embeddings;
           data ← future_result f;
           Some (embeddings ++ data))
        (Some []) fs.

(** The list [encoded_corpus]: every text of the corpus encoded, and
    [encoded_article[:max_context_len]] of each. *)
Definition encoded_corpus (corpus : list string) (max_context_len : Z)
    : list tokens :=
  (λ encoded_article, Py.slice_to max_context_len encoded_article)
    <$> (encode <$> corpus).

(** [embed_corpus(corpus, batch_size, num_workers, max_context_len)]
    when the threads of the pool act in the order [schedule].  The
    corpus is encoded first, which raises on a text that the tokenizer
    refuses.  The printed statistics are left out: they change nothing
    that is returned. *)
Definition embed_corpus (schedule : list event) (corpus : list string)
    (batch_size num_workers max_context_len : Z)
    : outcome (list Sim.vec) :=
  if existsb special_token corpus then Raised
  else
  let encoded_corpus := encoded_corpus corpus max_context_len in
  if bool_decide (num_workers ≤ 0) then Raised
  else
    match batchify encoded_corpus batch_size with
    | None => Raised
    | Some batches =>
        match pool_run num_workers batch_size (submit_all batches) schedule with
        | None => Blocked
        | Some p =>
            if all_done p then
              match collect (futures p) with
              | Some embeddings => Returned embeddings
              | None => Raised
              end
            else Blocked
        end
    end.

(** The schedule of a pool that runs the batches one after the other. *)
Definition sequential_schedule (n : nat) : list event :=
  flat_map (λ i, [Start i; Complete i]) (seq 0 n).

End EmbedCorpus.

End Embed.

(** ** Retrieval: one query per description *)

Module Rag.

(** A row of the styles dataframe, with the columns the cells read. *)
Record CatalogItem : Type := {
  item_id : Z;
  gender : string;
  articleType : string;
  productDisplayName : string;
  embeddings : Sim.vec
}.

(** The threshold [find_matching_items_with_rag] passes: [0.6], that is
    the binary64 number nearest to it. *)
Definition rag_threshold : float := 0x1.3333333333333p-1.

(** *** numpy on the answer of the endpoint

    [get_embeddings([desc])] is a list of vectors, one for each input,
    and [find_similar_items] is called with the whole list as
    [input_embedding].  numpy reads a list of [k] vectors of one length
    as a matrix with [k] rows, and the empty list as an empty vector. *)

(** What [cosine_similarity_manual] returns then: an array with one
    similarity for each row of the matrix or, for the empty list, a
    scalar. *)
Inductive ndarray : Type :=
  | Scalar (x : float)
  | Array (xs : list float).

(** [cosine_similarity_manual(vec1, vec2)] for a list of vectors
    [vec1].  Rows of different lengths raise in [np.array], as do
    shapes that [np.dot] cannot align; the norm of a matrix is the
    square root of the sum of the squares of its entries. *)
Definition cosine_similarity_matrix (vec1 : list Sim.vec) (vec2 : Sim.vec)
    : option ndarray :=
  let norm_vec1 := sqrt (Sim.dot_sum (concat vec1) (concat vec1)) in
  let norm_vec2 := Sim.np_linalg_norm vec2 in
  match vec1 with
  | [] =>
      dot_product ← Sim.np_dot [] vec2;
      Some (Scalar (dot_product / (norm_vec1 * norm_vec2))%float)
  | row :: _ =>
      if forallb (λ r, bool_decide (length r = length row)) vec1 then
        dot_product ← mapM (λ r, Sim.np_dot r vec2) vec1;
        Some (Array ((λ d, d / (norm_vec1 * norm_vec2))%float <$> dot_product))
      else None
  end.

(** The test [if sim >= threshold] of the comprehension: the truth
    value of an array is that of its element when it has one, and is
    ambiguous, which raises [ValueError], when it has several (an
    array with no element does not arise here). *)
Definition passes (threshold : float) (sim : ndarray) : option bool :=
  match sim with
  | Scalar x => Some (threshold <=? x)%float
  | Array [x] => Some (threshold <=? x)%float
  | Array _ => None
  end.

(** [[(index, sim) for index, sim in similarities if sim >= threshold]] *)
Fixpoint filter_passing (threshold : float) (similarities : list (nat * ndarray))
    : option (list (nat * ndarray)) :=
  match similarities with
  | [] => Some []
  | (index, sim) :: rest =>
      keep ← passes threshold sim;
      filtered ← filter_passing threshold rest;
      Some (if keep : bool then (index, sim) :: filtered else filtered)
  end.

(** The number that a similarity which has passed the test holds. *)
Definition item (sim : ndarray) : float :=
  match sim with
  | Scalar x => x
  | Array [x] => x
  | Array _ => nan
  end.

(** [a < b] as [sorted] reads it on two keys that have passed the
    test. *)
Definition ndarray_lt (a b : ndarray) : bool := (item a <? item b)%float.

(** [find_similar_items(input_embedding, embeddings, threshold, top_k)]
    for a list of vectors [input_embedding]. *)
Definition find_similar_items_matrix (input_embedding : list Sim.vec)
    (embeddings : list Sim.vec) (threshold : float) (top_k : Z)
    : option (list (nat * ndarray)) :=
  similarities ←
    mapM (λ iv : nat * Sim.vec,
            sim ← cosine_similarity_matrix input_embedding iv.2;
            Some (iv.1, sim))
         (Py.enumerate embeddings);
  filtered_similarities ← filter_passing threshold similarities;
  let sorted_indices :=
    Py.slice_to top_k (Py.sorted ndarray_lt snd true filtered_similarities) in
  Some sorted_indices.

(** *** pandas on a pair of a position and a similarity *)

(** A cell of the dataframe, under its label. *)
Inductive cell : Type :=
  | id_cell (value : Z)
  | gender_cell (value : string)
  | articleType_cell (value : string)
  | productDisplayName_cell (value : string)
  | embeddings_cell (value : Sim.vec).

(** The cells of a row, in the order of the columns of the dataframe.
    The columns are those that the cells of the notebook read, in the
    order of the file that it loads: [id] comes first and [gender]
    second; [embeddings], which [generate_embeddings] adds, comes
    last. *)
Definition cells (row : CatalogItem) : list cell :=
  [id_cell (item_id row); gender_cell (gender row);
   articleType_cell (articleType row);
   productDisplayName_cell (productDisplayName row);
   embeddings_cell (embeddings row)].

(** A pandas [Series] made of cells of one row. *)
Definition series : Type := list cell.

(** The cast of a float to an integer: its integer part, toward zero.
    An infinity and NaN have none. *)
Definition trunc (x : float) : option Z :=
  match Prim2SF x with
  | S754_zero _ => Some 0
  | S754_finite s m e =>
      let a := if 0 <=? e then Z.pos m * 2 ^ e else Z.pos m / 2 ^ (- e) in
      Some (if s then - a else a)
  | _ => None
  end.

(** An integer as a float. *)
Definition of_Z (n : Z) : float := PrimFloat.of_uint63 (Uint63.of_Z n).

(** [row.iloc[arr]] for an array of floats: pandas checks the floats
    against the number of cells ([IndexError] when one is out of
    bounds), casts them to integers and takes the cells at these
    positions, a negative position counting from the end. *)
Definition series_take (row : list cell) (arr : list float) : option series :=
  let n := Z.of_nat (length row) in
  if existsb (λ x, (of_Z n <=? x) || (x <? - of_Z n))%float arr then None
  else
    mapM (λ x,
            t ← trunc x;
            if decide (- n ≤ t < n)
            then row !! Z.to_nat (if t <? 0 then t + n else t)
            else None)
         arr.

(** [df_items.iloc[i]] for a pair [i] of a position and a similarity,
    which is what [find_similar_items] returns: pandas reads the pair
    as a row and columns, and answers with the cells of the row at the
    positions that the similarity gives.  A scalar is no indexer of
    columns. *)
Definition iloc (df_items : list CatalogItem) (i : nat * ndarray)
    : option series :=
  row ← df_items !! i.1;
  match i.2 with
  | Array arr => series_take (cells row) arr
  | Scalar _ => None
  end.

(** [item['id']]: the value under the label [id], [KeyError] when the
    Series has no such label. *)
Definition series_getitem_id (item : series) : option Z :=
  head (omap (λ c, match c with id_cell value => Some value | _ => None end)
             item).

Section Rag.
(** [get_embeddings(input)] for a list of texts: [None] when it raises. *)
Variable get_embeddings : list string → option (list Sim.vec).

(** The body of [for desc in item_descs]. *)
Definition rag_step (df_items : list CatalogItem) (similar_items : list series)
    (desc : string) : option (list series) :=
  input_embedding ← get_embeddings [desc];
  similar_indices ←
    find_similar_items_matrix input_embedding (embeddings <$> df_items)
      rag_threshold Sim.default_top_k;
  rows ← mapM (iloc df_items) similar_indices;
  Some (similar_items ++ rows).

Definition find_matching_items_with_rag (df_items : list CatalogItem)
    (item_descs : list string) : option (list series) :=
  foldl (λ similar_items desc,
           similar_items ← similar_items;
           rag_step df_items similar_items desc)
        (Some []) item_descs.

End Rag.

(** The image path of a matching item:
    [f'data/sample_clothes/sample_images/{item_id}.jpg']. *)
Definition image_path (item_id : Z) : string :=
  "data/sample_clothes/sample_images/" +:+ pretty item_id +:+ ".jpg".

(** The [paths] list that the display cell fills when each of its
    [matching_items] holds the [id] of a row. *)
Definition candidate_paths (matching_items : list CatalogItem) : list string :=
  (λ item, image_path (item_id item)) <$> matching_items.

End Rag.

(** ** Guardrails: the verification loop *)

Module Guardrail.

(** What [json.loads] returns. *)
Inductive json : Type :=
  | JNull
  | JBool (b : bool)
  | JInt (z : Z)
  | JFloat (f : float)
  | JStr (s : string)
  | JArr (items : list json)
  | JObj (fields : gmap string json).

(** [value[key]] for a string key: only a dict that has the key answers;
    anything else raises ([KeyError], [TypeError]). *)
Definition getitem (value : json) (key : string) : option json :=
  match value with
  | JObj fields => fields !! key
  | _ => None
  end.

(** [value == s] for a string literal [s]. *)
Definition eq_str (value : json) (s : string) : bool :=
  match value with
  | JStr s' => bool_decide (s' = s)
  | _ => false
  end.

(** What the cell has done so far: the paths it sent to [check_match],
    the images it displayed, and the reasons it printed. *)
Record shown : Type := Shown {
  verified : list string;
  displayed : list string;
  reasons : list json
}.

(** What the loop body does with a reply: it displays the image and
    prints the reason, it passes on to the next path, or it raises;
    [Error true] is the exception that comes after the image has been
    displayed, when the reason is looked up. *)
Inductive verdict : Type :=
  | Accept (reason : json)
  | Reject
  | Error (displayed_first : bool).

(** The test [match["answer"] == 'yes'] and the [match["reason"]] that is
    printed when it holds; [reply] is the reply as loaded, [None] when
    there is none. *)
Definition classify (reply : option json) : verdict :=
  match reply with
  | None => Error false
  | Some m =>
      match getitem m "answer" with
      | None => Error false
      | Some answer =>
          if eq_str answer "yes" then
            match getitem m "reason" with
            | Some reason => Accept reason
            | None => Error true
            end
          else Reject
      end
  end.

Section Loop.
(** [list(set(paths))]: the distinct paths in the order the set happens
    to iterate them. *)
Variable list_set : list string → list string.
(** [encode_image_to_base64(path)]: [None] when the file cannot be read. *)
Variable encode_image_to_base64 : string → option string.
(** [check_match(reference, suggested)]: the model's reply, [None] when
    the request raises. *)
Variable check_match : string → string → option string.
(** [json.loads(text)]: [None] when it raises [JSONDecodeError]. *)
Variable json_loads : string → option json.

(** [json.loads(check_match(encoded_image, suggested_image))]. *)
Definition match_of (encoded_image suggested_image : string) : option json :=
  reply ← check_match encoded_image suggested_image;
  json_loads reply.

(** [for path in paths: ...]; the flag tells whether the loop ran to its
    end ([true]) or stopped at an exception. *)
Fixpoint verify_loop (encoded_image : string) (paths : list string) (st : shown)
    : shown * bool :=
  match paths with
  | [] => (st, true)
  | path :: rest =>
      match encode_image_to_base64 path with
      | None => (st, false)
      | Some suggested_image =>
          let st1 := Shown (verified st ++ [path]) (displayed st) (reasons st) in
          match classify (match_of encoded_image suggested_image) with
          | Reject => verify_loop encoded_image rest st1
          | Accept reason =>
              verify_loop encoded_image rest
                (Shown (verified st1) (displayed st1 ++ [path])
                       (reasons st1 ++ [reason]))
          | Error false => (st1, false)
          | Error true =>
              (Shown (verified st1) (displayed st1 ++ [path]) (reasons st1), false)
          end
      end
  end.

(** The guardrail cell. *)
Definition guardrail (encoded_image : string) (paths : list string) : shown * bool :=
  let paths := list_set paths in
  verify_loop encoded_image paths (Shown [] [] []).

End Loop.

(** One iteration order of a set of strings. *)
Definition list_set_elements (paths : list string) : list string :=
  elements (list_to_set paths : gset string).

End Guardrail.

(** ** The cells around the functions: embedding the catalog, filtering
    it, and collecting the image paths *)

Module Cells.

Import Embed Rag.

(** [num_tokens = sum(len(article) for article in encoded_corpus)], the
    count [embed_corpus] prints before it embeds. *)
Definition num_tokens (encoded_corpus : list tokens) : Z :=
  foldl (λ total article, total + Z.of_nat (length article)) 0 encoded_corpus.

(** [df['embeddings'] = embeddings]: pandas raises [ValueError] when the
    list has not one value for each row. *)
Definition set_embeddings_column (df : list CatalogItem)
    (new_embeddings : list Sim.vec) : option (list CatalogItem) :=
  if decide (length new_embeddings = length df) then
    Some (zip_with
            (λ row e,
               {| item_id := item_id row; gender := gender row;
                  articleType := articleType row;
                  productDisplayName := productDisplayName row;
                  embeddings := e |})
            df new_embeddings)
  else None.

Section GenerateEmbeddings.
Variable encode : string → tokens.
Variable special_token : string → bool.
Variable get_embeddings : list tokens → option (list Sim.vec).

(** [generate_embeddings(df, column_name)]: the column is read as
    strings, embedded with the defaults of [embed_corpus], and the
    result is stored in the column [embeddings]. *)
Definition generate_embeddings (schedule : list event) (df : list CatalogItem)
    (column : CatalogItem → string) : outcome (list CatalogItem) :=
  let descriptions := column <$> df in
  match
    embed_corpus encode special_token get_embeddings schedule descriptions
      default_batch_size default_num_workers default_max_context_len
  with
  | Blocked => Blocked
  | Raised => Raised
  | Returned new_embeddings =>
      match set_embeddings_column df new_embeddings with
      | Some df' => Returned df'
      | None => Raised
      end
  end.

End GenerateEmbeddings.

(** The two filters of the matching cell: the items of the analysed
    gender or "Unisex", and among them those of another article type
    than the analysed item. *)
Definition filter_items (styles_df : list CatalogItem)
    (item_gender item_category : string) : list CatalogItem :=
  let filtered_items :=
    filter (λ row, gender row = item_gender ∨ gender row = "Unisex") styles_df in
  filter (λ row, articleType row ≠ item_category) filtered_items.

Section Matching.
Variable get_embeddings : list string → option (list Sim.vec).

(** The loop [for i, item in enumerate(matching_items)] of the display
    cell: the path of each item from its [id]; an item that has no [id]
    raises [KeyError]. *)
Definition collect_paths (matching_items : list series) : option (list string) :=
  mapM (λ item, item_id ← series_getitem_id item; Some (image_path item_id))
       matching_items.

(** The matching cell: filter the catalog, retrieve the items that match
    the descriptions, and list the paths of their images. *)
Definition matching_paths (styles_df : list CatalogItem)
    (item_descs : list string) (item_category item_gender : string)
    : option (list string) :=
  let filtered_items := filter_items styles_df item_gender item_category in
  matching_items ←
    find_matching_items_with_rag get_embeddings filtered_items item_descs;
  collect_paths matching_items.

End Matching.

End Cells.

(** * Vocabulary of the properties

    The definitions the statements and the proofs below speak with:
    classes of floats, the order of a ranking, the invariant of the
    pool, counts of occurrences, and small catalogs, tokenizers and
    endpoints on which the cells are run. *)

Module F64.

#[local] Open Scope float_scope.

(** A decoded float that is a zero of either sign or NaN: what a
    product with a zero can be. *)
Definition sf_zero_or_nan (x : spec_float) : Prop :=
  match x with
  | S754_zero _ | S754_nan => True
  | _ => False
  end.

(** A decoded float that is a zero of either sign. *)
Definition sf_zero (x : spec_float) : Prop :=
  match x with S754_zero _ => True | _ => False end.

(** Case analysis on the exponent and mantissa comparisons that
    [SFcompare] makes on two finite floats. *)
Ltac sf_compare_cases :=
  repeat match goal with
    | |- context [Pos.compare_cont Eq ?a ?b] =>
        change (Pos.compare_cont Eq a b) with (Pos.compare a b);
        destruct (Pos.compare_spec a b)
    | |- context [Z.compare ?a ?b] => destruct (Z.compare_spec a b)
    end;
  simpl; try done; try lia.

Definition zero_or_nan (x : float) : Prop := sf_zero_or_nan (Prim2SF x).

End F64.

Module PySpec.

Section Stable.
Context {A K : Type} (lt : K → K → bool) (key : A → K).

(** Ascending by key, and in the order [C] among equal keys. *)
Definition asc_stable (C : relation A) : relation A :=
  λ a b, lt (key b) (key a) = false ∧ (lt (key a) (key b) = true ∨ C a b).

(** Descending by key, and in the order [C] among equal keys. *)
Definition desc_stable (C : relation A) : relation A :=
  λ a b, lt (key a) (key b) = false ∧ (lt (key b) (key a) = true ∨ C a b).

End Stable.

End PySpec.

Module SimSpec.

Import Sim.
#[local] Open Scope float_scope.

(** The list [similarities] of [find_similar_items]. *)
Definition similarities (input_embedding : vec) (embeddings : list vec)
    : option (list (nat * float)) :=
  mapM (λ iv : nat * vec,
          sim ← cosine_similarity_manual input_embedding iv.2;
          Some (iv.1, sim))
       (Py.enumerate embeddings).

(** The filtered and sorted list, before [[:top_k]] cuts it. *)
Definition ranking (threshold : float) (sims : list (nat * float))
    : list (nat * float) :=
  Py.sorted ltb snd true (filter (λ p : nat * float, threshold <=? p.2) sims).

(** Earlier in the index. *)
Definition index_lt : relation (nat * float) := λ a b, (a.1 < b.1)%nat.

(** The order of a ranking: a higher score first, and among scores that
    are not ordered the smaller index first. *)
Definition ranked : relation (nat * float) :=
  PySpec.desc_stable ltb snd index_lt.

(** The vectors all of whose components are zeros. *)
Definition zero_vector (v : vec) : Prop := Forall (λ x, is_zero x = true) v.

End SimSpec.

Module EmbedSpec.

Import Embed.

(** The number of batches of [batchify] for a positive batch size. *)
Definition batch_count (len n : Z) : nat := Z.to_nat ((len + n - 1) / n).

Section Pool.
Variable encode : string → tokens.
Variable special_token : string → bool.
Variable get_embeddings : list tokens → option (list Sim.vec).

(** What [embed_corpus] returns when the batches are embedded one after
    the other, in the order of the list. *)
Definition embed_corpus_in_order (corpus : list string)
    (batch_size num_workers max_context_len : Z) : outcome (list Sim.vec) :=
  if existsb special_token corpus then Raised
  else
  if bool_decide (num_workers ≤ 0) then Raised
  else
    match batchify (encoded_corpus encode corpus max_context_len) batch_size with
    | None => Raised
    | Some batches =>
        match mapM get_embeddings batches with
        | Some results => Returned (concat results)
        | None => Raised
        end
    end.

(** What every state of the pool keeps: the futures are those of the
    submitted batches, in their order, and a finished future holds what
    [get_embeddings] answers on its batch. *)
Definition pool_inv (batches : list (list tokens)) (p : pool) : Prop :=
  text_batch <$> futures p = batches ∧
  Forall (λ f, ∀ r, state f = Finished r → r = get_embeddings (text_batch f))
         (futures p).

(** A future after the thread that runs it has completed. *)
Definition finish_running (f : future) : future :=
  match state f with
  | Running => Future (text_batch f) (Finished (get_embeddings (text_batch f)))
  | _ => f
  end.

(** A future after it has been started, if need be, and completed. *)
Definition finish (f : future) : future :=
  match state f with
  | Finished _ => f
  | _ => Future (text_batch f) (Finished (get_embeddings (text_batch f)))
  end.

(** The events a future has still to go through. *)
Definition weight (f : future) : nat :=
  match state f with Pending => 2 | Running => 1 | Finished _ => 0 end.

Definition pool_weight (p : pool) : nat := sum_list (weight <$> futures p).

End Pool.

(** A tokenizer and an endpoint to run the cells on: one token for each
    character, no text refused but the end-of-text token itself, and
    for each text the vector of its tokens as floats. *)
Definition endoftext (text : string) : bool :=
  bool_decide (text = "<|endoftext|>").

Definition byte_tokens (text : string) : tokens :=
  (λ a, Z.of_nat (Ascii.nat_of_ascii a)) <$> String.list_ascii_of_string text.

Definition token_vector (t : tokens) : Sim.vec :=
  (λ z, PrimFloat.of_uint63 (Uint63.of_Z z)) <$> t.

Definition token_service (batch : list tokens) : option (list Sim.vec) :=
  Some (token_vector <$> batch).

End EmbedSpec.

Module RagSpec.

Import Rag.

(** The entry of a returned sequence is the [id] cell with the value
    [id]. *)
Definition is_id (id : Z) (item : series) : bool :=
  match item with
  | [id_cell value] => bool_decide (value = id)
  | _ => false
  end.

(** How often the [id] cell with the value [id] stands in a returned
    sequence. *)
Definition occurrences (id : Z) (items : list series) : nat :=
  length (filter (λ item, is_id id item = true) items).

(** A similarity that holds one number, and that one below 1. *)
Definition below_one (sim : ndarray) : bool :=
  match sim with
  | Array [x] => (x <? 1)%float
  | _ => false
  end.

Section Rag.
Variable get_embeddings : list string → option (list Sim.vec).

(** The [similar_indices] of one description. *)
Definition similar_indices (df_items : list CatalogItem) (desc : string)
    : option (list (nat * ndarray)) :=
  input_embedding ← get_embeddings [desc];
  find_similar_items_matrix input_embedding (embeddings <$> df_items)
    rag_threshold Sim.default_top_k.

(** The description [desc] retrieves the row at position [i] with a
    similarity below 1. *)
Definition retrieves (df_items : list CatalogItem) (desc : string) (i : nat)
    : bool :=
  match similar_indices df_items desc with
  | Some hits => existsb (λ h, bool_decide (h.1 = i) && below_one h.2) hits
  | None => false
  end.

(** How many positions the query of the description [desc] returns. *)
Definition retrieved (df_items : list CatalogItem) (desc : string) : nat :=
  match similar_indices df_items desc with
  | Some hits => length hits
  | None => 0
  end.

End Rag.

(** Rows to run the cells on. *)
Definition sneakers : CatalogItem :=
  {| item_id := 1; gender := "Unisex"; articleType := "Shoes";
     productDisplayName := "White Sneakers"; embeddings := [1%float; 0%float] |}.

Definition dress : CatalogItem :=
  {| item_id := 2; gender := "Women"; articleType := "Dresses";
     productDisplayName := "Red Dress"; embeddings := [0%float; 1%float] |}.

(** An endpoint that embeds every description on the first axis: it
    is at similarity 1 with the sneakers. *)
Definition first_axis (input : list string) : option (list Sim.vec) :=
  Some ((λ _, [1%float; 0%float]) <$> input).

(** An endpoint that embeds every description near the first axis: it
    is at similarity 0.949 with the sneakers and 0.316 with the dress. *)
Definition near_axis (input : list string) : option (list Sim.vec) :=
  Some ((λ _, [3%float; 1%float]) <$> input).

End RagSpec.

Module GuardrailSpec.

Import Guardrail.

Section Loop.
Variable encode_image_to_base64 : string → option string.
Variable check_match : string → string → option string.
Variable json_loads : string → option json.

(** The reply on the image at [path], as the loop body loads it. *)
Definition reply_of (encoded_image path : string) : option json :=
  suggested_image ← encode_image_to_base64 path;
  match_of check_match json_loads encoded_image suggested_image.

Definition is_accept (v : verdict) : bool :=
  match v with Accept _ => true | _ => false end.

Definition is_error (v : verdict) : bool :=
  match v with Error _ => true | _ => false end.

(** The loop body displays the image at [path] and goes on. *)
Definition accepted (encoded_image path : string) : Prop :=
  is_accept (classify (reply_of encoded_image path)) = true.

#[global] Instance accepted_dec (encoded_image path : string) :
  Decision (accepted encoded_image path) :=
  decide (is_accept (classify (reply_of encoded_image path)) = true).

(** The loop body raises on the image at [path]. *)
Definition raises (encoded_image path : string) : Prop :=
  is_error (classify (reply_of encoded_image path)) = true.

End Loop.

(** Replies to run the cell on. *)
Definition reply_with (answer : string) : json :=
  JObj (<["answer" := JStr answer]> (<["reason" := JStr "because"]> ∅)).

(** A chat model that answers by the image it is shown: "yes" for
    [a.jpg], "no" for [b.jpg], "maybe" otherwise. *)
Definition stub_check_match (reference suggested : string) : option string :=
  Some (if bool_decide (suggested = "a.jpg") then "yes"
        else if bool_decide (suggested = "b.jpg") then "no" else "maybe").

Definition stub_json_loads (text : string) : option json :=
  Some (reply_with text).

End GuardrailSpec.

Module LoopSpec.

Import Guardrail GuardrailSpec.

Section Loop.
Variable encode_image_to_base64 : string → option string.
Variable check_match : string → string → option string.
Variable json_loads : string → option json.

(** The reply on the image at [path] has the answer "yes". *)
Definition says_yes (encoded_image path : string) : Prop :=
  ∃ m, reply_of encode_image_to_base64 check_match json_loads encoded_image path
         = Some m ∧
       getitem m "answer" = Some (JStr "yes").

(** The reply on the image at [path] has the answer "yes" and the
    reason [reason]. *)
Definition gives_reason (encoded_image path : string) (reason : json) : Prop :=
  ∃ m, reply_of encode_image_to_base64 check_match json_loads encoded_image path
         = Some m ∧
       getitem m "answer" = Some (JStr "yes") ∧
       getitem m "reason" = Some reason.

(** What the body has sent to [check_match] of the path it raises on:
    the path, unless it is the reading of the image that raised. *)
Definition verified_last (path : string) : list string :=
  match encode_image_to_base64 path with Some _ => [path] | None => [] end.

(** What the body has displayed of the path it raises on: the image,
    when it is the lookup of the reason that raised. *)
Definition displayed_last (encoded_image path : string) : list string :=
  match
    classify (reply_of encode_image_to_base64 check_match json_loads
                encoded_image path)
  with
  | Error true => [path]
  | _ => []
  end.

End Loop.

(** An image reader to run the cell on: it fails on [c.jpg]. *)
Definition stub_encode_image (path : string) : option string :=
  if bool_decide (path = "c.jpg") then None else Some path.

(** Another iteration order of a set of strings. *)
Definition list_set_reversed (paths : list string) : list string :=
  reverse (list_set_elements paths).

(** A chat model that answers "yes" for every image. *)
Definition stub_always_yes (reference suggested : string) : option string :=
  Some "yes".

End LoopSpec.

(** * Properties *)

(** ** binary64: comparisons and the zero class

    The kernel's comparisons are specified by [SFcompare] on the decoded
    float; away from NaN it is a total preorder, which is what ranking
    by score relies on.  Products with a zero are a zero or NaN, and a
    quotient of two such values is NaN. *)

Module F64Facts.

Import F64.
#[local] Open Scope float_scope.

Lemma SFltb_asym x y : SFltb x y = true → SFltb y x = false.
Proof.
  unfold SFltb, SFcompare.
  destruct x as [[]|[]| |[] mx ex], y as [[]|[]| |[] my ey];
    simpl; try done; sf_compare_cases.
Qed.

Lemma SFltb_negtrans x y z :
  y ≠ S754_nan → SFltb x y = false → SFltb y z = false → SFltb x z = false.
Proof.
  unfold SFltb, SFcompare.
  destruct x as [[]|[]| |[] mx ex], y as [[]|[]| |[] my ey],
    z as [[]|[]| |[] mz ez];
    simpl; try done; intros _; sf_compare_cases.
Qed.

Lemma SFleb_not_nan x y : SFleb x y = true → x ≠ S754_nan ∧ y ≠ S754_nan.
Proof. destruct x as [[]|[]| |[] mx ex], y as [[]|[]| |[] my ey]; done. Qed.

Lemma SFleb_iff_not_ltb x y :
  x ≠ S754_nan → y ≠ S754_nan → SFleb x y = true ↔ SFltb y x = false.
Proof.
  unfold SFleb, SFltb, SFcompare.
  destruct x as [[]|[]| |[] mx ex], y as [[]|[]| |[] my ey];
    simpl; try done; intros _ _; sf_compare_cases.
Qed.

Lemma SFeqb_iff_not_ltb x y :
  x ≠ S754_nan → y ≠ S754_nan →
  SFeqb x y = true ↔ SFltb x y = false ∧ SFltb y x = false.
Proof.
  unfold SFeqb, SFltb, SFcompare.
  destruct x as [[]|[]| |[] mx ex], y as [[]|[]| |[] my ey];
    simpl; try done; intros _ _; try (split; [done | intros []; done]);
    sf_compare_cases; try (split; [done | intros []; done]).
Qed.

(** *** The same facts on the kernel's floats *)

Lemma Prim2SF_nan : Prim2SF nan = S754_nan.
Proof. reflexivity. Qed.

Lemma SFeqb_refl_iff x : SFeqb x x = false ↔ x = S754_nan.
Proof.
  unfold SFeqb, SFcompare.
  destruct x as [[]|[]| |[] mx ex]; simpl; try done;
    rewrite Z.compare_refl; change (Pos.compare_cont Eq mx mx) with (Pos.compare mx mx);
    rewrite Pos.compare_refl; done.
Qed.

Lemma is_nan_true x : is_nan x = true ↔ Prim2SF x = S754_nan.
Proof.
  unfold is_nan. rewrite FloatAxioms.eqb_spec, negb_true_iff. apply SFeqb_refl_iff.
Qed.

Lemma is_nan_false x : is_nan x = false ↔ Prim2SF x ≠ S754_nan.
Proof.
  rewrite <- is_nan_true. destruct (is_nan x); split; done.
Qed.

Lemma is_nan_eq x : is_nan x = true ↔ x = nan.
Proof.
  rewrite is_nan_true. split.
  - intros H. apply Prim2SF_inj. by rewrite H.
  - by intros ->.
Qed.

Lemma ltb_asym x y : (x <? y) = true → (y <? x) = false.
Proof. rewrite !FloatAxioms.ltb_spec. apply SFltb_asym. Qed.

Lemma ltb_negtrans x y z :
  is_nan y = false → (x <? y) = false → (y <? z) = false → (x <? z) = false.
Proof. rewrite is_nan_false, !FloatAxioms.ltb_spec. apply SFltb_negtrans. Qed.

Lemma leb_not_nan x y : (x <=? y) = true → is_nan x = false ∧ is_nan y = false.
Proof. rewrite FloatAxioms.leb_spec, !is_nan_false. apply SFleb_not_nan. Qed.

Lemma leb_iff_not_ltb x y :
  is_nan x = false → is_nan y = false → (x <=? y) = true ↔ (y <? x) = false.
Proof. rewrite !is_nan_false, FloatAxioms.leb_spec, FloatAxioms.ltb_spec. apply SFleb_iff_not_ltb. Qed.

Lemma eqb_iff_not_ltb x y :
  is_nan x = false → is_nan y = false →
  (x =? y) = true ↔ (x <? y) = false ∧ (y <? x) = false.
Proof. rewrite !is_nan_false, FloatAxioms.eqb_spec, !FloatAxioms.ltb_spec. apply SFeqb_iff_not_ltb. Qed.

Lemma eqb_not_nan x y : (x =? y) = true → is_nan x = false ∧ is_nan y = false.
Proof.
  rewrite FloatAxioms.eqb_spec, !is_nan_false. unfold SFeqb, SFcompare.
  destruct (Prim2SF x) as [[]|[]| |[] mx ex], (Prim2SF y) as [[]|[]| |[] my ey]; done.
Qed.

(** *** Zeros, NaN and what arithmetic makes of them *)

Lemma is_zero_true x : is_zero x = true ↔ sf_zero (Prim2SF x).
Proof.
  unfold is_zero. rewrite FloatAxioms.eqb_spec. change (Prim2SF zero) with (S754_zero false).
  destruct (Prim2SF x) as [[]|[]| |[] mx ex]; done.
Qed.

Lemma is_zero_zero_or_nan x : is_zero x = true → zero_or_nan x.
Proof.
  rewrite is_zero_true. unfold zero_or_nan. by destruct (Prim2SF x).
Qed.

Lemma zero_zero_or_nan : zero_or_nan 0.
Proof. exact I. Qed.

Lemma mul_zero_or_nan_l x y : zero_or_nan x → zero_or_nan (x * y).
Proof.
  unfold zero_or_nan. rewrite FloatAxioms.mul_spec.
  destruct (Prim2SF x) as [sx|sx| |sx mx ex]; try done;
    destruct (Prim2SF y) as [sy|sy| |sy my ey]; done.
Qed.

Lemma mul_zero_or_nan_r x y : zero_or_nan y → zero_or_nan (x * y).
Proof.
  unfold zero_or_nan. rewrite FloatAxioms.mul_spec.
  destruct (Prim2SF y) as [sy|sy| |sy my ey]; try done;
    destruct (Prim2SF x) as [sx|sx| |sx mx ex]; done.
Qed.

Lemma add_zero_or_nan x y : zero_or_nan x → zero_or_nan y → zero_or_nan (x + y).
Proof.
  unfold zero_or_nan. rewrite FloatAxioms.add_spec.
  destruct (Prim2SF x) as [[]|sx| |sx mx ex]; try done;
    destruct (Prim2SF y) as [[]|sy| |sy my ey]; done.
Qed.

Lemma sqrt_zero_or_nan x : zero_or_nan x → zero_or_nan (sqrt x).
Proof.
  unfold zero_or_nan. rewrite FloatAxioms.sqrt_spec.
  destruct (Prim2SF x) as [sx|sx| |sx mx ex]; done.
Qed.

Lemma div_zero_or_nan x y : zero_or_nan x → zero_or_nan y → x / y = nan.
Proof.
  unfold zero_or_nan. intros Hx Hy. apply Prim2SF_inj. rewrite FloatAxioms.div_spec.
  destruct (Prim2SF x) as [sx|sx| |sx mx ex]; try done;
    destruct (Prim2SF y) as [sy|sy| |sy my ey]; done.
Qed.

Lemma div_by_zero_or_nan x y : zero_or_nan y → is_finite (x / y) = false.
Proof.
  unfold zero_or_nan, is_finite, is_nan, is_infinity. intros Hy.
  rewrite !FloatAxioms.eqb_spec, FloatAxioms.abs_spec, FloatAxioms.div_spec.
  change (Prim2SF infinity) with (S754_infinity false).
  destruct (Prim2SF y) as [[]|sy| |sy my ey]; try done;
    destruct (Prim2SF x) as [[]|[]| |[] mx ex]; done.
Qed.

End F64Facts.

(** ** Python sequences: slices, [range] and [sorted] *)

Module PyFacts.

Example slice_to_examples :
  Py.slice_to 2 [10; 20; 30] = [10; 20] ∧
  Py.slice_to 5 [10; 20; 30] = [10; 20; 30] ∧
  Py.slice_to (-1) [10; 20; 30] = [10; 20] ∧
  Py.slice_to (-5) [10; 20; 30] = [] ∧
  Py.slice 1 (-1) [10; 20; 30; 40] = [20; 30].
Proof. repeat split. Qed.

Example range_examples :
  Py.range 0 7 3 = Some [0; 3; 6] ∧
  Py.range 0 6 3 = Some [0; 3] ∧
  Py.range 0 7 (-3) = Some [] ∧
  Py.range 7 0 (-3) = Some [7; 4; 1] ∧
  Py.range 0 7 0 = None.
Proof. repeat split. Qed.

(** A stable sort in reverse: the pairs with key 2 keep their order. *)
Example sorted_example :
  Py.sorted Z.ltb snd true [("a", 1); ("b", 2); ("c", 3); ("d", 2)]
    = [("c", 3); ("b", 2); ("d", 2); ("a", 1)].
Proof. reflexivity. Qed.

Lemma slice_to_nonneg {A} (k : Z) (l : list A) :
  0 ≤ k → Py.slice_to k l = take (Z.to_nat k) l.
Proof.
  intros Hk. unfold Py.slice_to, Py.slice, Py.adjust_index.
  rewrite (proj2 (Z.ltb_ge 0 0)) by lia.
  rewrite (proj2 (Z.ltb_ge k 0)) by lia.
  rewrite (Z.min_l 0) by lia. rewrite Z.sub_0_r. simpl. rewrite drop_0.
  destruct (decide (k ≤ Z.of_nat (length l))).
  - by rewrite Z.min_l by lia.
  - rewrite Z.min_r by lia. rewrite Nat2Z.id.
    rewrite !take_ge; [done | lia | lia].
Qed.

Lemma slice_to_neg {A} (k : Z) (l : list A) :
  k < 0 → Py.slice_to k l = take (length l - Z.to_nat (- k)) l.
Proof.
  intros Hk. unfold Py.slice_to, Py.slice, Py.adjust_index.
  rewrite (proj2 (Z.ltb_ge 0 0)) by lia.
  rewrite (proj2 (Z.ltb_lt k 0)) by lia.
  rewrite (Z.min_l 0) by lia. rewrite Z.sub_0_r. simpl. rewrite drop_0.
  f_equal. lia.
Qed.

(** Whatever the bound, [l[:k]] keeps a prefix of [l]. *)
Lemma slice_to_take {A} (k : Z) (l : list A) :
  ∃ n, Py.slice_to k l = take n l.
Proof.
  destruct (decide (0 ≤ k)).
  - eexists. by apply slice_to_nonneg.
  - eexists. apply slice_to_neg. lia.
Qed.

Lemma slice_to_nil {A} (k : Z) : Py.slice_to k (@nil A) = [].
Proof. destruct (slice_to_take k (@nil A)) as [n ->]. by rewrite take_nil. Qed.

(** [l[lo:hi]] for bounds inside the list. *)
Lemma slice_inside {A} (lo hi : Z) (l : list A) :
  0 ≤ lo → lo ≤ hi → hi ≤ Z.of_nat (length l) →
  Py.slice lo hi l = take (Z.to_nat hi - Z.to_nat lo) (drop (Z.to_nat lo) l).
Proof.
  intros. unfold Py.slice, Py.adjust_index.
  rewrite (proj2 (Z.ltb_ge lo 0)) by lia.
  rewrite (proj2 (Z.ltb_ge hi 0)) by lia.
  rewrite !Z.min_l by lia. f_equal. lia.
Qed.

Lemma range_pos (stop step : Z) :
  0 < step →
  Py.range 0 stop step =
    Some ((λ i : nat, Z.of_nat i * step) <$> seq 0 (Z.to_nat ((stop + step - 1) / step))).
Proof.
  intros Hs. unfold Py.range.
  rewrite (proj2 (Z.eqb_neq step 0)) by lia.
  rewrite (proj2 (Z.ltb_lt 0 step)) by lia.
  by rewrite Z.sub_0_r.
Qed.

Lemma range_neg (stop step : Z) :
  step < 0 → 0 ≤ stop → Py.range 0 stop step = Some [].
Proof.
  intros Hs Hstop. unfold Py.range.
  rewrite (proj2 (Z.eqb_neq step 0)) by lia.
  rewrite (proj2 (Z.ltb_ge 0 step)) by lia.
  replace (Z.to_nat ((0 - stop - step - 1) / - step)) with 0%nat; [done|].
  assert ((0 - stop - step - 1) / - step < 1); [|lia].
  apply Z.div_lt_upper_bound; lia.
Qed.

Lemma StronglySorted_lookup {A} (R : relation A) (l : list A) :
  StronglySorted R l ↔
  ∀ i j a b, (i < j)%nat → l !! i = Some a → l !! j = Some b → R a b.
Proof.
  split.
  - induction 1 as [|x l Hl IH Hx]; intros i j a b Hij Hi Hj; [done|].
    destruct j as [|j]; [lia|]. destruct i as [|i]; simpl in *.
    + injection Hi as <-. rewrite Forall_forall in Hx.
      apply Hx. by eapply list_elem_of_lookup_2.
    + eapply IH; [|done..]. lia.
  - induction l as [|x l IH]; intros H; constructor.
    + apply IH. intros i j a b Hij Hi Hj. apply (H (S i) (S j)); [lia|done..].
    + apply Forall_forall. intros y [j Hj]%list_elem_of_lookup_1.
      apply (H 0%nat (S j)); [lia|done..].
Qed.

Lemma StronglySorted_sublist {A} (R : relation A) (k l : list A) :
  k `sublist_of` l → StronglySorted R l → StronglySorted R k.
Proof.
  induction 1 as [|x k l Hkl IH|x k l Hkl IH]; intros Hl; [done|..].
  - apply StronglySorted_cons in Hl as [Hx Hl].
    apply StronglySorted_cons. split; [|by apply IH].
    eapply Forall_impl with (P := R x); [|done].
    apply Forall_forall. intros y Hy. rewrite Forall_forall in Hx.
    apply Hx. by eapply elem_of_sublist.
  - apply StronglySorted_cons in Hl as [_ Hl]. by apply IH.
Qed.

Lemma StronglySorted_reverse {A} (R : relation A) (l : list A) :
  StronglySorted R l → StronglySorted (flip R) (reverse l).
Proof.
  induction 1 as [|x l Hl IH Hx]; [constructor|].
  rewrite reverse_cons. apply StronglySorted_app. split_and!.
  - intros a b Ha Hb. apply list_elem_of_singleton in Hb as ->.
    rewrite Forall_forall in Hx. apply Hx. by apply elem_of_reverse.
  - done.
  - repeat constructor.
Qed.

Section SortedFacts.
Context {A K : Type} (lt : K → K → bool) (key : A → K).
(** The keys on which [lt] is a strict weak order. *)
Context (P : K → Prop).
Hypothesis lt_asym : ∀ a b, lt a b = true → lt b a = false.
Hypothesis lt_negtrans :
  ∀ a b c, P b → lt a b = false → lt b c = false → lt a c = false.

Lemma insort_right_perm (x : A) (l : list A) :
  Py.insort_right lt key x l ≡ₚ x :: l.
Proof.
  induction l as [|y l IH]; simpl; [done|].
  destruct (lt (key x) (key y)); [done|].
  rewrite IH. apply Permutation_swap.
Qed.

Lemma list_sort_perm (l : list A) : Py.list_sort lt key l ≡ₚ l.
Proof.
  unfold Py.list_sort.
  assert (∀ acc, foldl (λ acc x, Py.insort_right lt key x acc) acc l ≡ₚ acc ++ l)
    as H; [|by rewrite H].
  induction l as [|x l IH]; intros acc; simpl.
  - by rewrite app_nil_r.
  - rewrite IH, insort_right_perm. by rewrite <- Permutation_middle.
Qed.

Lemma sorted_perm (reverse_flag : bool) (l : list A) :
  Py.sorted lt key reverse_flag l ≡ₚ l.
Proof.
  destruct reverse_flag; simpl; [|apply list_sort_perm].
  by rewrite reverse_Permutation, list_sort_perm, reverse_Permutation.
Qed.

Lemma insort_right_sorted (C : relation A) (x : A) (l : list A) :
  Forall (λ y, P (key y)) l →
  Forall (λ y, C y x) l →
  StronglySorted (PySpec.asc_stable lt key C) l →
  StronglySorted (PySpec.asc_stable lt key C) (Py.insort_right lt key x l).
Proof.
  induction l as [|y l IH]; intros HP HC Hl; simpl.
  - repeat constructor.
  - apply StronglySorted_cons in Hl as [Hy Hl].
    apply Forall_cons in HP as [HPy HP]. apply Forall_cons in HC as [HCy HC].
    destruct (lt (key x) (key y)) eqn:Hxy.
    + apply StronglySorted_cons. split; [|by apply StronglySorted_cons].
      constructor; [by split; [apply lt_asym|left]|].
      rewrite Forall_forall in Hy, HP |- *. intros z Hz.
      destruct (Hy z Hz) as [Hzy _].
      destruct (lt (key x) (key z)) eqn:Hxz.
      * split; [by apply lt_asym|by left].
      * rewrite (lt_negtrans _ (key z) _ (HP z Hz) Hxz Hzy) in Hxy. done.
    + apply StronglySorted_cons. split; [|by apply IH].
      rewrite insort_right_perm. constructor; [by split; [|right]|done].
Qed.

Lemma list_sort_sorted (C : relation A) (l : list A) :
  Forall (λ y, P (key y)) l →
  StronglySorted C l →
  StronglySorted (PySpec.asc_stable lt key C) (Py.list_sort lt key l).
Proof.
  unfold Py.list_sort. intros HP Hl.
  assert (∀ acc,
    Forall (λ y, P (key y)) acc →
    Forall (λ a, Forall (C a) l) acc →
    StronglySorted (PySpec.asc_stable lt key C) acc →
    StronglySorted (PySpec.asc_stable lt key C)
      (foldl (λ acc x, Py.insort_right lt key x acc) acc l)) as H.
  { induction l as [|x l IH]; intros acc HPacc HC Hacc; simpl; [done|].
    apply Forall_cons in HP as [HPx HP].
    apply StronglySorted_cons in Hl as [Hx Hl].
    apply IH; [done|done|..].
    - rewrite insort_right_perm. constructor; [done|].
      eapply Forall_impl; [exact HPacc|done].
    - rewrite insort_right_perm. constructor; [done|].
      eapply Forall_impl; [exact HC|]. intros a Ha. by inversion Ha.
    - apply insort_right_sorted; [done| |done].
      eapply Forall_impl; [exact HC|]. intros a Ha. by inversion Ha. }
  apply H; constructor.
Qed.

(** [sorted(l, key=key, reverse=True)] is descending by key and stable:
    elements with equal keys keep the order they had in [l]. *)
Lemma sorted_reverse_stable (C : relation A) (l : list A) :
  Forall (λ y, P (key y)) l →
  StronglySorted C l →
  StronglySorted (PySpec.desc_stable lt key C) (Py.sorted lt key true l).
Proof.
  intros HP Hl. simpl.
  apply StronglySorted_reverse in Hl.
  apply (list_sort_sorted (flip C)) in Hl.
  - apply StronglySorted_reverse in Hl.
    eapply StronglySorted_lookup. intros i j a b Hij Hi Hj.
    rewrite StronglySorted_lookup in Hl. by apply (Hl i j a b Hij Hi Hj).
  - by apply Forall_reverse.
Qed.

End SortedFacts.

End PyFacts.

(** ** The similarity query *)

Module SimFacts.

Import Sim SimSpec.
#[local] Open Scope float_scope.

Lemma find_similar_items_unfold q E t k :
  find_similar_items q E t k =
    sims ← similarities q E; Some (Py.slice_to k (ranking t sims)).
Proof. reflexivity. Qed.

Lemma similarities_lookup q E sims :
  similarities q E = Some sims →
  length sims = length E ∧
  ∀ i p, sims !! i = Some p →
    p.1 = i ∧ ∃ v, E !! i = Some v ∧ cosine_similarity_manual q v = Some p.2.
Proof.
  unfold similarities, Py.enumerate.
  intros [Hlen H]%mapM_Some%Forall2_same_length_lookup.
  rewrite length_imap in Hlen. split; [done|].
  intros i p Hp.
  destruct (E !! i) as [v|] eqn:Hv.
  - specialize (H i (i, v) p). rewrite list_lookup_imap, Hv in H.
    specialize (H eq_refl Hp). simpl in H.
    destruct (cosine_similarity_manual q v) as [s|] eqn:Hs; [|done].
    injection H as <-. eauto.
  - apply lookup_ge_None in Hv. apply lookup_lt_Some in Hp. lia.
Qed.

Lemma similarities_complete q E sims i v s :
  similarities q E = Some sims → E !! i = Some v →
  cosine_similarity_manual q v = Some s → sims !! i = Some (i, s).
Proof.
  intros Hsims Hv Hs. destruct (similarities_lookup _ _ _ Hsims) as [Hlen H].
  destruct (sims !! i) as [p|] eqn:Hp.
  - destruct (H i p Hp) as [Hi (v' & Hv' & Hs')].
    destruct p as [j s']. simpl in *. congruence.
  - apply lookup_ge_None in Hp. apply lookup_lt_Some in Hv. lia.
Qed.

(** The query returns whenever every embedding has the query's length. *)
Lemma cosine_similarity_total (vec1 vec2 : vec) :
  length vec1 = length vec2 → is_Some (cosine_similarity_manual vec1 vec2).
Proof.
  intros H. unfold cosine_similarity_manual, np_dot.
  rewrite decide_True by done. by eexists.
Qed.

Lemma similarities_total q E :
  Forall (λ v, length v = length q) E → is_Some (similarities q E).
Proof.
  intros HE. unfold similarities, Py.enumerate.
  apply mapM_is_Some, Forall_lookup. intros i [j v].
  rewrite list_lookup_imap. intros Hv.
  apply fmap_Some in Hv as (w & Hw & [= -> ->]).
  simpl. rewrite Forall_lookup in HE. specialize (HE i w Hw).
  destruct (cosine_similarity_total q w) as [s ->]; [done|]. by eexists.
Qed.

Lemma similarities_sorted q E sims :
  similarities q E = Some sims → StronglySorted index_lt sims.
Proof.
  intros [_ H]%similarities_lookup. apply PyFacts.StronglySorted_lookup.
  intros i j a b Hij [Ha _]%H [Hb _]%H. unfold index_lt. lia.
Qed.

Lemma filtered_spec (t : float) (sims : list (nat * float)) p :
  p ∈ filter (λ p : nat * float, t <=? p.2) sims ↔ p ∈ sims ∧ (t <=? p.2) = true.
Proof. rewrite list_elem_of_filter, Is_true_true. tauto. Qed.

Lemma ranking_spec t sims p :
  p ∈ ranking t sims ↔ p ∈ sims ∧ (t <=? p.2) = true.
Proof.
  unfold ranking. rewrite (PyFacts.sorted_perm ltb snd true). apply filtered_spec.
Qed.

Lemma ranking_length t sims : (length (ranking t sims) ≤ length sims)%nat.
Proof.
  unfold ranking. rewrite (PyFacts.sorted_perm ltb snd true). apply length_filter.
Qed.

Lemma ranking_sorted q E t sims :
  similarities q E = Some sims → StronglySorted ranked (ranking t sims).
Proof.
  intros Hsims. unfold ranked, ranking.
  apply (PyFacts.sorted_reverse_stable ltb snd (λ s, is_nan s = false)).
  - apply F64Facts.ltb_asym.
  - apply F64Facts.ltb_negtrans.
  - apply Forall_forall. intros p [_ Hp]%filtered_spec.
    by apply F64Facts.leb_not_nan in Hp as [_ ?].
  - eapply PyFacts.StronglySorted_sublist; [apply sublist_filter|].
    by eapply similarities_sorted.
Qed.

Lemma ranking_not_nan t sims p : p ∈ ranking t sims → is_nan p.2 = false.
Proof. intros [_ Hp]%ranking_spec. by apply F64Facts.leb_not_nan in Hp as [_ ?]. Qed.

Lemma ranked_descending (l : list (nat * float)) :
  StronglySorted ranked l → (∀ p, p ∈ l → is_nan p.2 = false) →
  ∀ i j a b, (i < j)%nat → l !! i = Some a → l !! j = Some b →
             (b.2 <=? a.2) = true.
Proof.
  intros Hl Hnan i j a b Hij Ha Hb.
  rewrite PyFacts.StronglySorted_lookup in Hl.
  destruct (Hl i j a b Hij Ha Hb) as [Hab _].
  apply F64Facts.leb_iff_not_ltb; [| |done]; apply Hnan; by eapply list_elem_of_lookup_2.
Qed.

Lemma ranked_ties (l : list (nat * float)) :
  StronglySorted ranked l →
  ∀ i j a b, (i < j)%nat → l !! i = Some a → l !! j = Some b →
             (a.2 =? b.2) = true → (a.1 < b.1)%nat.
Proof.
  intros Hl i j a b Hij Ha Hb Heq.
  rewrite PyFacts.StronglySorted_lookup in Hl.
  destruct (Hl i j a b Hij Ha Hb) as [_ [Hlt|Hidx]]; [|done].
  destruct (F64Facts.eqb_not_nan _ _ Heq) as [Hna Hnb].
  apply F64Facts.eqb_iff_not_ltb in Heq as [_ Hba]; [|done..]. congruence.
Qed.

(** What a query returns is a prefix of the ranking. *)
Lemma find_similar_items_prefix q E t k res :
  find_similar_items q E t k = Some res →
  ∃ sims n, similarities q E = Some sims ∧ res = take n (ranking t sims).
Proof.
  rewrite find_similar_items_unfold. intros H.
  destruct (similarities q E) as [sims|] eqn:Hsims; [|done].
  injection H as <-. destruct (PyFacts.slice_to_take k (ranking t sims)) as [n ->].
  eauto.
Qed.

Lemma take_lookup_Some {A} (l : list A) n i x :
  take n l !! i = Some x → l !! i = Some x.
Proof.
  intros H. assert (i < n)%nat.
  { apply lookup_lt_Some in H. rewrite length_take in H. lia. }
  by rewrite lookup_take_lt in H.
Qed.

Lemma elem_of_take {A} (l : list A) n x : x ∈ take n l → x ∈ l.
Proof. intros [i Hi]%list_elem_of_lookup_1. eapply list_elem_of_lookup_2, take_lookup_Some, Hi. Qed.

Lemma dot_sum_zero_or_nan (v1 v2 : vec) :
  zero_vector v1 ∨ zero_vector v2 → F64.zero_or_nan (dot_sum v1 v2).
Proof.
  intros Hz. unfold dot_sum.
  assert (Forall (λ xy : float * float, F64.zero_or_nan (xy.1 * xy.2)) (zip v1 v2)) as H.
  { apply Forall_forall. intros [x y] Hxy. simpl.
    destruct Hz as [Hz|Hz]; unfold zero_vector in Hz; rewrite Forall_forall in Hz.
    - apply F64Facts.mul_zero_or_nan_l, F64Facts.is_zero_zero_or_nan, Hz.
      by eapply elem_of_zip_l.
    - apply F64Facts.mul_zero_or_nan_r, F64Facts.is_zero_zero_or_nan, Hz.
      by eapply elem_of_zip_r. }
  revert H. generalize F64Facts.zero_zero_or_nan. generalize 0%float as acc.
  induction (zip v1 v2) as [|xy l IH]; intros acc Hacc Hl; simpl; [done|].
  apply Forall_cons in Hl as [Hxy Hl].
  apply IH; [|done]. by apply F64Facts.add_zero_or_nan.
Qed.

Lemma norm_zero_or_nan (v : vec) :
  zero_vector v → F64.zero_or_nan (np_linalg_norm v).
Proof.
  intros Hv. apply F64Facts.sqrt_zero_or_nan, dot_sum_zero_or_nan. by left.
Qed.

(** The ranking does not depend on how [sorted] sorts: any arrangement
    of the filtered list that is descending and keeps the index order
    among ties is the ranking. *)
Lemma ranking_unique q E t sims (l : list (nat * float)) :
  similarities q E = Some sims →
  l ≡ₚ filter (λ p : nat * float, t <=? p.2) sims →
  StronglySorted ranked l → l = ranking t sims.
Proof.
  intros Hsims Hperm Hl.
  apply (StronglySorted_unique_strong ranked); [|done|by eapply ranking_sorted|].
  - intros a b _ _ [Hab [Hba|Hi]] [Hba' [Hab'|Hj]]; try congruence.
    unfold index_lt in *. lia.
  - rewrite Hperm. unfold ranking. by rewrite (PyFacts.sorted_perm ltb snd true).
Qed.

(** No index comes back twice. *)
Lemma find_similar_items_NoDup q E t k res :
  find_similar_items q E t k = Some res → NoDup res.*1.
Proof.
  intros H. destruct (find_similar_items_prefix _ _ _ _ _ H) as (sims & n & Hsims & ->).
  destruct (similarities_lookup _ _ _ Hsims) as [_ Hlook].
  assert (NoDup sims.*1) as Hnd.
  { apply NoDup_alt. intros i j x. rewrite !list_lookup_fmap.
    intros (p & Hp & ->)%fmap_Some (p' & Hp' & Hx)%fmap_Some.
    destruct (Hlook _ _ Hp) as [Hi _]. destruct (Hlook _ _ Hp') as [Hj _]. lia. }
  eapply sublist_NoDup; [|apply fmap_sublist, sublist_take].
  unfold ranking. rewrite (PyFacts.sorted_perm ltb snd true).
  eapply sublist_NoDup; [exact Hnd|]. apply fmap_sublist, sublist_filter.
Qed.

(** C1, as the code has it: for a [top_k] that is not negative the
    query returns at most [top_k] results, every returned score passes
    [score >= threshold], the results are in descending order of score,
    and the cut to [top_k] comes last: the result is the first [top_k]
    entries of the complete ranking, which holds every index whose score
    passes the threshold, in descending order. *)
Theorem find_similar_items_top_k (input_embedding : vec) (embeddings : list vec)
    (threshold : float) (top_k : Z) (res : list (nat * float)) :
  0 ≤ top_k →
  find_similar_items input_embedding embeddings threshold top_k = Some res →
  Z.of_nat (length res) ≤ top_k ∧
  (∀ p, p ∈ res → (threshold <=? p.2) = true) ∧
  (∀ i j a b, (i < j)%nat → res !! i = Some a → res !! j = Some b →
              (b.2 <=? a.2) = true) ∧
  ∃ full,
    find_similar_items input_embedding embeddings threshold
      (Z.of_nat (length embeddings)) = Some full ∧
    res = take (Z.to_nat top_k) full ∧
    (∀ i v s, embeddings !! i = Some v →
              cosine_similarity_manual input_embedding v = Some s →
              (threshold <=? s) = true → (i, s) ∈ full) ∧
    (∀ i j a b, (i < j)%nat → full !! i = Some a → full !! j = Some b →
                (b.2 <=? a.2) = true).
Proof.
  intros Hk. rewrite !find_similar_items_unfold. intros H.
  destruct (similarities input_embedding embeddings) as [sims|] eqn:Hsims; [|done].
  injection H as <-. simpl.
  rewrite PyFacts.slice_to_nonneg by done.
  pose proof (ranking_sorted _ _ threshold _ Hsims) as Hsorted.
  pose proof (ranked_descending _ Hsorted (ranking_not_nan threshold sims)) as Hdesc.
  split_and!.
  - rewrite length_take. lia.
  - intros p Hp%elem_of_take. by apply ranking_spec in Hp as [_ ?].
  - intros i j a b Hij Ha%take_lookup_Some Hb%take_lookup_Some. by eapply Hdesc.
  - exists (ranking threshold sims). split_and!.
    + rewrite PyFacts.slice_to_nonneg by lia. rewrite Nat2Z.id, take_ge; [done|].
      destruct (similarities_lookup _ _ _ Hsims) as [<- _]. apply ranking_length.
    + done.
    + intros i v s Hv Hs Ht. apply ranking_spec. split; [|done].
      eapply list_elem_of_lookup_2, similarities_complete; done.
    + done.
Qed.

(** C1: a query that satisfies every hypothesis of the theorem. *)
Lemma find_similar_items_top_k_witness :
  find_similar_items [1; 0] [[0; 1]; [1; 1]; [2; 0]; [1; 0]] default_threshold 1
    = Some [(2%nat, 1)] ∧
  Z.of_nat (length [(2%nat, 1)]) ≤ 1.
Proof.
  split; [vm_compute; reflexivity|].
  apply (find_similar_items_top_k [1; 0] [[0; 1]; [1; 1]; [2; 0]; [1; 0]]
           default_threshold 1 [(2%nat, 1)]); [lia | vm_compute; reflexivity].
Defined.

(** C1 as stated fails for a negative [top_k]: [[:-1]] drops the last
    entry of the ranking, so one result comes back where at most [-1]
    were promised. *)
Lemma find_similar_items_negative_top_k :
  ∃ res, find_similar_items [1] [[1]; [1]] default_threshold (-1) = Some res ∧
         ¬ (Z.of_nat (length res) ≤ -1).
Proof. exists [(0%nat, 1)]. split; [vm_compute; reflexivity | simpl; lia]. Qed.

(** C5: two results with equal scores come in the order of their
    indices, the earlier embedding first; and the query is a function of
    its arguments. *)
Theorem find_similar_items_ties (input_embedding : vec) (embeddings : list vec)
    (threshold : float) (top_k : Z) (res : list (nat * float)) :
  find_similar_items input_embedding embeddings threshold top_k = Some res →
  (∀ i j a b, (i < j)%nat → res !! i = Some a → res !! j = Some b →
              (a.2 =? b.2) = true → (a.1 < b.1)%nat) ∧
  (∀ res', find_similar_items input_embedding embeddings threshold top_k = Some res' →
           res' = res).
Proof.
  intros H. split; [|congruence].
  destruct (find_similar_items_prefix _ _ _ _ _ H) as (sims & n & Hsims & ->).
  intros i j a b Hij Ha%take_lookup_Some Hb%take_lookup_Some.
  eapply ranked_ties; [by eapply ranking_sorted|done..].
Qed.

(** C5: three embeddings tie with the query; they come back in index
    order. *)
Lemma find_similar_items_ties_witness :
  find_similar_items [1; 0] [[2; 0]; [0; 1]; [1; 0]; [3; 0]] default_threshold 3
    = Some [(0%nat, 1); (2%nat, 1); (3%nat, 1)] ∧
  (0 < 2)%nat.
Proof.
  split; [vm_compute; reflexivity|].
  refine (proj1 (find_similar_items_ties [1; 0] [[2; 0]; [0; 1]; [1; 0]; [3; 0]]
                   default_threshold 3 [(0%nat, 1); (2%nat, 1); (3%nat, 1)] _)
                0%nat 1%nat (0%nat, 1) (2%nat, 1) _ _ _ _);
    [vm_compute; reflexivity | lia | reflexivity | reflexivity | reflexivity].
Defined.

(** C10: every returned pair names a position of [embeddings] and
    carries the cosine similarity of the query with the embedding at
    that position; on an empty list the query returns the empty list. *)
Theorem find_similar_items_well_formed (input_embedding : vec)
    (embeddings : list vec) (threshold : float) (top_k : Z) :
  (∀ res, find_similar_items input_embedding embeddings threshold top_k = Some res →
     ∀ p, p ∈ res →
       (p.1 < length embeddings)%nat ∧
       ∃ v, embeddings !! p.1 = Some v ∧
            cosine_similarity_manual input_embedding v = Some p.2) ∧
  find_similar_items input_embedding [] threshold top_k = Some [].
Proof.
  split.
  - intros res H p Hp.
    destruct (find_similar_items_prefix _ _ _ _ _ H) as (sims & n & Hsims & ->).
    apply elem_of_take, ranking_spec in Hp as [Hp _].
    apply list_elem_of_lookup_1 in Hp as [i Hi].
    destruct (similarities_lookup _ _ _ Hsims) as [Hlen Hlook].
    destruct (Hlook i p Hi) as [-> (v & Hv & Hs)].
    split; [|by eauto]. apply lookup_lt_Some in Hi. lia.
  - rewrite find_similar_items_unfold. simpl.
    change (ranking threshold []) with (@nil (nat * float)).
    by rewrite PyFacts.slice_to_nil.
Qed.

(** C10 on a query with results: the pair that comes back is the
    similarity of the query with the embedding it names. *)
Lemma find_similar_items_well_formed_witness :
  (2 < 4)%nat ∧
  ∃ v, [[0; 1]; [1; 1]; [2; 0]; [1; 0]] !! 2%nat = Some v ∧
       cosine_similarity_manual [1; 0] v = Some 1.
Proof.
  refine (proj1 (find_similar_items_well_formed [1; 0]
                   [[0; 1]; [1; 1]; [2; 0]; [1; 0]] default_threshold 1)
                [(2%nat, 1)] _ (2%nat, 1) _);
    [vm_compute; reflexivity | apply list_elem_of_here].
Defined.

(** C2, as the code has it: [cosine_similarity_manual] has no guard.
    When one of two vectors of one length has a zero norm it still
    returns a value, and never a finite one; when the vector is all
    zeros the value is NaN.  What keeps NaN out of query results is the
    comparison [sim >= threshold], which is false on NaN: no result of
    [find_similar_items] carries a NaN score. *)
Theorem cosine_similarity_zero_norm (vec1 vec2 : vec) :
  length vec1 = length vec2 →
  is_zero (np_linalg_norm vec1) = true ∨ is_zero (np_linalg_norm vec2) = true →
  (∃ sim, cosine_similarity_manual vec1 vec2 = Some sim ∧
          is_finite sim = false ∧
          (zero_vector vec1 ∨ zero_vector vec2 → sim = nan)) ∧
  (∀ embeddings threshold top_k res p,
     find_similar_items vec1 embeddings threshold top_k = Some res →
     p ∈ res → is_nan p.2 = false).
Proof.
  intros Hlen Hnorm. split.
  - unfold cosine_similarity_manual, np_dot. rewrite decide_True by done. simpl.
    eexists. split; [done|]. split.
    + apply F64Facts.div_by_zero_or_nan.
      destruct Hnorm as [H|H]; apply F64Facts.is_zero_zero_or_nan in H.
      * by apply F64Facts.mul_zero_or_nan_l.
      * by apply F64Facts.mul_zero_or_nan_r.
    + intros Hz. apply F64Facts.div_zero_or_nan; [by apply dot_sum_zero_or_nan|].
      destruct Hz as [Hz|Hz].
      * by apply F64Facts.mul_zero_or_nan_l, norm_zero_or_nan.
      * by apply F64Facts.mul_zero_or_nan_r, norm_zero_or_nan.
  - intros E t k res p H Hp.
    destruct (find_similar_items_prefix _ _ _ _ _ H) as (sims & n & Hsims & ->).
    by eapply ranking_not_nan, elem_of_take.
Qed.

(** C2: a zero vector against a unit vector. *)
Lemma cosine_similarity_zero_norm_witness :
  ∃ sim, cosine_similarity_manual [0; 0] [1; 0] = Some sim ∧
         is_finite sim = false ∧
         (zero_vector [0; 0] ∨ zero_vector [1; 0] → sim = nan).
Proof.
  apply (cosine_similarity_zero_norm [0; 0] [1; 0]);
    [reflexivity | left; vm_compute; reflexivity].
Defined.

(** C2 as stated fails: no guard stands before the division, and the
    similarity of a zero vector with any vector is computed, as NaN. *)
Lemma cosine_similarity_zero_is_nan :
  cosine_similarity_manual [0; 0] [1; 0] = Some nan.
Proof. vm_compute. reflexivity. Qed.

(** A norm that underflows to zero gives an infinite similarity, and
    that one passes every threshold. *)
Example find_similar_items_underflow :
  find_similar_items [0x1p-600] [[1]] default_threshold default_top_k
    = Some [(0%nat, infinity)].
Proof. vm_compute. reflexivity. Qed.

End SimFacts.

(** ** The retry policy of the embedding client *)

Module RetryFacts.

Import Retry.
#[local] Open Scope Q_scope.

(** From the first attempt on, the window is [2 ^ (n - 1)], capped at
    [wait_max]. *)
Lemma wait_exponential_window (n : nat) :
  (1 ≤ n)%nat →
  wait_exponential n == Qmin (inject_Z (2 ^ (Z.of_nat n - 1))) 40.
Proof.
  intros Hn. unfold wait_exponential, wait_min, wait_max, multiplier, exp_base.
  assert (1 <= inject_Z (2 ^ (Z.of_nat n - 1))) as Hpow.
  { change 1 with (inject_Z 1). rewrite <- Zle_Qle.
    pose proof (Z.pow_pos_nonneg 2 (Z.of_nat n - 1)). lia. }
  rewrite Qmult_1_l.
  rewrite (Q.max_r 0 1) by done.
  apply Q.max_r. apply Q.min_glb; [done|]. done.
Qed.

Lemma wait_exponential_bounds (n : nat) :
  1 <= wait_exponential n ∧ wait_exponential n <= 40.
Proof.
  unfold wait_exponential, wait_min, wait_max. split.
  - eapply Qle_trans; [|apply Q.le_max_l]. apply Q.le_max_r.
  - apply Q.max_lub.
    + by apply Q.max_lub.
    + apply Q.le_min_r.
Qed.

Lemma wait_random_exponential_bounds (u : Q) (n : nat) :
  0 <= u <= 1 →
  1 <= wait_random_exponential u n ∧
  wait_random_exponential u n <= wait_exponential n.
Proof.
  intros [Hu0 Hu1]. destruct (wait_exponential_bounds n) as [Hlo _].
  unfold wait_random_exponential, wait_min. split; nra.
Qed.

Section Retrying.
Context {R : Type} (call : nat → option R) (jitter : nat → Q).

Lemma retry_from_spec (budget a : nat) (slept : list Q) :
  (1 ≤ a ≤ 10)%nat → (a + budget = 11)%nat →
  let t := retry_from call jitter budget a slept in
  (a ≤ attempts t ≤ 10)%nat ∧
  sleeps t =
    slept ++ ((λ n, wait_random_exponential (jitter n) n)
                <$> seq a (attempts t - a)) ∧
  (∀ n, (a ≤ n < attempts t)%nat → call n = None) ∧
  returned t = call (attempts t) ∧
  (returned t = None → attempts t = 10%nat).
Proof.
  revert a slept. induction budget as [|budget IH]; intros a slept Ha Hsum; [lia|].
  simpl. destruct (call a) eqn:Hc; simpl.
  - rewrite Nat.sub_diag, app_nil_r. split_and!; [lia|lia|done|intros; lia|done|done].
  - unfold stop_after_attempt, max_attempt_number. case_bool_decide; simpl.
    + rewrite Nat.sub_diag, app_nil_r.
      split_and!; [lia|lia|done|intros; lia|done|intros; lia].
    + destruct (IH (S a) (slept ++ [wait_random_exponential (jitter a) a]))
        as ([H1 H2] & H3 & H4 & H5 & H6); [lia..|].
      split_and!; [lia|lia| |intros n Hn|done|done].
      * rewrite H3, <- app_assoc. f_equal.
        replace (attempts _ - a)%nat with (S (attempts
          (retry_from call jitter budget (S a)
             (slept ++ [wait_random_exponential (jitter a) a])) - S a)) by lia.
        done.
      * destruct (decide (n = a)) as [->|]; [done|]. apply H4. lia.
Qed.

End Retrying.

(** Ten failures with the largest jitter: nine sleeps, doubling from one
    time unit up to the cap of forty. *)
Example retrying_all_fail :
  retrying (λ _, @None nat) (λ _, 1) =
    RetryTrace None 10 [1; 2; 4; 8; 16; 32; 40; 40; 40].
Proof. vm_compute. reflexivity. Qed.

(** The third attempt succeeds: two sleeps, no more calls. *)
Example retrying_third_succeeds :
  attempts (retrying (λ n, if decide (n = 3%nat) then Some 7%nat else None)
                     (λ _, 0)) = 3%nat ∧
  returned (retrying (λ n, if decide (n = 3%nat) then Some 7%nat else None)
                     (λ _, 0)) = Some 7%nat.
Proof. split; vm_compute; reflexivity. Qed.

(** C6, against the policy as the spec words it: a call of
    [get_embeddings] makes between one and ten requests; it sleeps once
    between two requests; the sleep after the [k+1]-th failure is the
    draw of the jitter in a window that starts at one time unit and
    doubles with every failure until it is capped at forty, that is
    [1 + u * (min (2 ^ k) 40 - 1)] for the draw [u] made after that
    failure, which lies between [1] and [min (2 ^ k) 40]; every request
    but the last failed; and the call fails exactly when all ten
    requests failed. *)
Theorem get_embeddings_retry_policy {I E : Type}
    (create : nat → I → option (list E)) (jitter : nat → Q) (input : I) :
  (∀ n, 0 <= jitter n <= 1) →
  let t := get_embeddings create jitter input in
  (1 ≤ attempts t ≤ 10)%nat ∧
  length (sleeps t) = (attempts t - 1)%nat ∧
  (∀ k w, sleeps t !! k = Some w →
     w == 1 + jitter (S k) * (Qmin (inject_Z (2 ^ Z.of_nat k)) 40 - 1) ∧
     1 <= w ∧ w <= Qmin (inject_Z (2 ^ Z.of_nat k)) 40 ∧ w <= 40) ∧
  (∀ n, (1 ≤ n < attempts t)%nat → create n input = None) ∧
  returned t = create (attempts t) input ∧
  (returned t = None ↔ ∀ n, (1 ≤ n ≤ 10)%nat → create n input = None).
Proof.
  intros Hj t.
  assert (Hspec := retry_from_spec (λ n, create n input) jitter 10 1 []
                     ltac:(lia) ltac:(lia)).
  cbv zeta in Hspec.
  change (retry_from (λ n, create n input) jitter 10 1 []) with t in Hspec.
  clearbody t. destruct Hspec as (Hatt & Hsl & Hfail & Hret & Hten).
  rewrite app_nil_l in Hsl.
  split_and!; [lia|lia| | |done|done|].
  - by rewrite Hsl, length_fmap, length_seq.
  - intros k w. rewrite Hsl, list_lookup_fmap. intros Hw.
    apply fmap_Some in Hw as (n & Hn & ->).
    apply lookup_seq in Hn as [-> Hk].
    change (1 + k)%nat with (S k).
    destruct (wait_random_exponential_bounds (jitter (S k)) (S k) (Hj _))
      as [Hlo Hhi].
    pose proof (wait_exponential_window (S k) ltac:(lia)) as Hwin.
    replace (Z.of_nat (S k) - 1)%Z with (Z.of_nat k) in Hwin by lia.
    rewrite Hwin in Hhi.
    split_and!; [|done|done|].
    + unfold wait_random_exponential, wait_min. by rewrite Hwin.
    + eapply Qle_trans; [exact Hhi|]. apply Q.le_min_r.
  - split.
    + intros Hnone n Hn. specialize (Hten Hnone).
      destruct (decide (n < attempts t)%nat); [apply Hfail; lia|].
      assert (n = 10%nat) as -> by lia. rewrite <- Hten, <- Hret. done.
    + intros Hall. rewrite Hret. apply Hall. lia.
Qed.

(** C6: the endpoint fails every time and every draw is one half: ten
    requests, and nine sleeps in the middle of the windows
    [1, 2, 4, 8, 16, 32, 40, 40, 40]. *)
Lemma get_embeddings_retry_policy_witness :
  let t := get_embeddings (λ (_ : nat) (_ : list string), @None (list Sim.vec))
             (λ _, 1 # 2) ["White Sneakers"] in
  (attempts t = 10%nat ∧
   Forall2 Qeq (sleeps t)
     [1; 3 # 2; 5 # 2; 9 # 2; 17 # 2; 33 # 2; 41 # 2; 41 # 2; 41 # 2]) ∧
  (1 ≤ attempts t ≤ 10)%nat ∧
  length (sleeps t) = (attempts t - 1)%nat ∧
  (∀ k w, sleeps t !! k = Some w →
     w == 1 + (1 # 2) * (Qmin (inject_Z (2 ^ Z.of_nat k)) 40 - 1) ∧
     1 <= w ∧ w <= Qmin (inject_Z (2 ^ Z.of_nat k)) 40 ∧ w <= 40) ∧
  (∀ n, (1 ≤ n < attempts t)%nat → @None (list Sim.vec) = None) ∧
  returned t = None ∧
  (returned t = None ↔ ∀ n, (1 ≤ n ≤ 10)%nat → @None (list Sim.vec) = None).
Proof.
  split.
  - split; [vm_compute; reflexivity|]. vm_compute. repeat constructor.
  - apply (get_embeddings_retry_policy
             (λ (_ : nat) (_ : list string), @None (list Sim.vec)) (λ _, 1 # 2)
             ["White Sneakers"]).
    intros n. split; [apply Qle_bool_imp_le | apply Qle_bool_imp_le]; reflexivity.
Defined.

End RetryFacts.

(** ** Batching and the embedding of the corpus *)

Module EmbedFacts.

Import Embed EmbedSpec.

Lemma elem_of_slice {A} (lo hi : Z) (l : list A) (x : A) :
  x ∈ Py.slice lo hi l → x ∈ l.
Proof.
  unfold Py.slice. intros H%SimFacts.elem_of_take.
  apply list_elem_of_lookup_1 in H as [i Hi]. rewrite lookup_drop in Hi.
  by eapply list_elem_of_lookup_2.
Qed.

Lemma batch_count_spec (len n : Z) :
  0 < n → 0 ≤ len →
  (∀ i : nat, (i < batch_count len n)%nat → Z.of_nat i * n < len) ∧
  len ≤ Z.of_nat (batch_count len n) * n.
Proof.
  intros Hn Hlen. unfold batch_count.
  pose proof (Z.div_mod (len + n - 1) n ltac:(lia)) as Hdm.
  pose proof (Z.mod_pos_bound (len + n - 1) n Hn) as Hmod.
  assert (0 ≤ (len + n - 1) / n) as Hq by (apply Z.div_pos; lia).
  split.
  - intros i Hi. nia.
  - rewrite Z2Nat.id by done. nia.
Qed.

Example batchify_examples :
  batchify [1; 2; 3; 4; 5; 6; 7] 3 = Some [[1; 2; 3]; [4; 5; 6]; [7]] ∧
  batchify [1; 2; 3; 4] 2 = Some [[1; 2]; [3; 4]] ∧
  batchify (@nil Z) 3 = Some [] ∧
  batchify [1; 2; 3] (-2) = Some [] ∧
  batchify [1; 2; 3] 0 = None.
Proof. repeat split. Qed.

(** For a positive size, [batchify] cuts the list into consecutive
    chunks of [n] elements: batch [i] is [l[i*n : min((i+1)*n, len)]]. *)
Lemma batchify_chunks {A} (l : list A) (n : Z) :
  0 < n →
  batchify l n =
    Some ((λ i : nat, take (Z.to_nat n) (drop (i * Z.to_nat n) l))
            <$> seq 0 (batch_count (Z.of_nat (length l)) n)).
Proof.
  intros Hn. unfold batchify. rewrite PyFacts.range_pos by done. simpl.
  fold (batch_count (Z.of_nat (length l)) n). f_equal.
  destruct (batch_count_spec (Z.of_nat (length l)) n Hn ltac:(lia)) as [Hlt _].
  rewrite <- list_fmap_compose. apply list_eq. intros i.
  rewrite !list_lookup_fmap.
  destruct (seq 0 _ !! i) as [j|] eqn:Hj; [|done]. simpl. f_equal.
  apply lookup_seq in Hj as [-> Hi]. simpl. specialize (Hlt i Hi).
  rewrite PyFacts.slice_inside by lia.
  replace (Z.to_nat (Z.of_nat i * n)) with (i * Z.to_nat n)%nat by nia.
  destruct (decide (Z.of_nat i * n + n ≤ Z.of_nat (length l))).
  - rewrite Z.min_l by lia. f_equal. nia.
  - rewrite Z.min_r by lia. rewrite Nat2Z.id.
    rewrite !take_ge; [done|rewrite length_drop; nia|rewrite length_drop; nia].
Qed.

Lemma concat_chunks {A} (l : list A) (n c : nat) :
  concat ((λ i : nat, take n (drop (i * n) l)) <$> seq 0 c) = take (c * n) l.
Proof.
  induction c as [|c IH]; [by rewrite take_0|].
  rewrite seq_S, fmap_app, concat_app, IH. simpl. rewrite app_nil_r.
  rewrite take_take_drop. f_equal. lia.
Qed.

(** The batches, put end to end, are the list: nothing is lost and the
    order is kept. *)
Lemma batchify_concat {A} (l : list A) (n : Z) (batches : list (list A)) :
  0 < n → batchify l n = Some batches → concat batches = l.
Proof.
  intros Hn. rewrite batchify_chunks by done. intros [= <-].
  rewrite concat_chunks. apply take_ge.
  destruct (batch_count_spec (Z.of_nat (length l)) n Hn ltac:(lia)) as [_ Hge].
  nia.
Qed.

Lemma batchify_negative {A} (l : list A) (n : Z) :
  n < 0 → batchify l n = Some [].
Proof.
  intros Hn. unfold batchify. rewrite PyFacts.range_neg by lia. done.
Qed.

Lemma batchify_zero {A} (l : list A) : batchify l 0 = None.
Proof. done. Qed.

Lemma batchify_raises {A} (l : list A) (n : Z) : batchify l n = None → n = 0.
Proof.
  unfold batchify, Py.range. by destruct (Z.eqb_spec n 0) as [->|Hn].
Qed.

Lemma batchify_elem_of {A} (l : list A) (n : Z) batches b x :
  batchify l n = Some batches → b ∈ batches → x ∈ b → x ∈ l.
Proof.
  unfold batchify. destruct (Py.range _ _ _) as [ndxs|]; [|done].
  intros [= <-] Hb Hx. apply list_elem_of_fmap in Hb as (ndx & -> & _).
  by eapply elem_of_slice.
Qed.

Section Pool.
Variable encode : string → tokens.
Variable special_token : string → bool.
Variable get_embeddings : list tokens → option (list Sim.vec).

Lemma pool_inv_submit_all batches :
  pool_inv get_embeddings batches (submit_all batches).
Proof.
  split; simpl.
  - rewrite <- list_fmap_compose. apply list_fmap_id.
  - apply Forall_fmap, Forall_forall. intros b _ r. done.
Qed.

Lemma pool_inv_step nw bs batches p e p' :
  pool_inv get_embeddings batches p →
  pool_step get_embeddings nw bs p e = Some p' →
  pool_inv get_embeddings batches p'.
Proof.
  intros [Hb Hf] Hstep. destruct e as [i|i]; simpl in Hstep;
    destruct (futures p !! i) as [[b [| |r]]|] eqn:Hi; try done.
  - case_bool_decide; [|done]. injection Hstep as <-. split; simpl.
    + rewrite list_fmap_insert. simpl. rewrite list_insert_id; [done|].
      by rewrite list_lookup_fmap, Hi.
    + apply Forall_insert; [done|]. intros r. done.
  - injection Hstep as <-. split; simpl.
    + rewrite list_fmap_insert. simpl. rewrite list_insert_id; [done|].
      by rewrite list_lookup_fmap, Hi.
    + apply Forall_insert; [done|]. intros r [= <-]. done.
Qed.

Lemma pool_inv_run nw bs batches schedule : ∀ p p',
  pool_inv get_embeddings batches p →
  pool_run get_embeddings nw bs p schedule = Some p' →
  pool_inv get_embeddings batches p'.
Proof.
  induction schedule as [|e es IH]; intros p p' Hinv; simpl.
  - by intros [= <-].
  - destruct (pool_step get_embeddings nw bs p e) as [p1|] eqn:Hstep; [|done].
    simpl. apply IH. by eapply pool_inv_step.
Qed.

(** The loop over [futures] appends the results in the order of the
    list. *)
Lemma collect_spec (fs : list future) :
  collect fs = results ← mapM future_result fs; Some (concat results).
Proof.
  unfold collect.
  assert (∀ acc, foldl (λ embeddings f, embeddings ← embeddings;
                           data ← future_result f; Some (embeddings ++ data))
                       (Some acc) fs
                 = results ← mapM future_result fs; Some (acc ++ concat results))
    as H; [|apply H].
  induction fs as [|f fs IH]; intros acc; simpl.
  - by rewrite app_nil_r.
  - destruct (future_result f) as [data|]; simpl.
    + rewrite IH. destruct (mapM future_result fs); simpl; [|done].
      by rewrite app_assoc.
    + clear. induction fs as [|f' fs IH]; [done|]. simpl. done.
Qed.

Lemma finished_results (fs : list future) :
  forallb is_finished fs = true →
  Forall (λ f, ∀ r, state f = Finished r → r = get_embeddings (text_batch f)) fs →
  mapM future_result fs = mapM get_embeddings (text_batch <$> fs).
Proof.
  induction fs as [|[b st] fs IH]; [done|]. simpl.
  intros [Hf Hfs]%andb_true_iff [Hr Hrs]%Forall_cons.
  unfold is_finished, future_result in *. simpl in *.
  destruct st as [| |r]; try done. rewrite <- (Hr r eq_refl), IH by done. done.
Qed.

(** Whatever the threads did, a run of the executor to its end leaves
    what the in-order embedding leaves. *)
Lemma embed_corpus_schedule_independent schedule corpus bs nw mcl :
  embed_corpus encode special_token get_embeddings schedule corpus bs nw mcl
    = Blocked ∨
  embed_corpus encode special_token get_embeddings schedule corpus bs nw mcl
    = embed_corpus_in_order encode special_token get_embeddings corpus bs nw mcl.
Proof.
  unfold embed_corpus, embed_corpus_in_order.
  destruct (existsb special_token corpus); [by right|].
  case_bool_decide; [by right|].
  destruct (batchify _ _) as [batches|]; [|by right].
  destruct (pool_run _ _ _ _ _) as [p|] eqn:Hrun; [|by left].
  destruct (all_done p) eqn:Hdone; [|by left]. right.
  destruct (pool_inv_run _ _ _ _ _ _ (pool_inv_submit_all batches) Hrun)
    as [Hb Hf].
  rewrite collect_spec, finished_results, Hb by done.
  by destruct (mapM get_embeddings batches).
Qed.

(** A batch on which [get_embeddings] fails is fatal to the whole
    operation: no run returns. *)
Lemma embed_corpus_batch_failure schedule corpus bs nw mcl batches b :
  batchify (encoded_corpus encode corpus mcl) bs = Some batches →
  b ∈ batches → get_embeddings b = None →
  ∀ out, embed_corpus encode special_token get_embeddings schedule corpus
           bs nw mcl ≠ Returned out.
Proof.
  intros Hb Hin Hfail out Hret.
  destruct (embed_corpus_schedule_independent schedule corpus bs nw mcl)
    as [H|H]; [congruence|].
  rewrite Hret in H. unfold embed_corpus_in_order in H. rewrite Hb in H.
  destruct (existsb special_token corpus); [done|].
  case_bool_decide; [done|].
  assert (mapM get_embeddings batches = None) as Hm.
  { apply mapM_None, Exists_exists. eauto. }
  by rewrite Hm in H.
Qed.

(** *** Every run of the pool can be brought to its end *)

Lemma pool_run_app nw bs p s1 s2 :
  pool_run get_embeddings nw bs p (s1 ++ s2) =
    p1 ← pool_run get_embeddings nw bs p s1; pool_run get_embeddings nw bs p1 s2.
Proof.
  revert p. induction s1 as [|e s1 IH]; intros p; simpl; [done|].
  destruct (pool_step get_embeddings nw bs p e); simpl; [apply IH|done].
Qed.

Lemma running_count_app fs1 fs2 :
  running_count (fs1 ++ fs2) = (running_count fs1 + running_count fs2)%nat.
Proof. unfold running_count. by rewrite filter_app, length_app. Qed.

Lemma running_count_cons f fs :
  running_count (f :: fs) =
    ((if is_running f then 1 else 0) + running_count fs)%nat.
Proof.
  unfold running_count. rewrite filter_cons.
  destruct (is_running f); simpl; done.
Qed.

Lemma complete_running nw bs : ∀ fs pre comp pb,
  ∃ schedule p',
    pool_run get_embeddings nw bs (Pool (pre ++ fs) comp pb) schedule = Some p' ∧
    futures p' = pre ++ (finish_running get_embeddings <$> fs).
Proof.
  induction fs as [|[b st] fs IH]; intros pre comp pb.
  - exists [], (Pool (pre ++ []) comp pb). done.
  - destruct st as [| |r].
    + destruct (IH (pre ++ [Future b Pending]) comp pb) as (sch & p' & Hrun & Hf).
      exists sch, p'. rewrite <- !app_assoc in *. done.
    + destruct (IH (pre ++ [Future b (Finished (get_embeddings b))])
                  (comp ++ [length pre]) (pb + bs)) as (sch & p' & Hrun & Hf).
      exists (Complete (length pre) :: sch), p'. split.
      * simpl. rewrite list_lookup_middle by done. simpl.
        rewrite insert_app_r_alt by done. rewrite Nat.sub_diag. simpl.
        rewrite <- app_assoc in Hrun. done.
      * rewrite <- app_assoc in Hf. done.
    + destruct (IH (pre ++ [Future b (Finished r)]) comp pb) as (sch & p' & Hrun & Hf).
      exists sch, p'. rewrite <- !app_assoc in *. done.
Qed.

Lemma complete_pending nw bs : 0 < nw → ∀ fs pre comp pb,
  running_count (pre ++ fs) = 0%nat →
  ∃ schedule p',
    pool_run get_embeddings nw bs (Pool (pre ++ fs) comp pb) schedule = Some p' ∧
    futures p' = pre ++ (finish get_embeddings <$> fs).
Proof.
  intros Hnw. induction fs as [|[b st] fs IH]; intros pre comp pb Hrc.
  - exists [], (Pool (pre ++ []) comp pb). done.
  - rewrite running_count_app, running_count_cons in Hrc.
    destruct st as [| |r]; simpl in Hrc; [|lia|].
    + destruct (IH (pre ++ [Future b (Finished (get_embeddings b))])
                  (comp ++ [length pre]) (pb + bs)) as (sch & p' & Hrun & Hf).
      { rewrite !running_count_app, running_count_cons. simpl.
        change (running_count []) with 0%nat. lia. }
      exists (Start (length pre) :: Complete (length pre) :: sch), p'. split.
      * simpl. rewrite list_lookup_middle by done. simpl.
        rewrite running_count_app, running_count_cons. simpl.
        rewrite bool_decide_true by lia. simpl.
        rewrite insert_app_r_alt by done. rewrite Nat.sub_diag. simpl.
        rewrite list_lookup_middle by done. simpl.
        rewrite insert_app_r_alt by done. rewrite Nat.sub_diag. simpl.
        rewrite <- app_assoc in Hrun. done.
      * rewrite <- app_assoc in Hf. done.
    + destruct (IH (pre ++ [Future b (Finished r)]) comp pb) as (sch & p' & Hrun & Hf).
      { rewrite !running_count_app, running_count_cons. simpl.
        change (running_count []) with 0%nat. lia. }
      exists sch, p'. rewrite <- !app_assoc in *. done.
Qed.

(** With at least one worker the pool never gets stuck: from every
    state some continuation finishes every future. *)
Lemma pool_progress nw bs (p : pool) :
  0 < nw →
  ∃ schedule p',
    pool_run get_embeddings nw bs p schedule = Some p' ∧ all_done p' = true.
Proof.
  intros Hnw. destruct p as [fs comp pb].
  destruct (complete_running nw bs fs [] comp pb) as (s1 & p1 & Hrun1 & Hf1).
  destruct p1 as [fs1 comp1 pb1]. simpl in Hf1. subst fs1.
  destruct (complete_pending nw bs Hnw (finish_running get_embeddings <$> fs)
              [] comp1 pb1)
    as (s2 & p2 & Hrun2 & Hf2).
  { simpl. clear. induction fs as [|[b [| |r]] fs IH]; try done. }
  exists (s1 ++ s2), p2. split.
  - rewrite pool_run_app. simpl in Hrun1. rewrite Hrun1. done.
  - unfold all_done. rewrite Hf2. simpl. clear.
    induction fs as [|[b [| |r]] fs IH]; done.
Qed.

(** *** Every run of the pool ends *)

Lemma sum_list_insert (fs : list future) i f g :
  fs !! i = Some f →
  (sum_list (weight <$> <[i:=g]> fs) + weight f
   = sum_list (weight <$> fs) + weight g)%nat.
Proof.
  revert i. induction fs as [|h fs IH]; intros [|i] Hi; simpl in Hi; try done.
  - injection Hi as ->. change (<[0%nat:=g]> (f :: fs)) with (g :: fs).
    rewrite !fmap_cons. simpl. lia.
  - specialize (IH i Hi). change (<[S i:=g]> (h :: fs)) with (h :: <[i:=g]> fs).
    rewrite !fmap_cons. simpl. lia.
Qed.

Lemma pool_step_weight nw bs p e p' :
  pool_step get_embeddings nw bs p e = Some p' →
  pool_weight p = S (pool_weight p').
Proof.
  unfold pool_weight. intros Hstep. destruct e as [i|i]; simpl in Hstep;
    destruct (futures p !! i) as [[b [| |r]]|] eqn:Hi; try done.
  - case_bool_decide as Hnw; [|done]. injection Hstep as <-. simpl.
    pose proof (sum_list_insert _ _ _ (Future b Running) Hi) as Hw.
    unfold weight in Hw at 2 4. simpl in Hw. lia.
  - injection Hstep as <-. simpl.
    pose proof (sum_list_insert _ _ _
      (Future b (Finished (get_embeddings b))) Hi) as Hw.
    unfold weight in Hw at 2 4. simpl in Hw. lia.
Qed.

(** A run is never longer than two events for each batch. *)
Lemma pool_run_weight nw bs schedule : ∀ p p',
  pool_run get_embeddings nw bs p schedule = Some p' →
  pool_weight p = (length schedule + pool_weight p')%nat.
Proof.
  induction schedule as [|e es IH]; intros p p'; simpl.
  - by intros [= <-].
  - destruct (pool_step get_embeddings nw bs p e) as [p1|] eqn:Hstep; [|done].
    simpl. intros Hrun. rewrite (pool_step_weight _ _ _ _ _ Hstep).
    rewrite (IH _ _ Hrun). done.
Qed.

End Pool.

Section Claims.
Variable encode : string → tokens.
Variable special_token : string → bool.
Variable get_embeddings : list tokens → option (list Sim.vec).
(** The embedding model behind the endpoint: the vector of one text. *)
Variable model : tokens → Sim.vec.

Lemma embed_corpus_unfold schedule corpus bs nw mcl :
  embed_corpus encode special_token get_embeddings schedule corpus bs nw mcl =
    if existsb special_token corpus then Raised
    else
    if bool_decide (nw ≤ 0) then Raised
    else
      match batchify (encoded_corpus encode corpus mcl) bs with
      | None => Raised
      | Some batches =>
          match pool_run get_embeddings nw bs (submit_all batches) schedule with
          | None => Blocked
          | Some p =>
              if all_done p then
                match collect (futures p) with
                | Some embeddings => Returned embeddings
                | None => Raised
                end
              else Blocked
          end
      end.
Proof. reflexivity. Qed.

Lemma concat_service (batches : list (list tokens)) (results : list (list Sim.vec)) :
  (∀ batch r, get_embeddings batch = Some r → r = model <$> batch) →
  mapM get_embeddings batches = Some results →
  concat results = model <$> concat batches.
Proof.
  intros Hserv Hm. apply mapM_Some in Hm.
  induction Hm as [|b r batches results Hb _ IH]; [done|].
  simpl. rewrite fmap_app, IH. f_equal. by apply Hserv.
Qed.

Lemma existsb_false (corpus : list string) :
  Forall (λ text, special_token text = false) corpus →
  existsb special_token corpus = false.
Proof.
  induction 1 as [|text corpus Ht _ IH]; [done|]. simpl. by rewrite Ht, IH.
Qed.

Lemma mapM_service (batches : list (list tokens)) :
  (∀ batch : list tokens, get_embeddings batch = Some (model <$> batch)) →
  mapM get_embeddings batches
    = Some ((λ batch : list tokens, model <$> batch) <$> batches).
Proof.
  intros Hserv. apply mapM_Some, Forall2_fmap_r, Forall_Forall2_diag, Forall_forall.
  intros batch _. apply Hserv.
Qed.

(** What [embed_corpus] does on a corpus that the tokenizer accepts,
    with an endpoint that answers every batch: every run of the pool
    can be brought to its end, and every run to its end returns the
    vectors of the encoded corpus, in its order. *)
Lemma embed_corpus_total (corpus : list string) (bs nw mcl : Z) :
  Forall (λ text, special_token text = false) corpus →
  (∀ batch : list tokens, get_embeddings batch = Some (model <$> batch)) →
  0 < bs → 0 < nw →
  (∀ schedule,
     embed_corpus encode special_token get_embeddings schedule corpus bs nw mcl
       = Returned (model <$> encoded_corpus encode corpus mcl) ∨
     embed_corpus encode special_token get_embeddings schedule corpus bs nw mcl
       = Blocked) ∧
  (∀ schedule batches p,
     batchify (encoded_corpus encode corpus mcl) bs = Some batches →
     pool_run get_embeddings nw bs (submit_all batches) schedule = Some p →
     ∃ rest,
       embed_corpus encode special_token get_embeddings (schedule ++ rest)
         corpus bs nw mcl
         = Returned (model <$> encoded_corpus encode corpus mcl)) ∧
  (∃ schedule,
     embed_corpus encode special_token get_embeddings schedule corpus bs nw mcl
       = Returned (model <$> encoded_corpus encode corpus mcl)).
Proof.
  intros Hspecial Hserv Hbs Hnw.
  assert (embed_corpus_in_order encode special_token get_embeddings corpus bs nw mcl
          = Returned (model <$> encoded_corpus encode corpus mcl)) as Hord.
  { unfold embed_corpus_in_order.
    rewrite (existsb_false _ Hspecial), bool_decide_false by lia.
    destruct (batchify _ _) as [batches|] eqn:Hb.
    - rewrite (mapM_service _ Hserv). f_equal.
      rewrite (concat_service batches
                 ((λ batch : list tokens, model <$> batch) <$> batches)).
      + by rewrite (batchify_concat _ _ _ Hbs Hb).
      + intros batch r. rewrite Hserv. by intros [= <-].
      + by apply mapM_service.
    - apply batchify_raises in Hb. lia. }
  assert (∀ schedule,
     embed_corpus encode special_token get_embeddings schedule corpus bs nw mcl
       = Returned (model <$> encoded_corpus encode corpus mcl) ∨
     embed_corpus encode special_token get_embeddings schedule corpus bs nw mcl
       = Blocked) as Hany.
  { intros schedule. rewrite <- Hord.
    destruct (embed_corpus_schedule_independent encode special_token
                get_embeddings schedule corpus bs nw mcl); auto. }
  assert (∀ schedule batches p,
     batchify (encoded_corpus encode corpus mcl) bs = Some batches →
     pool_run get_embeddings nw bs (submit_all batches) schedule = Some p →
     ∃ rest,
       embed_corpus encode special_token get_embeddings (schedule ++ rest)
         corpus bs nw mcl
         = Returned (model <$> encoded_corpus encode corpus mcl)) as Hext.
  { intros schedule batches p Hb Hrun.
    destruct (pool_progress get_embeddings nw bs p Hnw) as (rest & p' & Hrest & Hdone).
    exists rest. destruct (Hany (schedule ++ rest)) as [H|H]; [done|]. exfalso.
    rewrite embed_corpus_unfold in H.
    rewrite (existsb_false _ Hspecial), bool_decide_false, Hb in H by lia.
    rewrite pool_run_app, Hrun in H. simpl in H. rewrite Hrest, Hdone in H.
    by destruct (collect (futures p')). }
  split_and!; [done|done|].
  destruct (batchify (encoded_corpus encode corpus mcl) bs) as [batches|] eqn:Hb.
  - destruct (Hext [] batches (submit_all batches) eq_refl eq_refl) as [rest Hrest].
    by exists rest.
  - apply batchify_raises in Hb. lia.
Qed.

(** C4, as the code has it: for a batch size and a worker count of at
    least one, a corpus that the tokenizer accepts, and an endpoint
    that answers every batch with one vector for each text, in the
    order of the batch: whatever the order in which the batches start
    and complete, [embed_corpus] returns one list [out], which has the
    length of the corpus and holds at each position the vector of the
    text at that position.  Every run of the pool to its end returns
    [out], every run that has not come to its end can be continued to
    one that returns [out], and there is such a run. *)
Theorem embed_corpus_aligned (corpus : list string)
    (batch_size num_workers max_context_len : Z) :
  Forall (λ text, special_token text = false) corpus →
  (∀ batch : list tokens, get_embeddings batch = Some (model <$> batch)) →
  0 < batch_size → 0 < num_workers →
  ∃ out,
    length out = length corpus ∧
    (∀ i text, corpus !! i = Some text →
       out !! i = Some (model (Py.slice_to max_context_len (encode text)))) ∧
    (∀ schedule,
       embed_corpus encode special_token get_embeddings schedule corpus
         batch_size num_workers max_context_len = Returned out ∨
       embed_corpus encode special_token get_embeddings schedule corpus
         batch_size num_workers max_context_len = Blocked) ∧
    (∀ schedule batches p,
       batchify (encoded_corpus encode corpus max_context_len) batch_size
         = Some batches →
       pool_run get_embeddings num_workers batch_size (submit_all batches)
         schedule = Some p →
       ∃ rest,
         embed_corpus encode special_token get_embeddings (schedule ++ rest)
           corpus batch_size num_workers max_context_len = Returned out) ∧
    (∃ schedule,
       embed_corpus encode special_token get_embeddings schedule corpus
         batch_size num_workers max_context_len = Returned out).
Proof.
  intros Hspecial Hserv Hbs Hnw.
  exists (model <$> encoded_corpus encode corpus max_context_len).
  destruct (embed_corpus_total corpus batch_size num_workers max_context_len
              Hspecial Hserv Hbs Hnw) as (Hany & Hext & Hex).
  split_and!; [| |done|done|done].
  - unfold encoded_corpus. by rewrite !length_fmap.
  - intros i text Hi. unfold encoded_corpus.
    by rewrite !list_lookup_fmap, Hi.
Qed.

Lemma pool_run_batches nw bs batches schedule p f :
  pool_run get_embeddings nw bs (submit_all batches) schedule = Some p →
  f ∈ futures p → text_batch f ∈ batches.
Proof.
  intros Hrun Hf.
  destruct (pool_inv_run get_embeddings _ _ _ _ _ _
              (pool_inv_submit_all get_embeddings batches) Hrun) as [<- _].
  by apply list_elem_of_fmap_2.
Qed.

(** C9, as the code has it: for a [max_context_len] that is not
    negative every text of the corpus is encoded and cut to its first
    [max_context_len] tokens, the rest being dropped without an error,
    one entry for each text; and every text of every batch that a
    future of the pool is submitted with, which is what
    [get_embeddings] is called on, is such a prefix and has at most
    [max_context_len] tokens. *)
Theorem embed_corpus_truncates (corpus : list string)
    (batch_size num_workers max_context_len : Z) :
  0 ≤ max_context_len →
  length (encoded_corpus encode corpus max_context_len) = length corpus ∧
  (∀ i text, corpus !! i = Some text →
     encoded_corpus encode corpus max_context_len !! i =
       Some (take (Z.to_nat max_context_len) (encode text)) ∧
     encode text =
       take (Z.to_nat max_context_len) (encode text) ++
       drop (Z.to_nat max_context_len) (encode text)) ∧
  (∀ batches schedule p f article,
     batchify (encoded_corpus encode corpus max_context_len) batch_size
       = Some batches →
     pool_run get_embeddings num_workers batch_size (submit_all batches) schedule
       = Some p →
     f ∈ futures p → article ∈ text_batch f →
     Z.of_nat (length article) ≤ max_context_len ∧
     ∃ text, text ∈ corpus ∧
             article = take (Z.to_nat max_context_len) (encode text)).
Proof.
  intros Hmax. split_and!.
  - unfold encoded_corpus. by rewrite !length_fmap.
  - intros i text Hi. split; [|by rewrite take_drop].
    unfold encoded_corpus. rewrite !list_lookup_fmap, Hi. simpl.
    by rewrite PyFacts.slice_to_nonneg.
  - intros batches schedule p f article Hb Hrun Hf Ha.
    pose proof (pool_run_batches _ _ _ _ _ _ Hrun Hf) as Hbatch.
    pose proof (batchify_elem_of _ _ _ _ _ Hb Hbatch Ha) as Henc.
    unfold encoded_corpus in Henc.
    apply list_elem_of_fmap in Henc as (toks & -> & Htoks).
    apply list_elem_of_fmap in Htoks as (text & -> & Htext).
    rewrite PyFacts.slice_to_nonneg by done. split; [|by eauto].
    rewrite length_take. lia.
Qed.

End Claims.

(** C4: three texts in two batches, two workers; the run in which the
    second batch starts and completes first returns the vectors in the
    order of the texts. *)
Lemma embed_corpus_aligned_witness :
  embed_corpus byte_tokens endoftext token_service
    [Start 1; Start 0; Complete 1; Complete 0]%nat ["a"; "bcd"; "ef"] 2 2 2
    = Returned [[97%float]; [98; 99]%float; [101; 102]%float] ∧
  ∃ out,
    length out = length ["a"; "bcd"; "ef"] ∧
    (∀ i text, ["a"; "bcd"; "ef"] !! i = Some text →
       out !! i = Some (token_vector (Py.slice_to 2 (byte_tokens text)))) ∧
    (∀ schedule,
       embed_corpus byte_tokens endoftext token_service schedule
         ["a"; "bcd"; "ef"] 2 2 2 = Returned out ∨
       embed_corpus byte_tokens endoftext token_service schedule
         ["a"; "bcd"; "ef"] 2 2 2 = Blocked) ∧
    (∀ schedule batches p,
       batchify (encoded_corpus byte_tokens ["a"; "bcd"; "ef"] 2) 2
         = Some batches →
       pool_run token_service 2 2 (submit_all batches) schedule = Some p →
       ∃ rest,
         embed_corpus byte_tokens endoftext token_service (schedule ++ rest)
           ["a"; "bcd"; "ef"] 2 2 2 = Returned out) ∧
    (∃ schedule,
       embed_corpus byte_tokens endoftext token_service schedule
         ["a"; "bcd"; "ef"] 2 2 2 = Returned out).
Proof.
  split; [vm_compute; reflexivity|].
  apply (embed_corpus_aligned byte_tokens endoftext token_service token_vector
           ["a"; "bcd"; "ef"] 2 2 2).
  - repeat constructor.
  - intros batch. reflexivity.
  - lia.
  - lia.
Defined.

(** C4 as stated fails for a negative batch size: [range(0, l, -1)] is
    empty, no batch is submitted, and the corpus of one text comes back
    as no embedding at all. *)
Lemma embed_corpus_negative_batch_size :
  embed_corpus byte_tokens endoftext token_service [] ["abc"] (-1) 8 8191
    = Returned [] ∧
  length (@nil Sim.vec) ≠ length ["abc"].
Proof. split; [vm_compute; reflexivity | simpl; lia]. Qed.

(** A batch size of zero raises, as does a worker count that is not
    positive. *)
Example embed_corpus_zero_batch_size :
  embed_corpus byte_tokens endoftext token_service [] ["abc"] 0 8 8191 = Raised ∧
  embed_corpus byte_tokens endoftext token_service [] ["abc"] 64 0 8191 = Raised.
Proof. split; vm_compute; reflexivity. Qed.

(** A text that the tokenizer refuses raises before anything is
    embedded. *)
Example embed_corpus_special_token :
  embed_corpus byte_tokens endoftext token_service (sequential_schedule 1)
    ["abc"; "<|endoftext|>"] 64 8 8191 = Raised.
Proof. vm_compute. reflexivity. Qed.

(** C9: a text of three tokens under a budget of two. *)
Lemma embed_corpus_truncates_witness :
  length (encoded_corpus byte_tokens ["abc"; "d"] 2) = length ["abc"; "d"] ∧
  (∀ i text, ["abc"; "d"] !! i = Some text →
     encoded_corpus byte_tokens ["abc"; "d"] 2 !! i =
       Some (take (Z.to_nat 2) (byte_tokens text)) ∧
     byte_tokens text =
       take (Z.to_nat 2) (byte_tokens text) ++ drop (Z.to_nat 2) (byte_tokens text)) ∧
  (∀ batches schedule p f article,
     batchify (encoded_corpus byte_tokens ["abc"; "d"] 2) 64 = Some batches →
     pool_run token_service 8 64 (submit_all batches) schedule = Some p →
     f ∈ futures p → article ∈ text_batch f →
     Z.of_nat (length article) ≤ 2 ∧
     ∃ text, text ∈ ["abc"; "d"] ∧
             article = take (Z.to_nat 2) (byte_tokens text)).
Proof.
  apply (embed_corpus_truncates byte_tokens token_service ["abc"; "d"] 64 8 2).
  lia.
Defined.

(** C9 as stated fails for a negative [max_context_len]: [[:-1]] drops
    the last token only, so the endpoint receives the two tokens of a
    text of three where at most [-1] were allowed. *)
Lemma embed_corpus_negative_max_context_len :
  encoded_corpus byte_tokens ["abc"] (-1) = [[97; 98]] ∧
  embed_corpus byte_tokens endoftext token_service (sequential_schedule 1)
    ["abc"] 64 8 (-1) = Returned [[97; 98]%float] ∧
  ¬ (Z.of_nat (length [97; 98]) ≤ -1).
Proof. split_and!; [vm_compute; reflexivity | vm_compute; reflexivity | simpl; lia]. Qed.

End EmbedFacts.

(** ** Retrieval *)

Module RagFacts.

Import Rag RagSpec.

(** *** The cast of a float to an integer *)

Lemma digits2_pos_bounds (m : positive) :
  2 ^ (Z.pos (digits2_pos m) - 1) ≤ Z.pos m < 2 ^ Z.pos (digits2_pos m).
Proof.
  induction m as [m IH|m IH|]; simpl digits2_pos; [| |done].
  - rewrite Pos2Z.inj_succ. pose proof (Pos2Z.inj_xI m).
    replace (Z.succ (Z.pos (digits2_pos m)) - 1)
      with (Z.succ (Z.pos (digits2_pos m) - 1)) by lia.
    rewrite !Z.pow_succ_r by lia. lia.
  - rewrite Pos2Z.inj_succ. pose proof (Pos2Z.inj_xO m).
    replace (Z.succ (Z.pos (digits2_pos m)) - 1)
      with (Z.succ (Z.pos (digits2_pos m) - 1)) by lia.
    rewrite !Z.pow_succ_r by lia. lia.
Qed.

(** The mantissa of a float has at most 53 bits, and exactly 53 above
    the smallest exponent. *)
Lemma mantissa_bounds (x : float) s m e :
  Prim2SF x = S754_finite s m e →
  Z.pos m < 2 ^ 53 ∧ (-1074 < e → 2 ^ 52 ≤ Z.pos m).
Proof.
  intros Hx. pose proof (FloatAxioms.Prim2SF_valid x) as Hv. rewrite Hx in Hv.
  unfold valid_binary, bounded, canonical_mantissa, fexp, SpecFloat.emin,
    FloatOps.prec, FloatOps.emax in Hv.
  apply andb_true_iff in Hv as [Hc _]. apply Z.eqb_eq in Hc.
  pose proof (digits2_pos_bounds m) as [Hlo Hhi].
  set (d := Z.pos (digits2_pos m)) in *. split.
  - assert (d ≤ 53) as Hd by lia.
    pose proof (Z.pow_le_mono_r 2 d 53 ltac:(lia) Hd). lia.
  - intros He. assert (d = 53) as Hd by lia. by rewrite Hd in Hlo.
Qed.

Lemma Prim2SF_one :
  ∃ p, Prim2SF 1 = S754_finite false p (-52) ∧ Z.pos p = 2 ^ 52.
Proof. by eexists. Qed.

Lemma trunc_below_one (x : float) :
  (0 <=? x)%float = true → (x <? 1)%float = true → trunc x = Some 0.
Proof.
  destruct Prim2SF_one as (p & Hone & Hp).
  rewrite FloatAxioms.leb_spec, FloatAxioms.ltb_spec, Hone. unfold trunc.
  change (Prim2SF 0) with (S754_zero false).
  destruct (Prim2SF x) as [s|[]| |[] m e] eqn:Hx; try done.
  intros _. unfold SFltb, SFcompare.
  destruct (mantissa_bounds x _ _ _ Hx) as [Hm _].
  destruct (Z.compare_spec e (-52)) as [->|He|He]; [| |done].
  - change (Pos.compare_cont Eq m p) with (Pos.compare m p).
    destruct (Pos.compare_spec m p) as [|Hlt|]; [done| |done].
    intros _. change (0 <=? -52) with false. cbv beta iota. f_equal.
    apply Z.div_small. change (- -52) with 52. lia.
  - intros _. rewrite (proj2 (Z.leb_gt 0 e)) by lia. f_equal.
    apply Z.div_small. split; [lia|].
    pose proof (Z.pow_le_mono_r 2 53 (- e) ltac:(lia) ltac:(lia)). lia.
Qed.

Lemma trunc_nonneg (x : float) (t : Z) :
  (0 <=? x)%float = true → trunc x = Some t → 0 ≤ t.
Proof.
  rewrite FloatAxioms.leb_spec. unfold trunc.
  change (Prim2SF 0) with (S754_zero false).
  destruct (Prim2SF x) as [s|[]| |[] m e] eqn:Hx; try done.
  - by intros _ [= <-].
  - intros _ [= <-]. destruct (0 <=? e) eqn:He.
    + apply Z.leb_le in He. pose proof (Z.pow_pos_nonneg 2 e). lia.
    + apply Z.leb_gt in He. apply Z.div_pos; [lia|].
      apply Z.pow_pos_nonneg; lia.
Qed.

Lemma trunc_zero_below_one (x : float) :
  (0 <=? x)%float = true → trunc x = Some 0 → (x <? 1)%float = true.
Proof.
  destruct Prim2SF_one as (p & Hone & Hp).
  rewrite FloatAxioms.leb_spec, FloatAxioms.ltb_spec, Hone. unfold trunc.
  change (Prim2SF 0) with (S754_zero false).
  destruct (Prim2SF x) as [s|[]| |[] m e] eqn:Hx; try done.
  intros _. destruct (mantissa_bounds x _ _ _ Hx) as [_ Hm].
  destruct (0 <=? e) eqn:He.
  - apply Z.leb_le in He. intros [= H].
    pose proof (Z.pow_pos_nonneg 2 e). lia.
  - apply Z.leb_gt in He. intros [= H].
    assert (Z.pos m < 2 ^ (- e)) as Hlt.
    { pose proof (Z.pow_pos_nonneg 2 (- e) ltac:(lia) ltac:(lia)).
      apply Z.div_small_iff in H as [H|H]; lia. }
    unfold SFltb, SFcompare.
    destruct (Z.compare_spec e (-52)) as [->|He'|He']; [|done|].
    + change (Pos.compare_cont Eq m p) with (Pos.compare m p).
      rewrite (proj2 (Pos.compare_lt_iff m p)); [done|].
      change (- -52) with 52 in Hlt. lia.
    + exfalso.
      pose proof (Z.pow_le_mono_r 2 (- e) 52 ltac:(lia) ltac:(lia)). lia.
Qed.

(** *** One cell of a row *)

Lemma threshold_nonneg (x : float) :
  (rag_threshold <=? x)%float = true →
  (0 <=? x)%float = true ∧ (x <? - of_Z 5)%float = false.
Proof.
  intros Hx. destruct (F64Facts.leb_not_nan _ _ Hx) as [Ht Hn].
  apply F64Facts.leb_iff_not_ltb in Hx; [|done..].
  assert ((x <? 0)%float = false) as H0.
  { by apply (F64Facts.ltb_negtrans x rag_threshold 0). }
  split.
  - by apply F64Facts.leb_iff_not_ltb.
  - by apply (F64Facts.ltb_negtrans x 0 (- of_Z 5)).
Qed.

Lemma below_one_in_bounds (x : float) :
  (x <? 1)%float = true → (of_Z 5 <=? x)%float = false.
Proof.
  intros Hx. destruct (of_Z 5 <=? x)%float eqn:H5; [|done]. exfalso.
  destruct (F64Facts.leb_not_nan _ _ H5) as [Hn5 Hn].
  apply F64Facts.leb_iff_not_ltb in H5; [|done..].
  assert ((x <? 1)%float = false); [|congruence].
  by apply (F64Facts.ltb_negtrans x (of_Z 5) 1).
Qed.

(** A similarity that has passed the threshold and is below 1 takes the
    first cell of the row, which is its [id]. *)
Lemma series_take_below_one (row : CatalogItem) (x : float) :
  (rag_threshold <=? x)%float = true → (x <? 1)%float = true →
  series_take (cells row) [x] = Some [id_cell (item_id row)].
Proof.
  intros Ht H1. destruct (threshold_nonneg x Ht) as [H0 Hneg].
  unfold series_take. simpl length.
  change (Z.of_nat 5) with 5. cbn [existsb].
  rewrite (below_one_in_bounds x H1), Hneg. cbn [orb mapM].
  by rewrite (trunc_below_one x H0 H1).
Qed.

(** What a similarity that has passed the threshold takes is one cell
    of the row; it is the [id] only when the similarity is below 1. *)
Lemma series_take_cell (row : CatalogItem) (x : float) (s : series) :
  (rag_threshold <=? x)%float = true →
  series_take (cells row) [x] = Some s →
  (∃ c, c ∈ cells row ∧ s = [c]) ∧
  (∀ id, is_id id s = true → id = item_id row ∧ (x <? 1)%float = true).
Proof.
  intros Ht. destruct (threshold_nonneg x Ht) as [H0 Hneg].
  unfold series_take. simpl length. change (Z.of_nat 5) with 5.
  destruct (existsb _ _); [done|]. simpl.
  destruct (trunc x) as [t|] eqn:Htr; [|done]. simpl.
  pose proof (trunc_nonneg x t H0 Htr) as Hpos.
  destruct (decide _) as [Hb|]; [|done].
  rewrite (proj2 (Z.ltb_ge t 0)) by lia.
  destruct (cells row !! Z.to_nat t) as [c|] eqn:Hc; [|done]. simpl.
  intros [= <-]. split.
  - exists c. split; [by eapply list_elem_of_lookup_2|done].
  - intros id Hid.
    assert (t = 0 ∨ t = 1 ∨ t = 2 ∨ t = 3 ∨ t = 4) as Hcases by lia.
    destruct Hcases as [->|[->|[->|[->| ->]]]];
      simpl in Hc; injection Hc as <-; simpl in Hid; try done.
    apply bool_decide_eq_true in Hid as ->.
    split; [done|]. by apply trunc_zero_below_one.
Qed.

(** *** The query on the answer of the endpoint *)

(** The hit of the query on one vector as the query on the list of
    that vector returns it: the similarity in an array. *)
#[local] Abbreviation in_array :=
  (λ p : nat * float, (p.1, Array [p.2])).

Lemma cosine_similarity_matrix_single (v e : Sim.vec) :
  cosine_similarity_matrix [v] e =
    (λ s, Array [s]) <$> Sim.cosine_similarity_manual v e.
Proof.
  unfold cosine_similarity_matrix, Sim.cosine_similarity_manual.
  simpl. rewrite app_nil_r, bool_decide_true by done. simpl.
  by destruct (Sim.np_dot v e).
Qed.

Lemma similarities_single (v : Sim.vec) (l : list (nat * Sim.vec)) :
  mapM (λ iv : nat * Sim.vec,
          sim ← cosine_similarity_matrix [v] iv.2; Some (iv.1, sim)) l =
    fmap in_array <$>
      mapM (λ iv : nat * Sim.vec,
              sim ← Sim.cosine_similarity_manual v iv.2; Some (iv.1, sim)) l.
Proof.
  induction l as [|[i e] l IH]; [done|].
  cbn -[cosine_similarity_matrix Sim.cosine_similarity_manual] in *.
  rewrite cosine_similarity_matrix_single.
  destruct (Sim.cosine_similarity_manual v e) as [s|]; [|done].
  cbn -[cosine_similarity_matrix Sim.cosine_similarity_manual] in *.
  rewrite IH.
  match goal with |- context [mapM ?f l] => destruct (mapM f l) end; done.
Qed.

Lemma filter_passing_single (t : float) (sims : list (nat * float)) :
  filter_passing t (in_array <$> sims) =
    Some (in_array <$> filter (λ p : nat * float, (t <=? p.2)%float) sims).
Proof.
  induction sims as [|[i x] sims IH]; [done|].
  rewrite fmap_cons. simpl. rewrite IH. simpl. rewrite filter_cons. simpl.
  by destruct (t <=? x)%float.
Qed.

Lemma insort_right_fmap {A B K1 K2} (lt1 : K1 → K1 → bool) (key1 : A → K1)
    (lt2 : K2 → K2 → bool) (key2 : B → K2) (f : A → B) :
  (∀ a b, lt2 (key2 (f a)) (key2 (f b)) = lt1 (key1 a) (key1 b)) →
  ∀ x l, Py.insort_right lt2 key2 (f x) (f <$> l)
         = f <$> Py.insort_right lt1 key1 x l.
Proof.
  intros Hlt x l. induction l as [|y l IH]; [done|].
  rewrite fmap_cons. simpl. rewrite Hlt.
  destruct (lt1 (key1 x) (key1 y)); [done|]. by rewrite IH.
Qed.

Lemma sorted_fmap {A B K1 K2} (lt1 : K1 → K1 → bool) (key1 : A → K1)
    (lt2 : K2 → K2 → bool) (key2 : B → K2) (f : A → B) (r : bool) :
  (∀ a b, lt2 (key2 (f a)) (key2 (f b)) = lt1 (key1 a) (key1 b)) →
  ∀ l, Py.sorted lt2 key2 r (f <$> l) = f <$> Py.sorted lt1 key1 r l.
Proof.
  intros Hlt.
  assert (∀ l acc,
            foldl (λ acc x, Py.insort_right lt2 key2 x acc) (f <$> acc) (f <$> l)
            = f <$> foldl (λ acc x, Py.insort_right lt1 key1 x acc) acc l) as H.
  { induction l as [|x l IH]; intros acc; [done|].
    rewrite fmap_cons. simpl.
    rewrite (insort_right_fmap lt1 key1 lt2 key2 f Hlt). apply IH. }
  intros l. unfold Py.sorted, Py.list_sort. destruct r.
  - rewrite <- fmap_reverse. rewrite (H _ []). by rewrite fmap_reverse.
  - apply (H _ []).
Qed.

Lemma slice_to_fmap {A B} (f : A → B) (k : Z) (l : list A) :
  Py.slice_to k (f <$> l) = f <$> Py.slice_to k l.
Proof.
  unfold Py.slice_to, Py.slice. rewrite length_fmap.
  by rewrite fmap_take, fmap_drop.
Qed.

(** On the list of one vector the query is the query on that vector. *)
Lemma find_similar_items_matrix_single (v : Sim.vec) (E : list Sim.vec)
    (t : float) (k : Z) :
  find_similar_items_matrix [v] E t k =
    (λ hits : list (nat * float), in_array <$> hits)
      <$> Sim.find_similar_items v E t k.
Proof.
  unfold find_similar_items_matrix, Sim.find_similar_items.
  rewrite similarities_single.
  destruct (mapM _ (Py.enumerate E)) as [sims|]; [|done]. simpl.
  rewrite filter_passing_single. simpl. f_equal.
  rewrite <- slice_to_fmap. f_equal.
  by apply (sorted_fmap ltb snd ndarray_lt snd in_array true).
Qed.

Lemma passes_nan (t : float) : (t <=? nan)%float = false.
Proof.
  destruct (t <=? nan)%float eqn:H; [|done].
  by destruct (F64Facts.leb_not_nan _ _ H).
Qed.

(** On another list than that of one vector the query returns
    nothing, if it returns. *)
Lemma cosine_similarity_matrix_fails (M : list Sim.vec) (e : Sim.vec)
    (t : float) (sim : ndarray) :
  (∀ v, M ≠ [v]) → cosine_similarity_matrix M e = Some sim →
  passes t sim ≠ Some true.
Proof.
  intros HM. unfold cosine_similarity_matrix.
  destruct M as [|v [|v' M]]; [|by destruct (HM v)|].
  - unfold Sim.np_dot.
    destruct (decide (length (@nil float) = length e)) as [Hlen|]; [|done].
    destruct e; [|done]. cbn. intros [= <-]. cbn. by rewrite passes_nan.
  - destruct (forallb _ _); [|done].
    destruct (mapM _ (v :: v' :: M)) as [ds|] eqn:Hd; [|done].
    apply length_mapM in Hd. cbn [mbind option_bind]. intros [= <-].
    by destruct ds as [|d [|d' ds]].
Qed.

Lemma filter_passing_fails (t : float) (sims f : list (nat * ndarray)) :
  Forall (λ p, passes t p.2 ≠ Some true) sims →
  filter_passing t sims = Some f → f = [].
Proof.
  intros H. revert f.
  induction H as [|[i sim] sims Hp _ IH]; intros f; [by intros [= <-]|].
  cbn [filter_passing]. cbn in Hp.
  destruct (passes t sim) as [[]|]; [done| |done].
  cbn. destruct (filter_passing t sims) as [g|]; [|done].
  cbn. intros [= <-]. by apply IH.
Qed.

Lemma find_similar_items_matrix_hits (M E : list Sim.vec) (t : float) (k : Z)
    (hits : list (nat * ndarray)) :
  find_similar_items_matrix M E t k = Some hits → hits = [] ∨ ∃ v, M = [v].
Proof.
  assert ((∃ v, M = [v]) ∨ ∀ v, M ≠ [v]) as [|HM];
    [destruct M as [|v [|v' M]]; eauto| by right |]. left.
  revert H. unfold find_similar_items_matrix.
  destruct (mapM _ (Py.enumerate E)) as [sims|] eqn:Hs; [|done].
  cbn [mbind option_bind].
  destruct (filter_passing t sims) as [f|] eqn:Hf; [|done].
  cbn [mbind option_bind]. intros [= <-].
  apply filter_passing_fails in Hf as ->; [apply PyFacts.slice_to_nil|].
  apply mapM_Some in Hs. clear -Hs HM.
  induction Hs as [|[i e] [j sim] l sims Hx _ IH]; constructor; [|done].
  cbn in *. destruct (cosine_similarity_matrix M e) as [sim'|] eqn:Hc; [|done].
  injection Hx as _ <-.
  by apply (cosine_similarity_matrix_fails M e t sim').
Qed.

(** *** The loop over the descriptions *)

Section Rag.
Variable get_embeddings : list string → option (list Sim.vec).

Lemma rag_step_spec df acc desc :
  rag_step get_embeddings df acc desc =
    hits ← similar_indices get_embeddings df desc;
    rows ← mapM (iloc df) hits;
    Some (acc ++ rows).
Proof.
  unfold rag_step, similar_indices. by destruct (get_embeddings [desc]).
Qed.

(** What the query of one description returns. *)
Lemma similar_indices_spec df desc hits :
  similar_indices get_embeddings df desc = Some hits →
  (length hits ≤ 2)%nat ∧ NoDup hits.*1 ∧
  ∀ h, h ∈ hits →
    ∃ v x row,
      get_embeddings [desc] = Some [v] ∧ h.2 = Array [x] ∧
      df !! h.1 = Some row ∧
      Sim.cosine_similarity_manual v (embeddings row) = Some x ∧
      (rag_threshold <=? x)%float = true.
Proof.
  unfold similar_indices.
  destruct (get_embeddings [desc]) as [M|]; [|done]. cbn [mbind option_bind].
  intros H. destruct (find_similar_items_matrix_hits _ _ _ _ _ H) as [->|[v ->]].
  { split_and!; [simpl; lia|constructor|]. by intros h ?%not_elem_of_nil. }
  rewrite find_similar_items_matrix_single in H.
  apply fmap_Some in H as (hits0 & H & ->). split_and!.
  - rewrite length_fmap. revert H. rewrite SimFacts.find_similar_items_unfold.
    destruct (SimSpec.similarities v _); [|done]. intros [= <-].
    rewrite PyFacts.slice_to_nonneg by (unfold Sim.default_top_k; lia).
    rewrite length_take. unfold Sim.default_top_k. lia.
  - rewrite <- list_fmap_compose.
    by apply (SimFacts.find_similar_items_NoDup _ _ _ _ _ H).
  - intros h (p & -> & Hp)%list_elem_of_fmap.
    destruct (SimFacts.find_similar_items_prefix _ _ _ _ _ H)
      as (sims & n & Hsims & ->).
    apply SimFacts.elem_of_take, SimFacts.ranking_spec in Hp as [Hp Ht].
    apply list_elem_of_lookup_1 in Hp as [i Hi].
    destruct (SimFacts.similarities_lookup _ _ _ Hsims) as [_ Hlook].
    destruct (Hlook i p Hi) as [<- (e & He & Hs)].
    rewrite list_lookup_fmap in He.
    destruct (df !! p.1) as [row|] eqn:Hrow; [|done]. injection He as <-.
    exists v, p.2, row. done.
Qed.

(** What [iloc] makes of one hit. *)
Lemma iloc_hit df (h : nat * ndarray) (x : float) row (s : series) :
  h.2 = Array [x] → df !! h.1 = Some row →
  (rag_threshold <=? x)%float = true →
  iloc df h = Some s →
  (∃ c, c ∈ cells row ∧ s = [c]) ∧
  (∀ id, is_id id s = true → id = item_id row ∧ (x <? 1)%float = true) ∧
  ((x <? 1)%float = true → s = [id_cell (item_id row)]).
Proof.
  intros Hx Hrow Ht. unfold iloc. rewrite Hrow, Hx. cbn [mbind option_bind].
  intros Hs. destruct (series_take_cell row x s Ht Hs) as [Hc Hid].
  split_and!; [done..|].
  intros H1. rewrite (series_take_below_one row x Ht H1) in Hs. congruence.
Qed.

Lemma occurrences_app id l1 l2 :
  occurrences id (l1 ++ l2) = (occurrences id l1 + occurrences id l2)%nat.
Proof. unfold occurrences. by rewrite filter_app, length_app. Qed.

Lemma existsb_not_hit (hits : list (nat * ndarray)) (i : nat) :
  i ∉ hits.*1 →
  existsb (λ h, bool_decide (h.1 = i) && below_one h.2) hits = false.
Proof.
  induction hits as [|h hits IH]; [done|]. rewrite fmap_cons, not_elem_of_cons.
  intros [Hne Hnotin]. cbn [existsb]. rewrite IH by done.
  by rewrite bool_decide_false by done.
Qed.

Lemma occurrences_rows df (hits : list (nat * ndarray)) rows i row :
  NoDup (item_id <$> df) → NoDup hits.*1 →
  (∀ h, h ∈ hits →
     ∃ x row', h.2 = Array [x] ∧ df !! h.1 = Some row' ∧
               (rag_threshold <=? x)%float = true) →
  mapM (iloc df) hits = Some rows →
  df !! i = Some row →
  occurrences (item_id row) rows =
    if existsb (λ h, bool_decide (h.1 = i) && below_one h.2) hits
    then 1%nat else 0%nat.
Proof.
  intros Hids Hnd Hhits Hrows%mapM_Some Hi. revert Hnd Hhits.
  induction Hrows as [|h s hits rows Hh _ IH]; intros Hnd Hhits; [done|].
  rewrite fmap_cons in Hnd. apply NoDup_cons in Hnd as [Hnotin Hnd].
  assert (∀ h', h' ∈ hits →
            ∃ x row', h'.2 = Array [x] ∧ df !! h'.1 = Some row' ∧
                      (rag_threshold <=? x)%float = true) as Hhits'.
  { intros h' Hh'. apply Hhits. by apply list_elem_of_further. }
  specialize (IH Hnd Hhits').
  destruct (Hhits h) as (x & row' & Hx & Hrow' & Ht); [apply list_elem_of_here|].
  destruct (iloc_hit df h x row' s Hx Hrow' Ht Hh) as (_ & Hid & Hone).
  change (occurrences (item_id row) (s :: rows))
    with (occurrences (item_id row) ([s] ++ rows)).
  rewrite occurrences_app, IH. cbn [existsb]. unfold occurrences.
  rewrite filter_cons, filter_nil.
  destruct (decide (h.1 = i)) as [Heq|Hne].
  - rewrite Heq in Hrow', Hnotin. assert (row' = row) as -> by congruence.
    rewrite (existsb_not_hit hits i Hnotin), bool_decide_true by done.
    rewrite Hx. cbn [below_one andb orb].
    destruct (x <? 1)%float eqn:H1.
    + rewrite (Hone eq_refl). cbn [is_id].
      rewrite bool_decide_true by done. by rewrite decide_True by done.
    + rewrite decide_False; [done|]. intros [_ ?]%Hid. congruence.
  - rewrite bool_decide_false by done. cbn [andb orb].
    rewrite decide_False; [done|]. intros [Hid' _]%Hid. apply Hne.
    eapply (NoDup_lookup (item_id <$> df)); [done| |].
    + by rewrite list_lookup_fmap, Hrow'.
    + rewrite list_lookup_fmap, Hi. simpl. by rewrite Hid'.
Qed.

Lemma rag_fold_None df descs :
  foldl (λ similar_items desc,
           similar_items ← similar_items;
           rag_step get_embeddings df similar_items desc) None descs = None.
Proof. induction descs; done. Qed.

Lemma rag_fold_occurrences df descs : ∀ acc res,
  NoDup (item_id <$> df) →
  foldl (λ similar_items desc,
           similar_items ← similar_items;
           rag_step get_embeddings df similar_items desc) (Some acc) descs
    = Some res →
  length res =
    (length acc + sum_list (retrieved get_embeddings df <$> descs))%nat ∧
  ∀ i row, df !! i = Some row →
    occurrences (item_id row) res =
      (occurrences (item_id row) acc +
       length (filter (λ desc, retrieves get_embeddings df desc i) descs))%nat.
Proof.
  induction descs as [|desc descs IH]; intros acc res Hids Hfold.
  - simpl in *. injection Hfold as <-. split; [lia|]. intros. lia.
  - simpl in Hfold. rewrite rag_step_spec in Hfold.
    destruct (similar_indices get_embeddings df desc) as [hits|] eqn:Hhits;
      simpl in Hfold;
      [|by rewrite rag_fold_None in Hfold].
    destruct (mapM _ hits) as [rows|] eqn:Hrows; simpl in Hfold;
      [|by rewrite rag_fold_None in Hfold].
    destruct (IH _ _ Hids Hfold) as [IHlen IHocc].
    destruct (similar_indices_spec _ _ _ Hhits) as (_ & Hnd & Hspec).
    split.
    + rewrite IHlen, length_app, fmap_cons. cbn [sum_list].
      assert (retrieved get_embeddings df desc = length hits) as Hr
        by (unfold retrieved; by rewrite Hhits).
      unfold id. rewrite Hr, (length_mapM _ _ _ Hrows). lia.
    + intros i row Hi. rewrite (IHocc i row Hi), occurrences_app.
      rewrite (occurrences_rows df hits rows i row Hids Hnd); [|
        intros h Hh; destruct (Hspec h Hh) as (v & x & row' & _ & ? & ? & _ & ?);
        by eauto |done|done].
      assert (retrieves get_embeddings df desc i =
              existsb (λ h, bool_decide (h.1 = i) && below_one h.2) hits) as Hr
        by (unfold retrieves; by rewrite Hhits).
      rewrite filter_cons.
      destruct (decide (retrieves get_embeddings df desc i)) as [Hd|Hd];
        rewrite Hr in Hd; destruct (existsb _ hits); simpl in *; done || lia.
Qed.

(** C3, as the code has it: the retrieval step appends, for each
    description, one entry for every position its query returns, and
    removes nothing.  The entry of a hit whose similarity is below 1 is
    the [id] cell of the row; so in a catalog whose identifiers are
    distinct, the identifier of an item stands in the returned sequence
    once for every description that retrieves the item. *)
Theorem find_matching_items_with_rag_occurrences
    (df_items : list CatalogItem) (item_descs : list string)
    (res : list series) :
  NoDup (item_id <$> df_items) →
  find_matching_items_with_rag get_embeddings df_items item_descs = Some res →
  length res = sum_list (retrieved get_embeddings df_items <$> item_descs) ∧
  ∀ i row, df_items !! i = Some row →
    occurrences (item_id row) res =
      length (filter (λ desc, retrieves get_embeddings df_items desc i) item_descs).
Proof.
  intros Hids Hres.
  destruct (rag_fold_occurrences _ _ _ _ Hids Hres) as [Hlen Hocc].
  split; [done|]. intros i row Hi. by rewrite (Hocc i row Hi).
Qed.

End Rag.

(** C3: two descriptions retrieve the sneakers, none the dress. *)
Lemma find_matching_items_with_rag_occurrences_witness :
  find_matching_items_with_rag near_axis [sneakers; dress]
    ["White Sneakers"; "Canvas Sneakers"] = Some [[id_cell 1]; [id_cell 1]] ∧
  length [[id_cell 1]; [id_cell 1]] =
    sum_list (retrieved near_axis [sneakers; dress]
                <$> ["White Sneakers"; "Canvas Sneakers"]) ∧
  occurrences (item_id sneakers) [[id_cell 1]; [id_cell 1]] =
    length (filter (λ desc, retrieves near_axis [sneakers; dress] desc 0)
              ["White Sneakers"; "Canvas Sneakers"]) ∧
  occurrences (item_id dress) [[id_cell 1]; [id_cell 1]] =
    length (filter (λ desc, retrieves near_axis [sneakers; dress] desc 1)
              ["White Sneakers"; "Canvas Sneakers"]).
Proof.
  split; [vm_compute; reflexivity|].
  destruct (find_matching_items_with_rag_occurrences near_axis [sneakers; dress]
              ["White Sneakers"; "Canvas Sneakers"] [[id_cell 1]; [id_cell 1]])
    as [Hlen Hocc].
  - apply NoDup_cons. split; [|apply NoDup_singleton].
    intros Hin%list_elem_of_singleton. discriminate.
  - vm_compute. reflexivity.
  - split; [exact Hlen|].
    split; [exact (Hocc 0%nat sneakers eq_refl)|exact (Hocc 1%nat dress eq_refl)].
Defined.

(** C3 as stated fails: two descriptions retrieve the sneakers, and the
    identifier of the sneakers is returned twice. *)
Lemma find_matching_items_with_rag_duplicates :
  NoDup (item_id <$> [sneakers; dress]) ∧
  find_matching_items_with_rag near_axis [sneakers; dress]
    ["White Sneakers"; "Canvas Sneakers"] = Some [[id_cell 1]; [id_cell 1]] ∧
  retrieves near_axis [sneakers; dress] "White Sneakers" 0 = true ∧
  retrieves near_axis [sneakers; dress] "Canvas Sneakers" 0 = true ∧
  occurrences (item_id sneakers) [[id_cell 1]; [id_cell 1]] ≠ 1%nat.
Proof.
  split_and!; try (vm_compute; reflexivity).
  - apply NoDup_cons. split; [|apply NoDup_singleton].
    intros Hin%list_elem_of_singleton. discriminate.
  - vm_compute. lia.
Qed.

End RagFacts.

(** ** The guardrail loop *)

Module GuardrailFacts.

Import Guardrail GuardrailSpec.

Lemma eq_str_true (value : json) (s : string) :
  eq_str value s = true ↔ value = JStr s.
Proof.
  destruct value; simpl; try (split; [done|by intros [=]]).
  rewrite bool_decide_eq_true. split; [by intros ->|by intros [= ->]].
Qed.

Lemma count_filter_NoDup (P : string → Prop) `{!∀ x, Decision (P x)}
    (l : list string) (p : string) :
  NoDup l →
  length (filter (λ q, q = p) (filter P l)) =
    if decide (p ∈ l ∧ P p) then 1%nat else 0%nat.
Proof.
  induction 1 as [|x l Hx Hl IH].
  - rewrite decide_False; [done|]. intros [[]%not_elem_of_nil _].
  - rewrite filter_cons. destruct (decide (P x)) as [HPx|HPx].
    + rewrite filter_cons. destruct (decide (x = p)) as [->|Hne]; simpl.
      * rewrite IH, decide_False by tauto.
        rewrite decide_True; [done|]. split; [apply list_elem_of_here|done].
      * rewrite IH. destruct (decide (p ∈ l ∧ P p)) as [[Hin HP]|Hn].
        -- rewrite decide_True; [done|]. split; [by apply list_elem_of_further|done].
        -- rewrite decide_False; [done|].
           intros [[->|Hin]%elem_of_cons HP]; tauto.
    + rewrite IH. destruct (decide (p ∈ l ∧ P p)) as [[Hin HP]|Hn].
      * rewrite decide_True; [done|]. split; [by apply list_elem_of_further|done].
      * rewrite decide_False; [done|].
        intros [[->|Hin]%elem_of_cons HP]; tauto.
Qed.

Section Loop.
Variable list_set : list string → list string.
Variable encode_image_to_base64 : string → option string.
Variable check_match : string → string → option string.
Variable json_loads : string → option json.

#[local] Abbreviation reply_of :=
  (GuardrailSpec.reply_of encode_image_to_base64 check_match json_loads).
#[local] Abbreviation accepted :=
  (GuardrailSpec.accepted encode_image_to_base64 check_match json_loads).
#[local] Abbreviation raises :=
  (GuardrailSpec.raises encode_image_to_base64 check_match json_loads).

Lemma verify_loop_spec encoded_image paths : ∀ st st',
  verify_loop encode_image_to_base64 check_match json_loads
    encoded_image paths st = (st', true) →
  verified st' = verified st ++ paths ∧
  displayed st' = displayed st ++ filter (accepted encoded_image) paths ∧
  Forall (λ p, ¬ raises encoded_image p) paths.
Proof.
  induction paths as [|path rest IH]; intros st st'; simpl.
  - intros [= <-]. by rewrite !app_nil_r.
  - destruct (encode_image_to_base64 path) as [img|] eqn:Himg; [|done].
    assert (reply_of encoded_image path
            = match_of check_match json_loads encoded_image img) as Hr.
    { unfold GuardrailSpec.reply_of. by rewrite Himg. }
    destruct (classify (match_of check_match json_loads encoded_image img))
      as [reason| |[]] eqn:Hv; [| |done|done].
    + intros (Hver & Hdis & Hok)%IH. simpl in *.
      rewrite filter_cons, decide_True
        by (unfold GuardrailSpec.accepted; by rewrite Hr, Hv).
      rewrite <- !app_assoc in *. split_and!; [done|done|].
      constructor; [|done]. unfold GuardrailSpec.raises. by rewrite Hr, Hv.
    + intros (Hver & Hdis & Hok)%IH. simpl in *.
      rewrite filter_cons, decide_False
        by (unfold GuardrailSpec.accepted; by rewrite Hr, Hv).
      rewrite <- !app_assoc in *. split_and!; [done|done|].
      constructor; [|done]. unfold GuardrailSpec.raises. by rewrite Hr, Hv.
Qed.

(** The loop runs to its end when the body raises on no path. *)
Lemma verify_loop_completes encoded_image paths : ∀ st,
  Forall (λ p, ¬ raises encoded_image p) paths →
  (verify_loop encode_image_to_base64 check_match json_loads
     encoded_image paths st).2 = true.
Proof.
  induction paths as [|path rest IH]; intros st Hok; simpl; [done|].
  apply Forall_cons in Hok as [Hp Hok].
  unfold GuardrailSpec.raises, GuardrailSpec.reply_of in Hp.
  destruct (encode_image_to_base64 path) as [img|]; simpl in Hp; [|done].
  destruct (classify _) as [reason| |[]]; [by apply IH|by apply IH|done|done].
Qed.

Lemma reply_of_Some encoded_image p img reply :
  encode_image_to_base64 p = Some img →
  check_match encoded_image img = Some reply →
  reply_of encoded_image p = json_loads reply.
Proof.
  intros Himg Hreply. unfold GuardrailSpec.reply_of, match_of.
  rewrite Himg. simpl. by rewrite Hreply.
Qed.

(** C7: when [list(set(paths))] lists the distinct paths once each and
    the loop runs to its end, every distinct candidate is verified
    exactly once; a candidate for which the reply that [check_match]
    gives on its image, loaded by [json.loads], has the answer "no" is
    not displayed, and one for which it has the answer "yes" is
    displayed exactly once, however often its path stands in [paths]. *)
Theorem guardrail_verifies_once (encoded_image : string) (paths : list string)
    (st : shown) :
  (∀ l, NoDup (list_set l)) →
  (∀ l x, x ∈ list_set l ↔ x ∈ l) →
  guardrail list_set encode_image_to_base64 check_match json_loads
    encoded_image paths = (st, true) →
  NoDup (verified st) ∧
  (∀ p, p ∈ verified st ↔ p ∈ paths) ∧
  (∀ p img reply m,
     p ∈ paths →
     encode_image_to_base64 p = Some img →
     check_match encoded_image img = Some reply →
     json_loads reply = Some m →
     (getitem m "answer" = Some (JStr "no") → p ∉ displayed st) ∧
     (getitem m "answer" = Some (JStr "yes") →
        length (filter (λ q, q = p) (displayed st)) = 1%nat)).
Proof.
  intros Hnd Hset Hrun. unfold guardrail in Hrun.
  apply verify_loop_spec in Hrun as (Hver & Hdis & Hok). simpl in *.
  rewrite Hver, Hdis. split_and!; [done|done|].
  intros p img reply m Hp Himg Hreply Hloads.
  pose proof (reply_of_Some encoded_image p img reply Himg Hreply) as Hm.
  rewrite Hloads in Hm. split.
  - intros Hno [Hacc _]%list_elem_of_filter.
    unfold GuardrailSpec.accepted in Hacc.
    rewrite Hm in Hacc. unfold classify in Hacc. rewrite Hno in Hacc. done.
  - intros Hyes. rewrite count_filter_NoDup by done.
    rewrite decide_True; [done|]. split; [by apply Hset|].
    rewrite Forall_forall in Hok. specialize (Hok p (proj2 (Hset _ _) Hp)).
    unfold GuardrailSpec.accepted, GuardrailSpec.raises in *.
    rewrite Hm in *. unfold classify in *. rewrite Hyes in *. simpl in *.
    by destruct (getitem m "reason").
Qed.

End Loop.

(** C7: the path [a.jpg] stands twice in the list; it is sent to the
    model once and displayed once, and [b.jpg], answered "no", and
    [c.jpg] are sent once and not displayed. *)
Lemma guardrail_verifies_once_witness :
  guardrail list_set_elements Some stub_check_match stub_json_loads
    "ref" ["a.jpg"; "b.jpg"; "a.jpg"; "c.jpg"]
    = (Shown ["c.jpg"; "a.jpg"; "b.jpg"] ["a.jpg"] [JStr "because"], true) ∧
  NoDup ["c.jpg"; "a.jpg"; "b.jpg"] ∧
  (∀ p, p ∈ ["c.jpg"; "a.jpg"; "b.jpg"] ↔
        p ∈ ["a.jpg"; "b.jpg"; "a.jpg"; "c.jpg"]) ∧
  (∀ p img reply m,
     p ∈ ["a.jpg"; "b.jpg"; "a.jpg"; "c.jpg"] →
     Some p = Some img →
     stub_check_match "ref" img = Some reply →
     stub_json_loads reply = Some m →
     (getitem m "answer" = Some (JStr "no") → p ∉ ["a.jpg"]) ∧
     (getitem m "answer" = Some (JStr "yes") →
        length (filter (λ q, q = p) ["a.jpg"]) = 1%nat)).
Proof.
  split; [vm_compute; reflexivity|].
  apply (guardrail_verifies_once list_set_elements Some stub_check_match
           stub_json_loads "ref" ["a.jpg"; "b.jpg"; "a.jpg"; "c.jpg"]
           (Shown ["c.jpg"; "a.jpg"; "b.jpg"] ["a.jpg"] [JStr "because"])).
  - intros l. unfold list_set_elements. apply NoDup_elements.
  - intros l x. unfold list_set_elements.
    rewrite elem_of_elements. apply elem_of_list_to_set.
  - vm_compute. reflexivity.
Defined.

End GuardrailFacts.

(** * Further properties of the cells *)

(** ** Cosine similarity and the query *)

Module SimExtra.

Import Sim SimSpec.
#[local] Open Scope float_scope.

Lemma SFmul_comm prec emax (x y : spec_float) :
  SFmul prec emax x y = SFmul prec emax y x.
Proof.
  destruct x as [sx|sx| |sx mx ex], y as [sy|sy| |sy my ey];
    unfold SFmul; rewrite ?(xorb_comm sx sy); try reflexivity.
  by rewrite (Pos.mul_comm mx my), (Z.add_comm ex ey).
Qed.

Lemma mul_comm (x y : float) : x * y = y * x.
Proof.
  apply Prim2SF_inj. rewrite !FloatAxioms.mul_spec. apply SFmul_comm.
Qed.

Lemma dot_sum_comm (v1 v2 : vec) : dot_sum v1 v2 = dot_sum v2 v1.
Proof.
  unfold dot_sum. generalize 0 as acc. revert v2.
  induction v1 as [|x v1 IH]; intros [|y v2] acc; simpl; try done.
  rewrite (mul_comm y x). apply IH.
Qed.

(** X1: cosine similarity is symmetric, bit for bit, and so is the error:
    swapping the two vectors changes neither the value nor whether
    [np.dot] raises. *)
Theorem cosine_similarity_symmetric (vec1 vec2 : vec) :
  cosine_similarity_manual vec1 vec2 = cosine_similarity_manual vec2 vec1.
Proof.
  unfold cosine_similarity_manual, np_dot.
  destruct (decide (length vec1 = length vec2)) as [Hlen|Hlen].
  - rewrite decide_True by done. simpl.
    by rewrite dot_sum_comm, (mul_comm (np_linalg_norm vec1)).
  - rewrite decide_False by done. done.
Qed.

(** Two vectors at an angle whose cosine is 24/25, and two of
    different lengths. *)
Example cosine_similarity_example :
  cosine_similarity_manual [3; 4] [4; 3] = cosine_similarity_manual [4; 3] [3; 4] ∧
  cosine_similarity_manual [3; 4] [4; 3] = Some 0x1.eb851eb851eb8p-1 ∧
  cosine_similarity_manual [3; 4] [1] = None.
Proof. repeat split. Qed.

Lemma cosine_similarity_None (vec1 vec2 : vec) :
  cosine_similarity_manual vec1 vec2 = None ↔ length vec1 ≠ length vec2.
Proof.
  unfold cosine_similarity_manual, np_dot.
  destruct (decide (length vec1 = length vec2)); simpl; split; done.
Qed.

Lemma find_similar_items_None (input_embedding : vec)
    (embeddings : list vec) (threshold : float) (top_k : Z) :
  find_similar_items input_embedding embeddings threshold top_k = None ↔
  Exists (λ v, length v ≠ length input_embedding) embeddings.
Proof.
  rewrite SimFacts.find_similar_items_unfold. split.
  - intros H. apply not_Forall_Exists; [apply _|]. intros HE.
    assert (Forall (λ v, length v = length input_embedding) embeddings) as HE'.
    { eapply Forall_impl; [exact HE|]. intros v Hv.
      destruct (decide (length v = length input_embedding)); [done|].
      by destruct Hv. }
    destruct (SimFacts.similarities_total _ _ HE') as [sims Hs].
    by rewrite Hs in H.
  - intros (v & [i Hi]%list_elem_of_lookup_1 & Hv)%Exists_exists.
    destruct (similarities input_embedding embeddings) as [sims|] eqn:Hs; [|done].
    exfalso. destruct (SimFacts.similarities_lookup _ _ _ Hs) as [Hlen Hlook].
    destruct (sims !! i) as [p|] eqn:Hp.
    + destruct (Hlook _ _ Hp) as [_ (v' & Hv' & Hcos)].
      assert (Some v' = Some v) as [= ->] by exact (eq_trans (eq_sym Hv') Hi).
      assert (cosine_similarity_manual input_embedding v = None) as Hn.
      { apply cosine_similarity_None. by intros Heq; rewrite Heq in Hv. }
      rewrite Hn in Hcos. done.
    + apply lookup_ge_None in Hp. apply lookup_lt_Some in Hi.
      unfold vec in *. lia.
Qed.

(** X2: the query raises exactly when some embedding of the index has
    another length than the query vector, wherever it stands and
    whatever its score would have been: one malformed row fails the
    whole query. *)
Theorem find_similar_items_raises (input_embedding : vec)
    (embeddings : list vec) (threshold : float) (top_k : Z) :
  find_similar_items input_embedding embeddings threshold top_k = None ↔
  Exists (λ v, length v ≠ length input_embedding) embeddings.
Proof. apply find_similar_items_None. Qed.

(** X3: the results are the best: an embedding that passes the threshold
    and is left out by the cut to [top_k] scores no higher than any
    result, and then the result is full. *)
Theorem find_similar_items_best (input_embedding : vec) (embeddings : list vec)
    (threshold : float) (top_k : Z) (res : list (nat * float)) :
  0 ≤ top_k →
  find_similar_items input_embedding embeddings threshold top_k = Some res →
  ∀ i v s, embeddings !! i = Some v →
    cosine_similarity_manual input_embedding v = Some s →
    (threshold <=? s) = true → (i, s) ∉ res →
    Z.of_nat (length res) = top_k ∧ ∀ p, p ∈ res → (s <=? p.2) = true.
Proof.
  intros Hk. rewrite SimFacts.find_similar_items_unfold. intros H i v s Hv Hs Ht Hout.
  destruct (similarities input_embedding embeddings) as [sims|] eqn:Hsims; [|done].
  injection H as <-. rewrite PyFacts.slice_to_nonneg in * by done.
  assert ((i, s) ∈ ranking threshold sims) as Hin.
  { apply SimFacts.ranking_spec. split; [|done].
    eapply list_elem_of_lookup_2, SimFacts.similarities_complete; done. }
  apply list_elem_of_lookup_1 in Hin as [j Hj].
  assert (Z.to_nat top_k ≤ j)%nat as Hjk.
  { destruct (decide (Z.to_nat top_k ≤ j)%nat); [done|]. exfalso. apply Hout.
    apply (list_elem_of_lookup_2 _ j). rewrite lookup_take_lt by lia. done. }
  split.
  - rewrite length_take. apply lookup_lt_Some in Hj. lia.
  - intros p [n Hn]%list_elem_of_lookup_1.
    assert (n < Z.to_nat top_k)%nat.
    { apply lookup_lt_Some in Hn. rewrite length_take in Hn. lia. }
    apply SimFacts.take_lookup_Some in Hn.
    pose proof (SimFacts.ranking_sorted _ _ threshold _ Hsims) as Hsorted.
    apply (SimFacts.ranked_descending _ Hsorted
             (SimFacts.ranking_not_nan threshold sims) n j p (i, s)); [lia|done..].
Qed.

(** X3: with [top_k = 1] the second embedding, which scores 0.949, is
    left out for the first, which scores 1. *)
Lemma find_similar_items_best_witness :
  find_similar_items [1; 0] [[2; 0]; [3; 1]; [0; 1]] default_threshold 1
    = Some [(0%nat, 1%float)] ∧
  Z.of_nat (length [(0%nat, 1%float)]) = 1%Z ∧
  ∀ p, p ∈ [(0%nat, 1%float)] → (0x1.e5b9d136c6d96p-1 <=? p.2) = true.
Proof.
  split; [vm_compute; reflexivity|].
  apply (find_similar_items_best [1; 0] [[2; 0]; [3; 1]; [0; 1]]
           default_threshold 1 [(0%nat, 1%float)] ltac:(lia) eq_refl
           1%nat [3; 1] 0x1.e5b9d136c6d96p-1 eq_refl eq_refl eq_refl).
  intros Hin%list_elem_of_singleton. discriminate.
Defined.

(** X4: no row of the index is returned twice by one query. *)
Theorem find_similar_items_distinct (input_embedding : vec)
    (embeddings : list vec) (threshold : float) (top_k : Z)
    (res : list (nat * float)) :
  find_similar_items input_embedding embeddings threshold top_k = Some res →
  NoDup res.*1.
Proof. apply SimFacts.find_similar_items_NoDup. Qed.

(** X4: two embeddings that tie with the query. *)
Lemma find_similar_items_distinct_witness :
  find_similar_items [1; 0] [[2; 0]; [1; 0]; [0; 1]] default_threshold 2
    = Some [(0%nat, 1%float); (1%nat, 1%float)] ∧
  NoDup [(0%nat, 1%float); (1%nat, 1%float)].*1.
Proof.
  split; [vm_compute; reflexivity|].
  apply (find_similar_items_distinct [1; 0] [[2; 0]; [1; 0]; [0; 1]]
           default_threshold 2 [(0%nat, 1%float); (1%nat, 1%float)]).
  vm_compute. reflexivity.
Defined.

(** X5: a negative [top_k] does not raise: [[:top_k]] then drops the last
    [-top_k] entries of the complete ranking, so for [top_k = -n] the
    query returns all passing rows but the [n] worst, best first. *)
Theorem find_similar_items_negative (input_embedding : vec)
    (embeddings : list vec) (threshold : float) (top_k : Z)
    (res : list (nat * float)) :
  top_k < 0 →
  find_similar_items input_embedding embeddings threshold top_k = Some res →
  ∃ full,
    find_similar_items input_embedding embeddings threshold
      (Z.of_nat (length embeddings)) = Some full ∧
    res = take (length full - Z.to_nat (- top_k)) full.
Proof.
  intros Hk. rewrite !SimFacts.find_similar_items_unfold. intros H.
  destruct (similarities input_embedding embeddings) as [sims|] eqn:Hsims; [|done].
  injection H as <-. exists (ranking threshold sims). split.
  - simpl. rewrite PyFacts.slice_to_nonneg by lia. rewrite Nat2Z.id, take_ge; [done|].
    destruct (SimFacts.similarities_lookup _ _ _ Hsims) as [<- _].
    apply SimFacts.ranking_length.
  - by apply PyFacts.slice_to_neg.
Qed.

(** X5: with [top_k = -1] the worse of the two passing rows is
    dropped. *)
Lemma find_similar_items_negative_witness :
  find_similar_items [1; 0] [[2; 0]; [3; 1]; [0; 1]] default_threshold (-1)
    = Some [(0%nat, 1%float)] ∧
  ∃ full,
    find_similar_items [1; 0] [[2; 0]; [3; 1]; [0; 1]] default_threshold
      (Z.of_nat (length [[2; 0]; [3; 1]; [0; 1]])) = Some full ∧
    [(0%nat, 1%float)] = take (length full - Z.to_nat (- -1)) full.
Proof.
  split; [vm_compute; reflexivity|].
  apply (find_similar_items_negative [1; 0] [[2; 0]; [3; 1]; [0; 1]]
           default_threshold (-1) [(0%nat, 1%float)]);
    [lia | vm_compute; reflexivity].
Defined.

(** X6: nothing passes a NaN threshold, and [top_k = 0] keeps nothing: in
    both cases a query that does not raise returns the empty list. *)
Theorem find_similar_items_nothing (input_embedding : vec)
    (embeddings : list vec) (threshold : float) (top_k : Z)
    (res : list (nat * float)) :
  is_nan threshold = true ∨ top_k = 0%Z →
  find_similar_items input_embedding embeddings threshold top_k = Some res →
  res = [].
Proof.
  intros Hcase H.
  destruct (SimFacts.find_similar_items_prefix _ _ _ _ _ H) as (sims & n & Hsims & Hres).
  destruct Hcase as [Hnan| ->].
  - destruct res as [|p res]; [done|]. exfalso.
    assert (p ∈ ranking threshold sims) as Hp.
    { eapply SimFacts.elem_of_take. rewrite <- Hres. apply list_elem_of_here. }
    apply SimFacts.ranking_spec in Hp as [_ Hp].
    apply F64Facts.leb_not_nan in Hp as [Hp _]. congruence.
  - rewrite SimFacts.find_similar_items_unfold, Hsims in H. simpl in H.
    rewrite PyFacts.slice_to_nonneg in H by lia. by injection H as <-.
Qed.

(** X6: a NaN threshold on an index with a perfect match. *)
Lemma find_similar_items_nothing_witness :
  find_similar_items [1; 0] [[2; 0]; [0; 1]] nan 2 = Some [] ∧
  @nil (nat * float) = [].
Proof.
  split; [vm_compute; reflexivity|].
  apply (find_similar_items_nothing [1; 0] [[2; 0]; [0; 1]] nan 2 []);
    [left; reflexivity | vm_compute; reflexivity].
Defined.

End SimExtra.

(** ** Batches, the pool and the embeddings of the catalog *)

Module EmbedExtra.

Import Embed EmbedSpec Rag RagSpec Cells.

Lemma batchify_None {A} (l : list A) (n : Z) : batchify l n = None ↔ n = 0.
Proof.
  unfold batchify, Py.range. destruct (Z.eqb_spec n 0) as [->|Hn]; simpl; split; done.
Qed.

(** X7: for a positive size [batchify] is a partition of the list into
    consecutive batches: put end to end the batches are the list, there
    are [ceil(len / n)] of them, none is empty, none has more than [n]
    elements, and every batch but the last has exactly [n]. *)
Theorem batchify_partition {A} (iterable : list A) (n : Z)
    (batches : list (list A)) :
  0 < n → batchify iterable n = Some batches →
  concat batches = iterable ∧
  length batches = batch_count (Z.of_nat (length iterable)) n ∧
  ∀ i b, batches !! i = Some b →
    b ≠ [] ∧ Z.of_nat (length b) ≤ n ∧
    ((S i < length batches)%nat → Z.of_nat (length b) = n).
Proof.
  intros Hn Hb. split; [by eapply EmbedFacts.batchify_concat|].
  rewrite EmbedFacts.batchify_chunks in Hb by done. injection Hb as <-.
  rewrite length_fmap, length_seq. split; [done|].
  intros i b. rewrite list_lookup_fmap. intros (j & Hj & ->)%fmap_Some.
  apply lookup_seq in Hj as [-> Hi]. simpl.
  destruct (EmbedFacts.batch_count_spec (Z.of_nat (length iterable)) n Hn
              ltac:(lia)) as [Hlt _].
  pose proof (Hlt i Hi) as Hi'.
  assert (i * Z.to_nat n < length iterable)%nat as Hin by nia.
  assert (length (take (Z.to_nat n) (drop (i * Z.to_nat n) iterable))
          = Z.to_nat n `min` (length iterable - i * Z.to_nat n))%nat as Hlen
    by (by rewrite length_take, length_drop).
  split_and!.
  - intros Hnil. rewrite Hnil in Hlen. simpl in Hlen. lia.
  - lia.
  - intros HS. specialize (Hlt (S i) HS).
    assert (i * Z.to_nat n + Z.to_nat n < length iterable)%nat by nia. lia.
Qed.

(** X7: seven elements in batches of three. *)
Lemma batchify_partition_witness :
  concat [[1; 2; 3]; [4; 5; 6]; [7]] = [1; 2; 3; 4; 5; 6; 7] ∧
  length [[1; 2; 3]; [4; 5; 6]; [7]] = batch_count (Z.of_nat 7) 3 ∧
  ∀ i b, [[1; 2; 3]; [4; 5; 6]; [7]] !! i = Some b →
    b ≠ [] ∧ Z.of_nat (length b) ≤ 3 ∧
    ((S i < 3)%nat → Z.of_nat (length b) = 3).
Proof.
  apply (batchify_partition [1; 2; 3; 4; 5; 6; 7] 3 [[1; 2; 3]; [4; 5; 6]; [7]]);
    [lia | reflexivity].
Defined.

Section Pool.
Variable encode : string → tokens.
Variable special_token : string → bool.
Variable get_embeddings : list tokens → option (list Sim.vec).

(** X8: a run of the executor to its end raises in four cases only: the
    tokenizer refuses a text of the corpus, the worker count is not
    positive, the batch size is zero, or [get_embeddings] fails on one
    of the batches; and in each of them it does raise, whatever the
    other batches returned. *)
Theorem embed_corpus_raises (schedule : list event) (corpus : list string)
    (batch_size num_workers max_context_len : Z) :
  embed_corpus encode special_token get_embeddings schedule corpus batch_size
    num_workers max_context_len ≠ Blocked →
  embed_corpus encode special_token get_embeddings schedule corpus batch_size
    num_workers max_context_len = Raised ↔
  (∃ text, text ∈ corpus ∧ special_token text = true) ∨
  num_workers ≤ 0 ∨ batch_size = 0 ∨
  ∃ batches b,
    batchify (encoded_corpus encode corpus max_context_len) batch_size
      = Some batches ∧
    b ∈ batches ∧ get_embeddings b = None.
Proof.
  intros Hrun.
  destruct (EmbedFacts.embed_corpus_schedule_independent encode special_token
              get_embeddings schedule corpus batch_size num_workers
              max_context_len) as [H|H];
    [done|].
  rewrite H. unfold embed_corpus_in_order.
  destruct (existsb special_token corpus) eqn:Hsp.
  { split; [|done]. intros _. left.
    apply existsb_exists in Hsp as (text & Hin & Ht).
    exists text. by rewrite list_elem_of_In. }
  assert (¬ ∃ text, text ∈ corpus ∧ special_token text = true) as Hnone.
  { intros (text & Hin & Ht). apply not_true_iff_false in Hsp. apply Hsp.
    apply existsb_exists. exists text. by rewrite <- list_elem_of_In. }
  case_bool_decide as Hnw; [split; auto|].
  destruct (batchify _ _) as [batches|] eqn:Hb.
  - destruct (mapM get_embeddings batches) as [results|] eqn:Hm.
    + split; [done|].
      intros [?|[?|[->|(bs & b & [= <-] & Hin & Hf)]]]; [done|lia| |].
      * by rewrite EmbedFacts.batchify_zero in Hb.
      * assert (mapM get_embeddings batches = None) as Hm'.
        { apply mapM_None, Exists_exists. eauto. }
        congruence.
    + split; [|done]. intros _. do 3 right.
      apply mapM_None, Exists_exists in Hm as (b & Hin & Hf). eauto.
  - split; [|done]. intros _. right. right. left.
    by apply EmbedFacts.batchify_raises in Hb.
Qed.

(** X9: on a corpus that the tokenizer accepts, a negative batch size
    raises nothing: no batch is submitted, the pool has nothing to run,
    and whatever the texts the function returns the empty list. *)
Theorem embed_corpus_negative_batches (corpus : list string)
    (batch_size num_workers max_context_len : Z) :
  Forall (λ text, special_token text = false) corpus →
  batch_size < 0 → 0 < num_workers →
  embed_corpus encode special_token get_embeddings [] corpus batch_size
    num_workers max_context_len = Returned [] ∧
  ∀ schedule out,
    embed_corpus encode special_token get_embeddings schedule corpus batch_size
      num_workers max_context_len = Returned out → schedule = [] ∧ out = [].
Proof.
  intros Hsp Hbs Hnw. split.
  - rewrite EmbedFacts.embed_corpus_unfold.
    rewrite (EmbedFacts.existsb_false _ _ Hsp), bool_decide_false by lia.
    by rewrite EmbedFacts.batchify_negative.
  - intros schedule out. rewrite EmbedFacts.embed_corpus_unfold.
    rewrite (EmbedFacts.existsb_false _ _ Hsp), bool_decide_false by lia.
    rewrite EmbedFacts.batchify_negative by done.
    destruct schedule as [|[i|i] s]; simpl; [by intros [= <-]|done|done].
Qed.

End Pool.

(** X8: one batch, on which the endpoint fails. *)
Lemma embed_corpus_raises_witness :
  embed_corpus byte_tokens endoftext (λ _, None) (sequential_schedule 1)
    ["abc"] 64 8 8191 = Raised ↔
  (∃ text, text ∈ ["abc"] ∧ endoftext text = true) ∨
  8 ≤ 0 ∨ 64 = 0 ∨
  ∃ batches b,
    batchify (encoded_corpus byte_tokens ["abc"] 8191) 64 = Some batches ∧
    b ∈ batches ∧ (λ _ : list tokens, @None (list Sim.vec)) b = None.
Proof.
  apply (embed_corpus_raises byte_tokens endoftext (λ _, None)
           (sequential_schedule 1) ["abc"] 64 8 8191).
  vm_compute. discriminate.
Defined.

(** X9: a corpus of two texts and a batch size of [-64]. *)
Lemma embed_corpus_negative_batches_witness :
  embed_corpus byte_tokens endoftext token_service [] ["abc"; "de"] (-64) 8 8191
    = Returned [] ∧
  ∀ schedule out,
    embed_corpus byte_tokens endoftext token_service schedule ["abc"; "de"]
      (-64) 8 8191 = Returned out → schedule = [] ∧ out = [].
Proof.
  apply (embed_corpus_negative_batches byte_tokens endoftext token_service
           ["abc"; "de"] (-64) 8 8191); [repeat constructor|lia|lia].
Defined.

(** *** What [as_completed] and the progress bar see *)

Section Accounting.
Variable get_embeddings : list tokens → option (list Sim.vec).

Lemma pool_step_completed nw bs p e p' :
  pool_step get_embeddings nw bs p e = Some p' →
  pbar p = bs * Z.of_nat (length (completed p)) →
  NoDup (completed p) →
  (∀ i, i ∈ completed p ↔ ∃ f, futures p !! i = Some f ∧ is_finished f = true) →
  pbar p' = bs * Z.of_nat (length (completed p')) ∧
  NoDup (completed p') ∧
  (∀ i, i ∈ completed p' ↔ ∃ f, futures p' !! i = Some f ∧ is_finished f = true).
Proof.
  intros Hstep Hbar Hnd Hin. destruct e as [i|i]; simpl in Hstep;
    destruct (futures p !! i) as [[b [| |r]]|] eqn:Hi; try done.
  - case_bool_decide as Hnw; [|done]. injection Hstep as <-. simpl.
    split_and!; [done|done|]. intros j. rewrite Hin.
    destruct (decide (i = j)) as [<-|Hne].
    + rewrite list_lookup_insert_eq by (by eapply lookup_lt_Some). rewrite Hi.
      split; intros (f & [= <-] & Hf); done.
    + by rewrite list_lookup_insert_ne.
  - injection Hstep as <-. simpl.
    assert (i ∉ completed p) as Hnotin.
    { rewrite Hin. intros (f & Hf & Hfin). rewrite Hi in Hf. by injection Hf as <-. }
    split_and!.
    + rewrite length_app. simpl. lia.
    + apply NoDup_app. split_and!; [done| |apply NoDup_singleton].
      intros x Hx ->%list_elem_of_singleton. done.
    + intros j. rewrite elem_of_app, list_elem_of_singleton, Hin.
      destruct (decide (i = j)) as [<-|Hne].
      * rewrite list_lookup_insert_eq by (by eapply lookup_lt_Some).
        split; [intros _; by eexists|by right].
      * rewrite list_lookup_insert_ne by done.
        split; [intros [?|?]; [done|congruence]|by left].
Qed.

Lemma pool_run_completed nw bs schedule : ∀ p p',
  pool_run get_embeddings nw bs p schedule = Some p' →
  pbar p = bs * Z.of_nat (length (completed p)) →
  NoDup (completed p) →
  (∀ i, i ∈ completed p ↔ ∃ f, futures p !! i = Some f ∧ is_finished f = true) →
  pbar p' = bs * Z.of_nat (length (completed p')) ∧
  NoDup (completed p') ∧
  (∀ i, i ∈ completed p' ↔ ∃ f, futures p' !! i = Some f ∧ is_finished f = true).
Proof.
  induction schedule as [|e es IH]; intros p p'; simpl.
  - by intros [= <-].
  - destruct (pool_step get_embeddings nw bs p e) as [p1|] eqn:Hstep; [|done].
    simpl. intros Hrun Hbar Hnd Hin.
    destruct (pool_step_completed _ _ _ _ _ Hstep Hbar Hnd Hin) as (? & ? & ?).
    by eapply IH.
Qed.

Lemma pool_weight_submit_all batches :
  pool_weight (submit_all batches) = (2 * length batches)%nat.
Proof.
  unfold pool_weight. simpl. induction batches as [|b batches IH]; [done|].
  rewrite !fmap_cons. simpl. rewrite IH. lia.
Qed.

Lemma pool_weight_done p : all_done p = true → pool_weight p = 0%nat.
Proof.
  unfold all_done, pool_weight.
  induction (futures p) as [|[b [| |r]] fs IH]; simpl; done.
Qed.

(** X11: a run of the pool to its end takes two events for each batch, a
    start and a completion; [as_completed] yields each future once; and
    the progress bar has been advanced by [batch_size] for each batch,
    whatever the size of the last one. *)
Theorem pool_run_accounting (num_workers batch_size : Z)
    (batches : list (list tokens)) (schedule : list event) (p : pool) :
  pool_run get_embeddings num_workers batch_size (submit_all batches) schedule
    = Some p →
  all_done p = true →
  length schedule = (2 * length batches)%nat ∧
  completed p ≡ₚ seq 0 (length batches) ∧
  pbar p = batch_size * Z.of_nat (length batches).
Proof.
  intros Hrun Hdone.
  pose proof (EmbedFacts.pool_run_weight get_embeddings _ _ _ _ _ Hrun) as Hw.
  rewrite pool_weight_submit_all, (pool_weight_done _ Hdone) in Hw.
  destruct (EmbedFacts.pool_inv_run get_embeddings _ _ _ _ _ _
              (EmbedFacts.pool_inv_submit_all get_embeddings batches) Hrun)
    as [Hb _].
  assert (length (futures p) = length batches) as Hlen
    by (by rewrite <- Hb, length_fmap).
  destruct (pool_run_completed _ _ _ _ _ Hrun) as (Hbar & Hnd & Hin).
  { simpl. lia. }
  { apply NoDup_nil_2. }
  { intros i. simpl. split; [by intros ?%not_elem_of_nil|].
    intros (f & Hf & Hfin). rewrite list_lookup_fmap in Hf.
    apply fmap_Some in Hf as (b & _ & ->). done. }
  assert (completed p ≡ₚ seq 0 (length batches)) as Hperm.
  { apply NoDup_Permutation; [done|apply NoDup_seq|].
    intros i. rewrite Hin, elem_of_seq. split.
    - intros (f & Hf%lookup_lt_Some & _). lia.
    - intros [_ Hi]. destruct (lookup_lt_is_Some_2 (futures p) i) as [f Hf]; [lia|].
      exists f. split; [done|]. unfold all_done in Hdone.
      rewrite forallb_forall in Hdone. apply Hdone.
      apply list_elem_of_In. by eapply list_elem_of_lookup_2. }
  split_and!; [lia|done|].
  rewrite Hbar. by rewrite Hperm, length_seq.
Qed.

End Accounting.

(** X11: three texts in two batches of two: four events, and a bar at 4
    where the total is 3. *)
Lemma pool_run_accounting_witness :
  length [Start 1; Start 0; Complete 1; Complete 0]%nat = (2 * 2)%nat ∧
  [1; 0]%nat ≡ₚ seq 0 2 ∧
  4 = 2 * Z.of_nat 2.
Proof.
  apply (pool_run_accounting token_service 2 2 [[[97]; [98]]; [[99]]]
           [Start 1; Start 0; Complete 1; Complete 0]%nat
           (Pool [Future [[97]; [98]] (Finished (token_service [[97]; [98]]));
                  Future [[99]] (Finished (token_service [[99]]))]
                 [1; 0]%nat 4)); reflexivity.
Defined.

(** *** The token count and the embeddings column *)

Lemma num_tokens_cons (article : tokens) (l : list tokens) :
  num_tokens (article :: l) = Z.of_nat (length article) + num_tokens l.
Proof.
  unfold num_tokens. simpl.
  assert (∀ z, foldl (λ total (a : tokens), total + Z.of_nat (length a)) z l
               = z + foldl (λ total (a : tokens), total + Z.of_nat (length a)) 0 l)
    as H; [|apply H].
  induction l as [|b l IH]; intros z; simpl; [lia|].
  rewrite IH, (IH (0 + _)). lia.
Qed.

Section Columns.
Variable encode : string → tokens.
Variable special_token : string → bool.
Variable get_embeddings : list tokens → option (list Sim.vec).
(** The embedding model behind the endpoint: the vector of one text. *)
Variable model : tokens → Sim.vec.

(** X12: the token count that the cost estimate is computed from is that of
    the truncated texts: at most [max_context_len] for each text of the
    corpus, and never more than the count of the texts as encoded. *)
Theorem num_tokens_truncated (corpus : list string) (max_context_len : Z) :
  0 ≤ max_context_len →
  0 ≤ num_tokens (encoded_corpus encode corpus max_context_len) ∧
  num_tokens (encoded_corpus encode corpus max_context_len)
    ≤ Z.of_nat (length corpus) * max_context_len ∧
  num_tokens (encoded_corpus encode corpus max_context_len)
    ≤ num_tokens (encode <$> corpus).
Proof.
  intros Hmax. unfold encoded_corpus.
  induction corpus as [|text corpus IH]; [done|].
  rewrite !fmap_cons, !num_tokens_cons, PyFacts.slice_to_nonneg by done.
  rewrite length_take. simpl length. lia.
Qed.

(** The dataframe that [generate_embeddings] leaves: each row with the
    vector of its own text in the column [embeddings]. *)
Lemma set_embeddings_column_model (df : list CatalogItem)
    (column : CatalogItem → string) :
  ∃ df',
    set_embeddings_column df
      (model <$> encoded_corpus encode (column <$> df) default_max_context_len)
      = Some df' ∧
    length df' = length df ∧
    ∀ i row, df !! i = Some row →
      ∃ row', df' !! i = Some row' ∧
        item_id row' = item_id row ∧ gender row' = gender row ∧
        articleType row' = articleType row ∧
        productDisplayName row' = productDisplayName row ∧
        embeddings row' =
          model (Py.slice_to default_max_context_len (encode (column row))).
Proof.
  unfold set_embeddings_column, encoded_corpus.
  rewrite decide_True by (by rewrite !length_fmap).
  eexists. split; [done|]. split.
  - rewrite length_zip_with, !length_fmap. lia.
  - intros i row Hi. rewrite lookup_zip_with, Hi. simpl.
    rewrite !list_lookup_fmap, Hi. simpl. eexists. split; [done|]. done.
Qed.

(** X13: on a column that the tokenizer accepts, with an endpoint that
    answers every batch with one vector for each text, in the order of
    the batch, [generate_embeddings] produces one dataframe, whatever
    the threads do: it keeps the rows and their order, changes no other
    column, and stores in each row the vector of that row's own text,
    cut to the default context length.  Every run of the pool to its
    end leaves this dataframe, and there is such a run. *)
Theorem generate_embeddings_rows (df : list CatalogItem)
    (column : CatalogItem → string) :
  Forall (λ row, special_token (column row) = false) df →
  (∀ batch : list tokens, get_embeddings batch = Some (model <$> batch)) →
  ∃ df',
    length df' = length df ∧
    (∀ i row, df !! i = Some row →
       ∃ row', df' !! i = Some row' ∧
         item_id row' = item_id row ∧ gender row' = gender row ∧
         articleType row' = articleType row ∧
         productDisplayName row' = productDisplayName row ∧
         embeddings row' =
           model (Py.slice_to default_max_context_len (encode (column row)))) ∧
    (∀ schedule,
       generate_embeddings encode special_token get_embeddings schedule df column
         = Returned df' ∨
       generate_embeddings encode special_token get_embeddings schedule df column
         = Blocked) ∧
    (∃ schedule,
       generate_embeddings encode special_token get_embeddings schedule df column
         = Returned df').
Proof.
  intros Hsp Hserv.
  destruct (set_embeddings_column_model df column) as (df' & Hset & Hlen & Hrows).
  exists df'. split_and!; [done|done| |].
  - intros schedule. unfold generate_embeddings.
    destruct (EmbedFacts.embed_corpus_total encode special_token get_embeddings
                model (column <$> df) default_batch_size default_num_workers
                default_max_context_len) as (Hany & _ & _);
      [by apply Forall_fmap|done|done|done|].
    destruct (Hany schedule) as [-> | ->]; [left; by rewrite Hset|by right].
  - destruct (EmbedFacts.embed_corpus_total encode special_token get_embeddings
                model (column <$> df) default_batch_size default_num_workers
                default_max_context_len) as (_ & _ & schedule & Hret);
      [by apply Forall_fmap|done|done|done|].
    exists schedule. unfold generate_embeddings. by rewrite Hret, Hset.
Qed.

End Columns.

(** X12: two texts of three and one token under a budget of two. *)
Lemma num_tokens_truncated_witness :
  0 ≤ num_tokens (encoded_corpus byte_tokens ["abc"; "d"] 2) ∧
  num_tokens (encoded_corpus byte_tokens ["abc"; "d"] 2) ≤ Z.of_nat 2 * 2 ∧
  num_tokens (encoded_corpus byte_tokens ["abc"; "d"] 2)
    ≤ num_tokens (byte_tokens <$> ["abc"; "d"]).
Proof. apply (num_tokens_truncated byte_tokens ["abc"; "d"] 2). lia. Defined.

(** X13: a catalog of two rows, embedded by their names; the run that
    embeds the one batch returns the dataframe. *)
Lemma generate_embeddings_rows_witness :
  (∃ df0,
     generate_embeddings byte_tokens endoftext token_service
       (sequential_schedule 1) [sneakers; dress] productDisplayName
       = Returned df0) ∧
  ∃ df',
    length df' = length [sneakers; dress] ∧
    (∀ i row, [sneakers; dress] !! i = Some row →
       ∃ row', df' !! i = Some row' ∧
         item_id row' = item_id row ∧ gender row' = gender row ∧
         articleType row' = articleType row ∧
         productDisplayName row' = productDisplayName row ∧
         embeddings row' =
           token_vector (Py.slice_to default_max_context_len
                           (byte_tokens (productDisplayName row)))) ∧
    (∀ schedule,
       generate_embeddings byte_tokens endoftext token_service schedule
         [sneakers; dress] productDisplayName = Returned df' ∨
       generate_embeddings byte_tokens endoftext token_service schedule
         [sneakers; dress] productDisplayName = Blocked) ∧
    (∃ schedule,
       generate_embeddings byte_tokens endoftext token_service schedule
         [sneakers; dress] productDisplayName = Returned df').
Proof.
  split; [eexists; vm_compute; reflexivity|].
  apply (generate_embeddings_rows byte_tokens endoftext token_service token_vector
           [sneakers; dress] productDisplayName).
  - repeat constructor.
  - intros batch. reflexivity.
Defined.

End EmbedExtra.

(** ** Retrieval and the paths of the images *)

Module RagExtra.

Import Rag RagSpec Cells.

Lemma string_length_app (s t : string) :
  String.length (s +:+ t) = (String.length s + String.length t)%nat.
Proof. induction s as [|a s IH]; simpl; [done|]. by rewrite IH. Qed.

Lemma string_app_inj_r (s1 s2 t : string) : s1 +:+ t = s2 +:+ t → s1 = s2.
Proof.
  revert s2. induction s1 as [|a s1 IH]; intros [|b s2] H.
  - done.
  - apply (f_equal String.length) in H.
    rewrite !string_length_app in H. simpl in H. lia.
  - apply (f_equal String.length) in H.
    rewrite !string_length_app in H. simpl in H. lia.
  - change (String a (s1 +:+ t) = String b (s2 +:+ t)) in H.
    injection H as -> H. f_equal. by apply IH.
Qed.

Lemma image_path_inj (a b : Z) : image_path a = image_path b → a = b.
Proof.
  unfold image_path. intros H%String.app_inj%string_app_inj_r.
  by apply pretty_Z_inj in H.
Qed.

(** X14: two items have the same image path only when they have the same
    identifier, so the paths of a list of items are distinct exactly
    when the identifiers are: removing duplicate paths removes
    duplicate items and nothing else. *)
Theorem candidate_paths_distinct (matching_items : list CatalogItem) :
  (∀ a b, a ∈ matching_items → b ∈ matching_items →
     image_path (item_id a) = image_path (item_id b) ↔ item_id a = item_id b) ∧
  (NoDup (candidate_paths matching_items) ↔ NoDup (item_id <$> matching_items)).
Proof.
  split.
  - intros a b _ _. split; [apply image_path_inj|by intros ->].
  - unfold candidate_paths.
    rewrite (list_fmap_compose item_id image_path). split.
    + apply NoDup_fmap_1.
    + apply NoDup_fmap_2. intros a b. apply image_path_inj.
Qed.

(** The paths that the display cell collects from the [id]s of rows. *)
Lemma collect_paths_candidate_paths (rows : list CatalogItem) :
  collect_paths ((λ row, [id_cell (item_id row)]) <$> rows)
    = Some (candidate_paths rows).
Proof.
  unfold collect_paths, candidate_paths.
  induction rows as [|row rows IH]; [done|].
  rewrite !fmap_cons. cbn [mapM]. rewrite IH. done.
Qed.

Lemma cells_id (row : CatalogItem) (value : Z) :
  id_cell value ∈ cells row → value = item_id row.
Proof.
  unfold cells. rewrite !elem_of_cons, elem_of_nil.
  intros [H|[H|[H|[H|[H|[]]]]]]; by inversion H.
Qed.

Lemma series_getitem_id_cell (c : cell) (value : Z) :
  series_getitem_id [c] = Some value → c = id_cell value.
Proof. destruct c; [|done..]. by intros [= ->]. Qed.

Section Retrieval.
Variable get_embeddings : list string → option (list Sim.vec).

#[local] Abbreviation rag_fold df :=
  (foldl (λ similar_items desc,
            similar_items ← similar_items;
            rag_step get_embeddings df similar_items desc)).

(** The entries of one description: one cell for each hit. *)
Lemma rows_spec df desc hits rows :
  similar_indices get_embeddings df desc = Some hits →
  mapM (iloc df) hits = Some rows →
  (length rows ≤ 2)%nat ∧
  ∀ item, item ∈ rows →
    ∃ v x row c,
      get_embeddings [desc] = Some [v] ∧ row ∈ df ∧
      Sim.cosine_similarity_manual v (embeddings row) = Some x ∧
      (rag_threshold <=? x)%float = true ∧
      c ∈ cells row ∧ item = [c] ∧
      (c = id_cell (item_id row) ↔ (x <? 1)%float = true).
Proof.
  intros Hhits Hrows.
  destruct (RagFacts.similar_indices_spec _ _ _ _ Hhits) as (Hlen & _ & Hspec).
  split; [by rewrite <- (length_mapM _ _ _ Hrows)|].
  intros item Hitem. apply mapM_Some in Hrows.
  apply list_elem_of_lookup_1 in Hitem as [j Hj].
  destruct (Forall2_lookup_r _ _ _ _ _ Hrows Hj) as (h & Hh & Hiloc).
  destruct (Hspec h) as (v & x & row & Hv & Hx & Hrow & Hcos & Ht);
    [by eapply list_elem_of_lookup_2|].
  destruct (RagFacts.iloc_hit df h x row item Hx Hrow Ht Hiloc)
    as ((c & Hc & ->) & Hid & Hone).
  exists v, x, row, c. split_and!; [done|by eapply list_elem_of_lookup_2|done..|].
  split.
  - intros ->. apply (Hid (item_id row)). cbn. by rewrite bool_decide_true.
  - intros H1. specialize (Hone H1). congruence.
Qed.

Lemma rag_fold_rows df descs : ∀ acc res,
  rag_fold df (Some acc) descs = Some res →
  ∃ rowss,
    res = acc ++ concat rowss ∧
    Forall2 (λ desc rows,
               ∃ hits, similar_indices get_embeddings df desc = Some hits ∧
                       mapM (iloc df) hits = Some rows)
            descs rowss.
Proof.
  induction descs as [|desc descs IH]; intros acc res; simpl.
  - intros [= <-]. exists []. by rewrite app_nil_r.
  - rewrite RagFacts.rag_step_spec.
    destruct (similar_indices get_embeddings df desc) as [hits|] eqn:Hhits;
      simpl; [|by rewrite RagFacts.rag_fold_None].
    destruct (mapM _ hits) as [rows|] eqn:Hrows; simpl;
      [|by rewrite RagFacts.rag_fold_None].
    intros (rowss & -> & Hall)%IH. exists (rows :: rowss). split.
    + simpl. by rewrite app_assoc.
    + constructor; [by eauto|done].
Qed.

Lemma rag_sound df descs res :
  find_matching_items_with_rag get_embeddings df descs = Some res →
  (length res ≤ 2 * length descs)%nat ∧
  ∀ item, item ∈ res →
    ∃ desc v x row c,
      desc ∈ descs ∧ get_embeddings [desc] = Some [v] ∧ row ∈ df ∧
      Sim.cosine_similarity_manual v (embeddings row) = Some x ∧
      (rag_threshold <=? x)%float = true ∧
      c ∈ cells row ∧ item = [c] ∧
      (c = id_cell (item_id row) ↔ (x <? 1)%float = true).
Proof.
  intros (rowss & -> & Hall)%rag_fold_rows. simpl.
  induction Hall as [|desc rows descs rowss (hits & Hhits & Hrows) _ [IHlen IHin]].
  - split; [done|]. by intros item ?%not_elem_of_nil.
  - destruct (rows_spec _ _ _ _ Hhits Hrows) as (Hlen & Hin).
    split.
    + simpl. rewrite length_app. lia.
    + intros item. simpl. rewrite elem_of_app. intros [Hitem|Hitem].
      * destruct (Hin item Hitem) as (v & x & row & c & Hv & Hrest).
        exists desc, v, x, row, c. split; [apply list_elem_of_here|done].
      * destruct (IHin item Hitem) as (d & v & x & row & c & Hd & Hrest).
        exists d, v, x, row, c. split; [by apply list_elem_of_further|done].
Qed.

(** X15: every entry that the retrieval returns is one cell of a row of
    the dataframe it was given, a row that scores at least 0.6 against
    the embedding of one of the descriptions; the cell is the [id] of
    the row exactly when the score is below 1; and no more than two
    entries are returned for each description. *)
Theorem find_matching_items_with_rag_sound (df_items : list CatalogItem)
    (item_descs : list string) (similar_items : list series) :
  find_matching_items_with_rag get_embeddings df_items item_descs
    = Some similar_items →
  (length similar_items ≤ 2 * length item_descs)%nat ∧
  ∀ item, item ∈ similar_items →
    ∃ desc v x row c,
      desc ∈ item_descs ∧ get_embeddings [desc] = Some [v] ∧
      row ∈ df_items ∧
      Sim.cosine_similarity_manual v (embeddings row) = Some x ∧
      (rag_threshold <=? x)%float = true ∧
      c ∈ cells row ∧ item = [c] ∧
      (c = id_cell (item_id row) ↔ (x <? 1)%float = true).
Proof. apply rag_sound. Qed.

Lemma rag_step_empty acc desc :
  rag_step get_embeddings [] acc desc = (_ ← get_embeddings [desc]; Some acc).
Proof.
  unfold rag_step. destruct (get_embeddings [desc]) as [M|]; [|done].
  cbn. rewrite PyFacts.slice_to_nil. cbn. by rewrite app_nil_r.
Qed.

Lemma rag_fold_empty descs : ∀ acc,
  rag_fold [] (Some acc) descs =
    if forallb (λ desc, bool_decide (is_Some (get_embeddings [desc]))) descs
    then Some acc else None.
Proof.
  induction descs as [|desc descs IH]; intros acc; [done|].
  cbn [foldl forallb mbind option_bind]. rewrite rag_step_empty.
  destruct (get_embeddings [desc]) as [M|]; cbn [mbind option_bind].
  - rewrite bool_decide_true by done. apply IH.
  - rewrite bool_decide_false by (by intros [? ?]). apply RagFacts.rag_fold_None.
Qed.

Lemma answers_all descs :
  forallb (λ desc, bool_decide (is_Some (get_embeddings [desc]))) descs = true ↔
  Forall (λ desc, is_Some (get_embeddings [desc])) descs.
Proof.
  induction descs as [|desc descs IH]; cbn [forallb]; [by split|].
  rewrite Forall_cons, <- IH, andb_true_iff, bool_decide_eq_true. done.
Qed.

Lemma answers_not_all descs :
  forallb (λ desc, bool_decide (is_Some (get_embeddings [desc]))) descs = false ↔
  Exists (λ desc, get_embeddings [desc] = None) descs.
Proof.
  induction descs as [|desc descs IH]; cbn [forallb].
  - split; [done|by intros ?%Exists_nil].
  - rewrite Exists_cons, <- IH, andb_false_iff, bool_decide_eq_false.
    by rewrite <- eq_None_not_Some.
Qed.

(** X16: on an empty dataframe the retrieval compares nothing: it
    returns the empty list when the endpoint answers for every
    description, whatever it answers, and it raises exactly when the
    endpoint raises for one of them. *)
Theorem find_matching_items_with_rag_empty (item_descs : list string) :
  (find_matching_items_with_rag get_embeddings [] item_descs = Some [] ↔
     Forall (λ desc, is_Some (get_embeddings [desc])) item_descs) ∧
  (find_matching_items_with_rag get_embeddings [] item_descs = None ↔
     Exists (λ desc, get_embeddings [desc] = None) item_descs).
Proof.
  unfold find_matching_items_with_rag.
  rewrite rag_fold_empty, <- answers_all, <- answers_not_all.
  by destruct (forallb _ item_descs).
Qed.

Lemma rag_fold_acc df descs : ∀ acc,
  rag_fold df (Some acc) descs =
    rows ← rag_fold df (Some []) descs; Some (acc ++ rows).
Proof.
  induction descs as [|desc descs IH]; intros acc; simpl.
  - by rewrite app_nil_r.
  - rewrite !RagFacts.rag_step_spec.
    destruct (similar_indices get_embeddings df desc) as [hits|]; simpl;
      [|by rewrite RagFacts.rag_fold_None].
    destruct (mapM _ hits) as [rows|]; simpl;
      [|by rewrite RagFacts.rag_fold_None].
    rewrite (IH (acc ++ rows)), (IH rows).
    destruct (rag_fold df (Some []) descs) as [r|]; simpl; [|done].
    by rewrite app_assoc.
Qed.

(** X17: the descriptions are handled one by one and in their order: the
    retrieval for a list of descriptions followed by another is the
    retrieval for the first list followed by the retrieval for the
    second, and it raises when either does. *)
Theorem find_matching_items_with_rag_app (df_items : list CatalogItem)
    (item_descs1 item_descs2 : list string) :
  find_matching_items_with_rag get_embeddings df_items (item_descs1 ++ item_descs2) =
    similar_items1 ←
      find_matching_items_with_rag get_embeddings df_items item_descs1;
    similar_items2 ←
      find_matching_items_with_rag get_embeddings df_items item_descs2;
    Some (similar_items1 ++ similar_items2).
Proof.
  unfold find_matching_items_with_rag. rewrite foldl_app.
  destruct (rag_fold df_items (Some []) item_descs1) as [r1|]; simpl.
  - apply rag_fold_acc.
  - apply RagFacts.rag_fold_None.
Qed.

Lemma matching_paths_rows (styles_df : list CatalogItem)
    (item_descs : list string) (item_category item_gender : string)
    (paths : list string) :
  matching_paths get_embeddings styles_df item_descs item_category item_gender
    = Some paths →
  (length paths ≤ 2 * length item_descs)%nat ∧
  ∀ path, path ∈ paths →
    ∃ row, row ∈ styles_df ∧ path = image_path (item_id row) ∧
      (gender row = item_gender ∨ gender row = "Unisex") ∧
      articleType row ≠ item_category ∧
      ∃ desc v x,
        desc ∈ item_descs ∧ get_embeddings [desc] = Some [v] ∧
        Sim.cosine_similarity_manual v (embeddings row) = Some x ∧
        (rag_threshold <=? x)%float = true ∧ (x <? 1)%float = true.
Proof.
  unfold matching_paths, collect_paths.
  destruct (find_matching_items_with_rag _ _ _) as [items|] eqn:Hitems; [|done].
  cbn [mbind option_bind]. intros Hpaths.
  destruct (rag_sound _ _ _ Hitems) as [Hlen Hin].
  rewrite <- (length_mapM _ _ _ Hpaths). split; [done|].
  intros path Hpath. apply mapM_Some in Hpaths.
  apply list_elem_of_lookup_1 in Hpath as [j Hj].
  destruct (Forall2_lookup_r _ _ _ _ _ Hpaths Hj) as (item & Hitem & Hid).
  destruct (Hin item) as (desc & v & x & row & c & Hd & Hv & Hdf & Hcos & Ht
                          & Hc & -> & Hone);
    [by eapply list_elem_of_lookup_2|].
  destruct (series_getitem_id [c]) as [value|] eqn:Hvalue; [|done].
  cbn in Hid. injection Hid as <-.
  apply series_getitem_id_cell in Hvalue as ->.
  apply cells_id in Hc as Hvalue. subst value.
  unfold filter_items in Hdf.
  apply list_elem_of_filter in Hdf as [Htype Hdf].
  apply list_elem_of_filter in Hdf as [Hgender Hdf].
  exists row. split_and!; [done..|].
  exists desc, v, x. split_and!; [done..|]. by apply Hone.
Qed.

(** X18: when the matching cell ends without an exception, each path it
    has collected is the image path of an item of the catalog that has
    the analysed gender or is unisex, whose article type differs from
    that of the analysed item, and whose similarity to one of the
    descriptions is at least 0.6 and below 1; and there are at most two
    paths for each description. *)
Theorem matching_paths_sound (styles_df : list CatalogItem)
    (item_descs : list string) (item_category item_gender : string)
    (paths : list string) :
  matching_paths get_embeddings styles_df item_descs item_category item_gender
    = Some paths →
  (length paths ≤ 2 * length item_descs)%nat ∧
  ∀ path, path ∈ paths →
    ∃ row, row ∈ styles_df ∧ path = image_path (item_id row) ∧
      (gender row = item_gender ∨ gender row = "Unisex") ∧
      articleType row ≠ item_category ∧
      ∃ desc v x,
        desc ∈ item_descs ∧ get_embeddings [desc] = Some [v] ∧
        Sim.cosine_similarity_manual v (embeddings row) = Some x ∧
        (rag_threshold <=? x)%float = true ∧ (x <? 1)%float = true.
Proof. apply matching_paths_rows. Qed.

End Retrieval.

(** X15: two descriptions that both retrieve the sneakers. *)
Lemma find_matching_items_with_rag_sound_witness :
  find_matching_items_with_rag near_axis [sneakers; dress]
    ["White Sneakers"; "Canvas Sneakers"] = Some [[id_cell 1]; [id_cell 1]] ∧
  (length [[id_cell 1]; [id_cell 1]]
     ≤ 2 * length ["White Sneakers"; "Canvas Sneakers"])%nat ∧
  ∀ item, item ∈ [[id_cell 1]; [id_cell 1]] →
    ∃ desc v x row c,
      desc ∈ ["White Sneakers"; "Canvas Sneakers"] ∧
      near_axis [desc] = Some [v] ∧
      row ∈ [sneakers; dress] ∧
      Sim.cosine_similarity_manual v (embeddings row) = Some x ∧
      (rag_threshold <=? x)%float = true ∧
      c ∈ cells row ∧ item = [c] ∧
      (c = id_cell (item_id row) ↔ (x <? 1)%float = true).
Proof.
  split; [vm_compute; reflexivity|].
  apply (find_matching_items_with_rag_sound near_axis [sneakers; dress]
           ["White Sneakers"; "Canvas Sneakers"] [[id_cell 1]; [id_cell 1]]).
  vm_compute. reflexivity.
Defined.

(** A description at similarity 1 with the sneakers: the entry is the
    [gender] cell of the row, not its [id]. *)
Example find_matching_items_with_rag_perfect_match :
  find_matching_items_with_rag first_axis [sneakers; dress] ["White Sneakers"]
    = Some [[gender_cell "Unisex"]].
Proof. vm_compute. reflexivity. Qed.

(** X18: a dress is analysed: the dress of the catalog is filtered out, and
    the sneakers are proposed. *)
Lemma matching_paths_sound_witness :
  matching_paths near_axis [sneakers; dress] ["White Sneakers"] "Dresses" "Women"
    = Some ["data/sample_clothes/sample_images/1.jpg"] ∧
  (length ["data/sample_clothes/sample_images/1.jpg"]
     ≤ 2 * length ["White Sneakers"])%nat ∧
  ∀ path, path ∈ ["data/sample_clothes/sample_images/1.jpg"] →
    ∃ row, row ∈ [sneakers; dress] ∧ path = image_path (item_id row) ∧
      (gender row = "Women" ∨ gender row = "Unisex") ∧
      articleType row ≠ "Dresses" ∧
      ∃ desc v x,
        desc ∈ ["White Sneakers"] ∧ near_axis [desc] = Some [v] ∧
        Sim.cosine_similarity_manual v (embeddings row) = Some x ∧
        (rag_threshold <=? x)%float = true ∧ (x <? 1)%float = true.
Proof.
  split; [vm_compute; reflexivity|].
  apply (matching_paths_sound near_axis [sneakers; dress] ["White Sneakers"]
           "Dresses" "Women").
  vm_compute. reflexivity.
Defined.

(** With a description at similarity 1 the display cell finds no [id]
    in the entry and raises. *)
Example matching_paths_perfect_match :
  matching_paths first_axis [sneakers; dress] ["White Sneakers"] "Dresses" "Women"
    = None.
Proof. vm_compute. reflexivity. Qed.

End RagExtra.

(** ** The guardrail loop, with and without exceptions *)

Module GuardrailExtra.

Import Guardrail GuardrailSpec LoopSpec.

Section Loop.
Variable encode_image_to_base64 : string → option string.
Variable check_match : string → string → option string.
Variable json_loads : string → option json.

#[local] Abbreviation reply_of :=
  (GuardrailSpec.reply_of encode_image_to_base64 check_match json_loads).
#[local] Abbreviation accepted :=
  (GuardrailSpec.accepted encode_image_to_base64 check_match json_loads).
#[local] Abbreviation raises :=
  (GuardrailSpec.raises encode_image_to_base64 check_match json_loads).
#[local] Abbreviation says_yes :=
  (LoopSpec.says_yes encode_image_to_base64 check_match json_loads).
#[local] Abbreviation gives_reason :=
  (LoopSpec.gives_reason encode_image_to_base64 check_match json_loads).
#[local] Abbreviation verified_last :=
  (LoopSpec.verified_last encode_image_to_base64).
#[local] Abbreviation displayed_last :=
  (LoopSpec.displayed_last encode_image_to_base64 check_match json_loads).
#[local] Abbreviation verify_loop :=
  (Guardrail.verify_loop encode_image_to_base64 check_match json_loads).

Lemma classify_Accept reply reason :
  classify reply = Accept reason →
  ∃ m, reply = Some m ∧ getitem m "answer" = Some (JStr "yes") ∧
       getitem m "reason" = Some reason.
Proof.
  unfold classify. destruct reply as [m|]; [|done].
  destruct (getitem m "answer") as [answer|] eqn:Ha; [|done].
  destruct (eq_str answer "yes") eqn:Heq; [|done].
  apply GuardrailFacts.eq_str_true in Heq as ->.
  destruct (getitem m "reason") as [r|] eqn:Hreason; [|done].
  intros [= <-]. eauto.
Qed.

Lemma classify_Error_true reply :
  classify reply = Error true →
  ∃ m, reply = Some m ∧ getitem m "answer" = Some (JStr "yes").
Proof.
  unfold classify. destruct reply as [m|]; [|done].
  destruct (getitem m "answer") as [answer|] eqn:Ha; [|done].
  destruct (eq_str answer "yes") eqn:Heq; [|done].
  apply GuardrailFacts.eq_str_true in Heq as ->.
  destruct (getitem m "reason") as [r|]; [done|]. eauto.
Qed.

Lemma accepted_says_yes encoded_image p : accepted encoded_image p → says_yes encoded_image p.
Proof.
  unfold GuardrailSpec.accepted, LoopSpec.says_yes.
  destruct (classify (reply_of encoded_image p)) as [reason| |[]] eqn:Hv; try done.
  intros _. apply classify_Accept in Hv as (m & ? & ? & ?). eauto.
Qed.

Lemma displayed_last_says_yes encoded_image p q :
  q ∈ displayed_last encoded_image p → says_yes encoded_image q.
Proof.
  unfold LoopSpec.displayed_last, LoopSpec.says_yes.
  destruct (classify (reply_of encoded_image p)) as [reason| |[]] eqn:Hv;
    try (by intros ?%not_elem_of_nil).
  intros ->%list_elem_of_singleton. by apply classify_Error_true.
Qed.

Lemma displayed_last_sublist encoded_image p :
  displayed_last encoded_image p `sublist_of` verified_last p.
Proof.
  unfold LoopSpec.displayed_last, LoopSpec.verified_last, GuardrailSpec.reply_of.
  destruct (encode_image_to_base64 p) as [img|]; simpl; [|done].
  destruct (classify _) as [reason| |[]]; done || apply sublist_nil_l.
Qed.

(** A run of the loop to its end: the reasons printed are those of the
    accepted paths, in their order. *)
Lemma verify_loop_reasons encoded_image paths : ∀ st st',
  verify_loop encoded_image paths st = (st', true) →
  ∃ rs, reasons st' = reasons st ++ rs ∧
        Forall2 (gives_reason encoded_image)
                (filter (accepted encoded_image) paths) rs.
Proof.
  induction paths as [|path rest IH]; intros st st'; simpl.
  - intros [= <-]. exists []. by rewrite app_nil_r.
  - destruct (encode_image_to_base64 path) as [img|] eqn:Himg; [|done].
    assert (reply_of encoded_image path
            = match_of check_match json_loads encoded_image img) as Hr.
    { unfold GuardrailSpec.reply_of. by rewrite Himg. }
    destruct (classify (match_of check_match json_loads encoded_image img))
      as [reason| |[]] eqn:Hv; [| |done|done].
    + intros (rs & Hrs & Hall)%IH. simpl in *.
      rewrite filter_cons, decide_True
        by (unfold GuardrailSpec.accepted; by rewrite Hr, Hv).
      exists (reason :: rs). rewrite <- app_assoc in Hrs. split; [done|].
      constructor; [|done]. unfold LoopSpec.gives_reason. rewrite Hr.
      by apply classify_Accept.
    + intros (rs & Hrs & Hall)%IH. simpl in *.
      rewrite filter_cons, decide_False
        by (unfold GuardrailSpec.accepted; by rewrite Hr, Hv).
      by exists rs.
Qed.

(** A run of the loop that an exception stops: what was done with the
    paths before the one that raised, and what with that one. *)
Lemma verify_loop_stops encoded_image paths : ∀ st st',
  verify_loop encoded_image paths st = (st', false) →
  ∃ pre p post rs,
    paths = pre ++ p :: post ∧
    Forall (λ q, ¬ raises encoded_image q) pre ∧
    raises encoded_image p ∧
    verified st' = verified st ++ pre ++ verified_last p ∧
    displayed st' =
      displayed st ++ filter (accepted encoded_image) pre
        ++ displayed_last encoded_image p ∧
    reasons st' = reasons st ++ rs ∧
    Forall2 (gives_reason encoded_image) (filter (accepted encoded_image) pre) rs.
Proof.
  induction paths as [|path rest IH]; intros st st'; simpl; [done|].
  destruct (encode_image_to_base64 path) as [img|] eqn:Himg.
  2: { intros [= <-]. exists [], path, rest, [].
       unfold GuardrailSpec.raises, LoopSpec.verified_last, LoopSpec.displayed_last,
         GuardrailSpec.reply_of.
       rewrite Himg. simpl. rewrite !app_nil_r. split_and!; done || constructor. }
  assert (reply_of encoded_image path
          = match_of check_match json_loads encoded_image img) as Hr.
  { unfold GuardrailSpec.reply_of. by rewrite Himg. }
  destruct (classify (match_of check_match json_loads encoded_image img))
    as [reason| |[]] eqn:Hv.
  - intros (pre & p & post & rs & -> & Hpre & Hp & Hver & Hdis & Hrs & Hall)%IH.
    simpl in *. exists (path :: pre), p, post, (reason :: rs).
    rewrite filter_cons, decide_True
      by (unfold GuardrailSpec.accepted; by rewrite Hr, Hv).
    rewrite <- !app_assoc in *. split_and!; try done.
    + constructor; [|done]. unfold GuardrailSpec.raises. by rewrite Hr, Hv.
    + constructor; [|done]. unfold LoopSpec.gives_reason. rewrite Hr.
      by apply classify_Accept.
  - intros (pre & p & post & rs & -> & Hpre & Hp & Hver & Hdis & Hrs & Hall)%IH.
    simpl in *. exists (path :: pre), p, post, rs.
    rewrite filter_cons, decide_False
      by (unfold GuardrailSpec.accepted; by rewrite Hr, Hv).
    rewrite <- !app_assoc in *. split_and!; try done.
    constructor; [|done]. unfold GuardrailSpec.raises. by rewrite Hr, Hv.
  - intros [= <-]. exists [], path, rest, [].
    unfold GuardrailSpec.raises, LoopSpec.verified_last, LoopSpec.displayed_last.
    rewrite Hr, Hv, Himg. simpl. rewrite !app_nil_r. split_and!; done || constructor.
  - intros [= <-]. exists [], path, rest, [].
    unfold GuardrailSpec.raises, LoopSpec.verified_last, LoopSpec.displayed_last.
    rewrite Hr, Hv, Himg. simpl. rewrite !app_nil_r. split_and!; done || constructor.
Qed.

Lemma not_raises encoded_image p :
  ¬ raises encoded_image p ↔
  ∃ img reply m answer,
    encode_image_to_base64 p = Some img ∧
    check_match encoded_image img = Some reply ∧
    json_loads reply = Some m ∧
    getitem m "answer" = Some answer ∧
    (answer = JStr "yes" → is_Some (getitem m "reason")).
Proof.
  unfold GuardrailSpec.raises, GuardrailSpec.reply_of, match_of.
  destruct (encode_image_to_base64 p) as [img|] eqn:Himg; simpl.
  2: { split; [intros Hn; exfalso; by apply Hn|].
       by intros (img' & reply' & m' & a' & Hi & _). }
  destruct (check_match encoded_image img) as [reply|] eqn:Hreply; simpl.
  2: { split; [intros Hn; exfalso; by apply Hn|].
       intros (img' & reply' & m' & a' & [= <-] & Hc & _). congruence. }
  destruct (json_loads reply) as [m|] eqn:Hm.
  2: { split; [intros Hn; exfalso; by apply Hn|].
       intros (img' & reply' & m' & a' & [= <-] & Hc & Hl & _). congruence. }
  unfold classify.
  destruct (getitem m "answer") as [answer|] eqn:Ha.
  2: { split; [intros Hn; exfalso; by apply Hn|].
       intros (img' & reply' & m' & a' & [= <-] & Hc & Hl & Hans & _). congruence. }
  destruct (eq_str answer "yes") eqn:Heq.
  - apply GuardrailFacts.eq_str_true in Heq as ->.
    destruct (getitem m "reason") as [r|] eqn:Hr.
    + split; [|done]. intros _. exists img, reply, m, (JStr "yes").
      by split_and!.
    + split; [intros Hn; exfalso; by apply Hn|].
      intros (img' & reply' & m' & a' & [= <-] & Hc & Hl & Hans & Hyes).
      assert (reply' = reply) as -> by congruence.
      assert (m' = m) as -> by congruence.
      assert (a' = JStr "yes") as -> by congruence.
      destruct (Hyes eq_refl) as [r Hr']. congruence.
  - split; [|done]. intros _. exists img, reply, m, answer.
    split_and!; try done. intros ->.
    assert (eq_str (JStr "yes") "yes" = true) by (by apply GuardrailFacts.eq_str_true).
    congruence.
Qed.

Lemma completes_iff encoded_image paths st :
  (verify_loop encoded_image paths st).2 = true ↔
  Forall (λ p, ¬ raises encoded_image p) paths.
Proof.
  split.
  - destruct (verify_loop encoded_image paths st) as [st' b'] eqn:Hrun. simpl.
    intros ->. by apply GuardrailFacts.verify_loop_spec in Hrun as (_ & _ & Hok).
  - apply GuardrailFacts.verify_loop_completes.
Qed.

(** X19: the loop reaches its last path exactly when, for every distinct
    path, the image can be read, the model replies, the reply is JSON
    with an "answer", and an answer "yes" comes with a "reason".
    Anything else on one path is an exception that ends the cell. *)
Theorem guardrail_completes (list_set : list string → list string)
    (encoded_image : string) (paths : list string) :
  (guardrail list_set encode_image_to_base64 check_match json_loads
     encoded_image paths).2 = true ↔
  ∀ p, p ∈ list_set paths →
    ∃ img reply m answer,
      encode_image_to_base64 p = Some img ∧
      check_match encoded_image img = Some reply ∧
      json_loads reply = Some m ∧
      getitem m "answer" = Some answer ∧
      (answer = JStr "yes" → is_Some (getitem m "reason")).
Proof.
  unfold guardrail. rewrite <- Forall_forall.
  rewrite completes_iff.
  apply Forall_proper; [|done]. intros p. apply not_raises.
Qed.

Lemma verified_last_elem p q : q ∈ verified_last p → q = p.
Proof.
  unfold LoopSpec.verified_last. destruct (encode_image_to_base64 p).
  - by intros ?%list_elem_of_singleton.
  - by intros ?%not_elem_of_nil.
Qed.

Lemma verified_last_prefix p post : verified_last p `prefix_of` p :: post.
Proof.
  unfold LoopSpec.verified_last. destruct (encode_image_to_base64 p).
  - by exists post.
  - apply prefix_nil.
Qed.

(** What the cell has done when it ends, by an exception or not. *)
Lemma guardrail_shown (list_set : list string → list string)
    (encoded_image : string) (paths : list string) (st : shown) (b : bool) :
  guardrail list_set encode_image_to_base64 check_match json_loads
    encoded_image paths = (st, b) →
  displayed st `sublist_of` verified st ∧
  verified st `prefix_of` list_set paths ∧
  (∀ p, p ∈ displayed st → says_yes encoded_image p) ∧
  Forall2 (gives_reason encoded_image)
          (take (length (reasons st)) (displayed st)) (reasons st) ∧
  (b = true → length (reasons st) = length (displayed st)).
Proof.
  unfold guardrail. intros Hrun. destruct b.
  - destruct (verify_loop_reasons _ _ _ _ Hrun) as (rs & Hrs & Hall).
    apply GuardrailFacts.verify_loop_spec in Hrun as (Hver & Hdis & _).
    simpl in *. rewrite Hver, Hdis, Hrs.
    pose proof (Forall2_length _ _ _ Hall) as Hlen.
    split_and!.
    + apply sublist_filter.
    + done.
    + intros p [Hacc _]%list_elem_of_filter. by apply accepted_says_yes.
    + by rewrite <- Hlen, firstn_all.
    + done.
  - apply verify_loop_stops in Hrun
      as (pre & p & post & rs & Hpaths & _ & _ & Hver & Hdis & Hrs & Hall).
    simpl in *. rewrite Hver, Hdis, Hrs, Hpaths.
    pose proof (Forall2_length _ _ _ Hall) as Hlen.
    split_and!.
    + apply sublist_app; [apply sublist_filter|apply displayed_last_sublist].
    + apply prefix_app, verified_last_prefix.
    + intros q [[Hacc _]%list_elem_of_filter|Hq]%elem_of_app.
      * by apply accepted_says_yes.
      * by eapply displayed_last_says_yes.
    + by rewrite <- Hlen, take_app_length.
    + done.
Qed.

(** X20: whether the cell ends by an exception or not: every image it has
    displayed is one it sent to the model before, in the same order,
    and one that the model answered "yes" for; the paths it sent are
    the first of the distinct paths; the reasons it printed are those
    of the displayed images, in their order, one for each image when no
    exception ended it. *)
Theorem guardrail_displays_only_yes (list_set : list string → list string)
    (encoded_image : string) (paths : list string) (st : shown) (b : bool) :
  guardrail list_set encode_image_to_base64 check_match json_loads
    encoded_image paths = (st, b) →
  displayed st `sublist_of` verified st ∧
  verified st `prefix_of` list_set paths ∧
  (∀ p, p ∈ displayed st → says_yes encoded_image p) ∧
  Forall2 (gives_reason encoded_image)
          (take (length (reasons st)) (displayed st)) (reasons st) ∧
  (b = true → length (reasons st) = length (displayed st)).
Proof. apply guardrail_shown. Qed.

(** X21: an exception on one path ends the cell there: the paths before it
    have been sent to the model and the accepted ones displayed, the
    path itself has been sent unless its image could not be read, and
    no path after it is sent or displayed, whatever the model would
    have answered. *)
Theorem guardrail_stops_at_exception (list_set : list string → list string)
    (encoded_image : string) (paths : list string) (st : shown) :
  (∀ l, NoDup (list_set l)) →
  guardrail list_set encode_image_to_base64 check_match json_loads
    encoded_image paths = (st, false) →
  ∃ pre p post,
    list_set paths = pre ++ p :: post ∧
    Forall (λ q, ¬ raises encoded_image q) pre ∧
    raises encoded_image p ∧
    verified st = pre ++ verified_last p ∧
    displayed st =
      filter (accepted encoded_image) pre ++ displayed_last encoded_image p ∧
    ∀ q, q ∈ post → (q ∉ verified st) ∧ (q ∉ displayed st).
Proof.
  intros Hnd Hrun. pose proof (guardrail_shown _ _ _ _ _ Hrun) as (Hsub & _).
  unfold guardrail in Hrun.
  apply verify_loop_stops in Hrun
    as (pre & p & post & rs & Hpaths & Hpre & Hp & Hver & Hdis & _).
  simpl in *. exists pre, p, post. split_and!; try done.
  intros q Hq. specialize (Hnd paths). rewrite Hpaths in Hnd.
  apply NoDup_app in Hnd as (_ & Hdisj & [Hpq _]%NoDup_cons).
  assert (q ∉ verified st) as Hnv.
  { rewrite Hver. intros [Hin|Hin%verified_last_elem]%elem_of_app.
    - apply (Hdisj q Hin). by apply list_elem_of_further.
    - by subst. }
  split; [done|]. intros Hin. apply Hnv. by eapply elem_of_sublist.
Qed.

(** X22: the order in which the set of paths is iterated decides neither
    whether the cell ends by an exception nor, when it does not, which
    paths are sent to the model and which images are displayed: two
    iteration orders give the same paths and images, up to their
    order. *)
Theorem guardrail_order_independent (list_set1 list_set2 : list string → list string)
    (encoded_image : string) (paths : list string)
    (st1 st2 : shown) (b1 b2 : bool) :
  (∀ l, NoDup (list_set1 l)) → (∀ l x, x ∈ list_set1 l ↔ x ∈ l) →
  (∀ l, NoDup (list_set2 l)) → (∀ l x, x ∈ list_set2 l ↔ x ∈ l) →
  guardrail list_set1 encode_image_to_base64 check_match json_loads
    encoded_image paths = (st1, b1) →
  guardrail list_set2 encode_image_to_base64 check_match json_loads
    encoded_image paths = (st2, b2) →
  b1 = b2 ∧
  (b1 = true →
     verified st1 ≡ₚ verified st2 ∧ displayed st1 ≡ₚ displayed st2).
Proof.
  intros Hnd1 Hset1 Hnd2 Hset2 Hrun1 Hrun2.
  assert (list_set1 paths ≡ₚ list_set2 paths) as Hperm.
  { apply NoDup_Permutation; [done..|]. intros x. by rewrite Hset1, Hset2. }
  unfold guardrail in *.
  pose proof (completes_iff encoded_image (list_set1 paths) (Shown [] [] [])) as Hc1.
  pose proof (completes_iff encoded_image (list_set2 paths) (Shown [] [] [])) as Hc2.
  rewrite Hrun1 in Hc1. rewrite Hrun2 in Hc2. simpl in *.
  rewrite Hperm in Hc1. rewrite <- Hc2 in Hc1.
  assert (b1 = b2) as <-.
  { destruct b1, b2; try done; [symmetry; by apply Hc1|by apply Hc1]. }
  split; [done|]. intros ->.
  apply GuardrailFacts.verify_loop_spec in Hrun1 as (Hver1 & Hdis1 & _).
  apply GuardrailFacts.verify_loop_spec in Hrun2 as (Hver2 & Hdis2 & _).
  simpl in *. rewrite Hver1, Hver2, Hdis1, Hdis2. by rewrite Hperm.
Qed.

Lemma classify_reply encoded_image p img reply m answer :
  encode_image_to_base64 p = Some img →
  check_match encoded_image img = Some reply →
  json_loads reply = Some m →
  getitem m "answer" = Some answer →
  classify (reply_of encoded_image p) =
    if eq_str answer "yes" then
      match getitem m "reason" with
      | Some reason => Accept reason
      | None => Error true
      end
    else Reject.
Proof.
  intros Himg Hreply Hm Ha.
  rewrite (GuardrailFacts.reply_of_Some _ _ _ _ _ _ _ Himg Hreply), Hm.
  unfold classify. by rewrite Ha.
Qed.

Lemma eq_str_yes (answer : json) :
  eq_str answer "yes" = true ↔ answer = JStr "yes".
Proof. apply GuardrailFacts.eq_str_true. Qed.

(** C8, as the code has it: the loop tests [match["answer"] == 'yes'] and
    nothing else.  Of the candidates it has sent to the model, one is
    displayed exactly when the answer of its reply is the string "yes";
    any other answer, "no" or not, leaves it undisplayed and raises
    nothing.  The loop ends by an exception only when, for some
    candidate, the image cannot be read, there is no parsed reply (the
    request failed or the text is no JSON), the reply has no "answer",
    or it says "yes" and has no "reason". *)
Theorem guardrail_two_outcomes (list_set : list string → list string)
    (encoded_image : string) (paths : list string) (st : shown) (b : bool) :
  guardrail list_set encode_image_to_base64 check_match json_loads
    encoded_image paths = (st, b) →
  (∀ p img reply m answer,
     p ∈ verified st →
     encode_image_to_base64 p = Some img →
     check_match encoded_image img = Some reply →
     json_loads reply = Some m →
     getitem m "answer" = Some answer →
     (p ∈ displayed st ↔ answer = JStr "yes")) ∧
  (b = true ↔
   ∀ p, p ∈ list_set paths →
     ∃ img reply m answer,
       encode_image_to_base64 p = Some img ∧
       check_match encoded_image img = Some reply ∧
       json_loads reply = Some m ∧
       getitem m "answer" = Some answer ∧
       (answer = JStr "yes" → is_Some (getitem m "reason"))).
Proof.
  intros Hrun. split.
  - intros p img reply m answer Hp Himg Hreply Hm Ha.
    pose proof (classify_reply encoded_image p img reply m answer
                  Himg Hreply Hm Ha) as Hc.
    assert (accepted encoded_image p →
            answer = JStr "yes") as Hacc.
    { unfold GuardrailSpec.accepted. rewrite Hc.
      destruct (eq_str answer "yes") eqn:Heq; [|done].
      intros _. by apply eq_str_yes. }
    assert (answer = JStr "yes" → ¬ raises encoded_image p →
            accepted encoded_image p) as Hyes.
    { intros Ha' Hnr. apply eq_str_yes in Ha'.
      unfold GuardrailSpec.accepted, GuardrailSpec.raises in *.
      rewrite Hc, Ha' in *. by destruct (getitem m "reason"). }
    unfold guardrail in Hrun. destruct b.
    + apply GuardrailFacts.verify_loop_spec in Hrun as (Hver & Hdis & Hok).
      simpl in *. rewrite Hver in Hp. rewrite Hdis, list_elem_of_filter.
      rewrite Forall_forall in Hok. split; [by intros [? _]; auto|].
      intros Ha'. split; [|done]. apply Hyes; [done|by apply Hok].
    + apply verify_loop_stops in Hrun
        as (pre & p0 & post & rs & Hpaths & Hpre & Hp0 & Hver & Hdis & _).
      simpl in *. rewrite Hver in Hp. rewrite Hdis, elem_of_app, list_elem_of_filter.
      rewrite Forall_forall in Hpre. split.
      * intros [[? _]|Hlast]; [by auto|].
        unfold LoopSpec.displayed_last in Hlast.
        destruct (classify (reply_of encoded_image p0)) as [r| |[]] eqn:Hc0;
          try (by apply not_elem_of_nil in Hlast).
        apply list_elem_of_singleton in Hlast as ->. rewrite Hc in Hc0.
        destruct (eq_str answer "yes") eqn:Heq; [|done]. by apply eq_str_yes.
      * intros Ha'. apply elem_of_app in Hp as [Hp|Hp].
        -- left. split; [|done]. apply Hyes; [done|by apply Hpre].
        -- apply verified_last_elem in Hp as ->.
           right. unfold LoopSpec.displayed_last. rewrite Hc.
           apply eq_str_yes in Ha'. rewrite Ha'.
           unfold GuardrailSpec.raises in Hp0. rewrite Hc, Ha' in Hp0.
           destruct (getitem m "reason"); [done|apply list_elem_of_here].
  - unfold guardrail in Hrun.
    pose proof (completes_iff encoded_image (list_set paths) (Shown [] [] [])) as Hc.
    rewrite Hrun in Hc. simpl in Hc. rewrite Hc, <- Forall_forall.
    apply Forall_proper; [|done]. intros p. apply not_raises.
Qed.

End Loop.

Lemma list_set_elements_NoDup (l : list string) : NoDup (list_set_elements l).
Proof. unfold list_set_elements. apply NoDup_elements. Qed.

Lemma list_set_elements_elem (l : list string) (x : string) :
  x ∈ list_set_elements l ↔ x ∈ l.
Proof.
  unfold list_set_elements. rewrite elem_of_elements. apply elem_of_list_to_set.
Qed.

Lemma list_set_reversed_NoDup (l : list string) : NoDup (list_set_reversed l).
Proof.
  unfold list_set_reversed. rewrite reverse_Permutation.
  apply list_set_elements_NoDup.
Qed.

Lemma list_set_reversed_elem (l : list string) (x : string) :
  x ∈ list_set_reversed l ↔ x ∈ l.
Proof.
  unfold list_set_reversed. rewrite elem_of_reverse.
  apply list_set_elements_elem.
Qed.

(** X20: three candidates, of which [c.jpg] cannot be read and comes last:
    [b.jpg] and [a.jpg] are sent to the model, [a.jpg] is displayed. *)
Lemma guardrail_displays_only_yes_witness :
  ∃ st b,
    guardrail list_set_reversed stub_encode_image stub_check_match stub_json_loads
      "ref" ["a.jpg"; "c.jpg"; "b.jpg"; "a.jpg"] = (st, b) ∧
    displayed st `sublist_of` verified st ∧
    verified st `prefix_of` list_set_reversed ["a.jpg"; "c.jpg"; "b.jpg"; "a.jpg"] ∧
    (∀ p, p ∈ displayed st →
       says_yes stub_encode_image stub_check_match stub_json_loads "ref" p) ∧
    Forall2 (gives_reason stub_encode_image stub_check_match stub_json_loads "ref")
            (take (length (reasons st)) (displayed st)) (reasons st) ∧
    (b = true → length (reasons st) = length (displayed st)).
Proof.
  do 2 eexists. split; [vm_compute; reflexivity|].
  apply (guardrail_displays_only_yes stub_encode_image stub_check_match
           stub_json_loads list_set_reversed "ref"
           ["a.jpg"; "c.jpg"; "b.jpg"; "a.jpg"]).
  vm_compute. reflexivity.
Defined.

(** X21: the same candidates: the cell ends at [c.jpg]. *)
Lemma guardrail_stops_at_exception_witness :
  ∃ st,
    guardrail list_set_reversed stub_encode_image stub_check_match stub_json_loads
      "ref" ["a.jpg"; "c.jpg"; "b.jpg"; "a.jpg"] = (st, false) ∧
    ∃ pre p post,
      list_set_reversed ["a.jpg"; "c.jpg"; "b.jpg"; "a.jpg"] = pre ++ p :: post ∧
      Forall (λ q, ¬ raises stub_encode_image stub_check_match stub_json_loads
                     "ref" q) pre ∧
      raises stub_encode_image stub_check_match stub_json_loads "ref" p ∧
      verified st = pre ++ verified_last stub_encode_image p ∧
      displayed st =
        filter (accepted stub_encode_image stub_check_match stub_json_loads "ref")
               pre
          ++ displayed_last stub_encode_image stub_check_match stub_json_loads
               "ref" p ∧
      ∀ q, q ∈ post → (q ∉ verified st) ∧ (q ∉ displayed st).
Proof.
  eexists. split; [vm_compute; reflexivity|].
  apply (guardrail_stops_at_exception stub_encode_image stub_check_match
           stub_json_loads list_set_reversed "ref"
           ["a.jpg"; "c.jpg"; "b.jpg"; "a.jpg"]).
  - apply list_set_reversed_NoDup.
  - vm_compute. reflexivity.
Defined.

(** When an exception ends the cell, what has been displayed depends on
    the iteration order: with [c.jpg] first nothing is, with [c.jpg]
    last [a.jpg] is. *)
Example guardrail_exception_order :
  guardrail list_set_elements stub_encode_image stub_check_match stub_json_loads
    "ref" ["a.jpg"; "c.jpg"; "b.jpg"; "a.jpg"] = (Shown [] [] [], false) ∧
  guardrail list_set_reversed stub_encode_image stub_check_match stub_json_loads
    "ref" ["a.jpg"; "c.jpg"; "b.jpg"; "a.jpg"]
    = (Shown ["b.jpg"; "a.jpg"] ["a.jpg"] [JStr "because"], false).
Proof. split; vm_compute; reflexivity. Qed.

(** X22: three candidates, iterated in one order and in the reverse order. *)
Lemma guardrail_order_independent_witness :
  ∃ st1 st2 b1 b2,
    guardrail list_set_elements Some stub_check_match stub_json_loads
      "ref" ["a.jpg"; "b.jpg"; "a.jpg"; "c.jpg"] = (st1, b1) ∧
    guardrail list_set_reversed Some stub_check_match stub_json_loads
      "ref" ["a.jpg"; "b.jpg"; "a.jpg"; "c.jpg"] = (st2, b2) ∧
    b1 = b2 ∧
    (b1 = true →
       verified st1 ≡ₚ verified st2 ∧ displayed st1 ≡ₚ displayed st2).
Proof.
  do 4 eexists. split; [vm_compute; reflexivity|].
  split; [vm_compute; reflexivity|].
  apply (guardrail_order_independent Some stub_check_match stub_json_loads
           list_set_elements list_set_reversed "ref"
           ["a.jpg"; "b.jpg"; "a.jpg"; "c.jpg"]).
  - apply list_set_elements_NoDup.
  - apply list_set_elements_elem.
  - apply list_set_reversed_NoDup.
  - apply list_set_reversed_elem.
  - vm_compute. reflexivity.
  - vm_compute. reflexivity.
Defined.

(** C8: three candidates answered "maybe", "yes" and "no": the loop runs
    to its end, and only the one answered "yes" is displayed. *)
Lemma guardrail_two_outcomes_witness :
  guardrail list_set_elements Some stub_check_match stub_json_loads
    "ref" ["a.jpg"; "b.jpg"; "c.jpg"]
    = (Shown ["c.jpg"; "a.jpg"; "b.jpg"] ["a.jpg"] [JStr "because"], true) ∧
  (∀ p img reply m answer,
     p ∈ ["c.jpg"; "a.jpg"; "b.jpg"] →
     Some p = Some img →
     stub_check_match "ref" img = Some reply →
     stub_json_loads reply = Some m →
     getitem m "answer" = Some answer →
     (p ∈ ["a.jpg"] ↔ answer = JStr "yes")) ∧
  (true = true ↔
   ∀ p, p ∈ list_set_elements ["a.jpg"; "b.jpg"; "c.jpg"] →
     ∃ img reply m answer,
       Some p = Some img ∧
       stub_check_match "ref" img = Some reply ∧
       stub_json_loads reply = Some m ∧
       getitem m "answer" = Some answer ∧
       (answer = JStr "yes" → is_Some (getitem m "reason"))).
Proof.
  split; [vm_compute; reflexivity|].
  apply (guardrail_two_outcomes Some stub_check_match stub_json_loads
           list_set_elements "ref" ["a.jpg"; "b.jpg"; "c.jpg"]
           (Shown ["c.jpg"; "a.jpg"; "b.jpg"] ["a.jpg"] [JStr "because"]) true).
  vm_compute. reflexivity.
Defined.

(** C8 as stated fails: the model answers "maybe" for [c.jpg], and the
    loop raises nothing; it runs to its end and leaves the candidate
    undisplayed, as it does for the answer "no". *)
Lemma guardrail_maybe_is_no :
  stub_check_match "ref" "c.jpg" = Some "maybe" ∧
  (∃ m, stub_json_loads "maybe" = Some m ∧
        getitem m "answer" = Some (JStr "maybe")) ∧
  guardrail list_set_elements Some stub_check_match stub_json_loads
    "ref" ["c.jpg"] = (Shown ["c.jpg"] [] [], true) ∧
  guardrail list_set_elements Some stub_check_match stub_json_loads
    "ref" ["b.jpg"] = (Shown ["b.jpg"] [] [], true).
Proof.
  split_and!; [reflexivity| |vm_compute; reflexivity|vm_compute; reflexivity].
  eexists. split; [reflexivity|]. vm_compute. reflexivity.
Qed.

End GuardrailExtra.

(** ** From the catalog to the displayed images *)

Module CellsExtra.

Import Rag Cells Guardrail GuardrailSpec LoopSpec RagSpec.

(** X23: the two cells together, when the matching cell has collected
    its paths: whatever is displayed at the end, by a run that an
    exception ended or not, is the image of an item of the catalog that
    has the analysed gender or is unisex and is of another article type
    than the analysed item, and the reply that [check_match] gave on
    this image, loaded by [json.loads], has the answer "yes"; and the
    model is asked about no more than two images for each
    description. *)
Theorem displayed_items_sound
    (get_embeddings : list string → option (list Sim.vec))
    (list_set : list string → list string)
    (encode_image_to_base64 : string → option string)
    (check_match : string → string → option string)
    (json_loads : string → option json)
    (styles_df : list CatalogItem) (item_descs : list string)
    (item_category item_gender encoded_image : string)
    (paths : list string) (st : shown) (b : bool) :
  (∀ l, NoDup (list_set l)) →
  (∀ l x, x ∈ list_set l → x ∈ l) →
  matching_paths get_embeddings styles_df item_descs item_category item_gender
    = Some paths →
  guardrail list_set encode_image_to_base64 check_match json_loads
    encoded_image paths = (st, b) →
  (length (verified st) ≤ 2 * length item_descs)%nat ∧
  ∀ path, path ∈ displayed st →
    (∃ img reply m,
       encode_image_to_base64 path = Some img ∧
       check_match encoded_image img = Some reply ∧
       json_loads reply = Some m ∧
       getitem m "answer" = Some (JStr "yes")) ∧
    ∃ row, row ∈ styles_df ∧ path = image_path (item_id row) ∧
      (gender row = item_gender ∨ gender row = "Unisex") ∧
      articleType row ≠ item_category.
Proof.
  intros Hnd Hset Hpaths Hrun.
  destruct (RagExtra.matching_paths_rows _ _ _ _ _ _ Hpaths) as [Hlen Hrows].
  destruct (GuardrailExtra.guardrail_shown _ _ _ _ _ _ _ _ Hrun)
    as (Hsub & Hpre & Hyes & _).
  split.
  - apply prefix_length in Hpre.
    assert (length (list_set paths) ≤ length paths)%nat; [|lia].
    apply submseteq_length, NoDup_submseteq; [done|]. intros x. apply Hset.
  - intros path Hpath. split.
    + destruct (Hyes path Hpath) as (m & Hm & Ha).
      unfold reply_of, match_of in Hm.
      destruct (encode_image_to_base64 path) as [img|] eqn:Himg; [|done].
      cbn [mbind option_bind] in Hm.
      destruct (check_match encoded_image img) as [reply|] eqn:Hreply; [|done].
      cbn [mbind option_bind] in Hm. by exists img, reply, m.
    + destruct (Hrows path) as (row & ? & ? & ? & ? & _); [|by eauto].
      apply Hset. destruct Hpre as [k ->]. apply elem_of_app. left.
      by eapply elem_of_sublist.
Qed.

(** X23: a dress is analysed, and the sneakers of the catalog are proposed
    for two descriptions; the model is asked once and the image is
    displayed once. *)
Lemma displayed_items_sound_witness :
  matching_paths near_axis [sneakers; dress]
    ["White Sneakers"; "Canvas Sneakers"] "Dresses" "Women"
    = Some ["data/sample_clothes/sample_images/1.jpg";
            "data/sample_clothes/sample_images/1.jpg"] ∧
  guardrail list_set_elements Some stub_always_yes stub_json_loads "ref"
    ["data/sample_clothes/sample_images/1.jpg";
     "data/sample_clothes/sample_images/1.jpg"]
    = (Shown ["data/sample_clothes/sample_images/1.jpg"]
             ["data/sample_clothes/sample_images/1.jpg"]
             [JStr "because"], true) ∧
  (length ["data/sample_clothes/sample_images/1.jpg"]
     ≤ 2 * length ["White Sneakers"; "Canvas Sneakers"])%nat ∧
  ∀ path, path ∈ ["data/sample_clothes/sample_images/1.jpg"] →
    (∃ img reply m,
       Some path = Some img ∧
       stub_always_yes "ref" img = Some reply ∧
       stub_json_loads reply = Some m ∧
       getitem m "answer" = Some (JStr "yes")) ∧
    ∃ row, row ∈ [sneakers; dress] ∧ path = image_path (item_id row) ∧
      (gender row = "Women" ∨ gender row = "Unisex") ∧
      articleType row ≠ "Dresses".
Proof.
  split; [vm_compute; reflexivity|].
  split; [vm_compute; reflexivity|].
  apply (displayed_items_sound near_axis list_set_elements Some stub_always_yes
           stub_json_loads [sneakers; dress] ["White Sneakers"; "Canvas Sneakers"]
           "Dresses" "Women" "ref"
           ["data/sample_clothes/sample_images/1.jpg";
            "data/sample_clothes/sample_images/1.jpg"]
           (Shown ["data/sample_clothes/sample_images/1.jpg"]
                  ["data/sample_clothes/sample_images/1.jpg"]
                  [JStr "because"]) true).
  - apply GuardrailExtra.list_set_elements_NoDup.
  - intros l x. apply GuardrailExtra.list_set_elements_elem.
  - vm_compute. reflexivity.
  - vm_compute. reflexivity.
Defined.

End CellsExtra.
